(** * Harfiye backend: the room and game state machine of [src/index.ts]

    A shallow embedding of the server's word repository, guess evaluator,
    room registry, timer manager and socket handlers, followed by the
    properties of the design document that were checked against it.

    Conventions of the embedding.
    - A JavaScript string that the code inspects letter by letter (a guess,
      a solution, a word of a list) is the list of its UTF-16 code units;
      socket ids, room ids and player names are only compared and are kept
      as [string].
    - A JavaScript array that is written by index may have holes: it is a
      list of options, and reading a hole or reading out of range gives
      [None], the embedding of [undefined].
    - Numbers that the program computes, or keeps only when they are on a
      list of whole numbers, are integers ([Z]). The [maxPlayers] argument of
      [create_room] is only clamped, so a fraction survives in the game
      state: it is a rational ([Qc], with [Qc_of_Z] for the whole numbers).
      The [wordLength] and [timeLimit] arguments are integers: a fraction is
      off their lists like any other number that is not listed. [NaN] and
      the infinities are not modelled.
    - [String.prototype.toLowerCase] and the three word lists (JSON files
      that are read when the server starts) are not part of the source file;
      they are the fields of the class [Env].
    - [Math.random] and [Date.now] are inputs of the handlers that use them.
    - Objects that closures keep alive (a game state captured by an interval)
      live in a heap; the registry and the timers hold references into it. *)

From stdpp Require Import base list strings gmap.
From Stdlib Require Import ZArith NArith QArith Qcanon Lia Lqa.

#[global] Close Scope Qc_scope.
#[global] Close Scope Q_scope.

#[global] Set Warnings "-clear-no-such-hyp,-register-all".

(* ================================================================== *)
(** * Part I: the model                                                 *)
(* ================================================================== *)

(** ** Strings and arrays *)

Abbreviation char := N.
Abbreviation jsstring := (list N).
Abbreviation jsarray A := (list (option A)).

(** The parts of the runtime environment that the source file only uses. *)
Class Env := {
  toLowerCase : jsstring → jsstring;
  WORDS_5 : list jsstring;
  WORDS_6 : list jsstring;
  WORDS_7 : list jsstring
}.

(** [a[i]]: a hole or an index out of range reads as [undefined]. *)
Definition arr_get {A} (a : jsarray A) (i : nat) : option A := mjoin (a !! i).

(** [a[i] = v]: writing past the end extends the array with holes. *)
Definition arr_set {A} (i : nat) (v : A) (a : jsarray A) : jsarray A :=
  if decide (i < length a) then <[i := Some v]> a
  else a ++ replicate (i - length a) None ++ [Some v].

(** [a.indexOf(x)], [None] for -1. Holes are skipped and no element of the
    arrays of this program is [undefined], so [undefined] is never found. *)
Definition indexOf (a : jsarray char) (x : option char) : option nat :=
  match x with
  | None => None
  | Some c => fst <$> list_find (λ y, y = Some c) a
  end.

(** [x || d] on a number that may be [null] or [undefined]: 0 is falsy. *)
Definition js_or (x : option Z) (d : Z) : Z :=
  match x with
  | Some z => if decide (z = 0)%Z then d else z
  | None => d
  end.

(** [x || d] on a number that need not be whole. *)
Definition js_or_num (x : option Qc) (d : Qc) : Qc :=
  match x with
  | Some q => if decide (q = Qc_of_Z 0) then d else q
  | None => d
  end.

(** [Math.max(a, b)] and [Math.min(a, b)]. *)
Definition Math_max (a b : Qc) : Qc := if decide (a ≤ b)%Qc then b else a.

Definition Math_min (a b : Qc) : Qc := if decide (a ≤ b)%Qc then a else b.

(** [n] as a number, for the length of an array. *)
Definition Qc_of_nat (n : nat) : Qc := Qc_of_Z (Z.of_nat n).

(** ** Word repository *)

(** [accentMap[char]]: the keys are the code units of â Â î Î û Û. *)
Definition accentMap (c : char) : option char :=
  if decide (c = 226 ∨ c = 194)%N then Some 97%N
  else if decide (c = 238 ∨ c = 206)%N then Some 105%N
  else if decide (c = 251 ∨ c = 219)%N then Some 117%N
  else None.

Definition normalizeAccentedChars (text : jsstring) : jsstring :=
  (λ c, default c (accentMap c)) <$> text.

Section WordRepository.
Context `{Env}.

(** [normalizeAccentedChars(w).toLowerCase()] *)
Definition normalized (w : jsstring) : jsstring :=
  toLowerCase (normalizeAccentedChars w).

Definition WORD_LISTS (n : Z) : option (list jsstring) :=
  if decide (n = 5)%Z then Some WORDS_5
  else if decide (n = 6)%Z then Some WORDS_6
  else if decide (n = 7)%Z then Some WORDS_7
  else None.

(** [getRandomWord]; [rnd] stands for the draw of [Math.random]: the index
    [Math.floor(Math.random() * words.length)] ranges over the indices of
    the list. [None] is the thrown [Error]. *)
Definition getRandomWord (wordLength : Z) (rnd : nat) : option jsstring :=
  match WORD_LISTS wordLength with
  | Some words =>
      if decide (0 < length words) then words !! (rnd `mod` length words)
      else None
  | None => None
  end.

Definition isValidWord (word : jsstring) : bool :=
  let normalizedWord := normalized word in
  match WORD_LISTS (Z.of_nat (length word)) with
  | Some words => bool_decide (Exists (λ w, normalized w = normalizedWord) words)
  | None => false
  end.
End WordRepository.

(** ** Guess evaluator *)

Inductive Label := correct | present | absent.

#[global] Instance Label_eq_dec : EqDecision Label.
Proof. solve_decision. Defined.

(** The character ['*'] that marks a consumed letter of the solution. *)
Definition STAR : char := 42%N.

(** Body of the first loop of [evaluateGuess] at index [i]. *)
Definition pass1_step (guessArray : jsstring)
    (st : jsarray Label * jsarray char) (i : nat) : jsarray Label * jsarray char :=
  let '(feedback, solutionArray) := st in
  if decide (guessArray !! i = arr_get solutionArray i)
  then (arr_set i correct feedback, arr_set i STAR solutionArray)
  else st.

(** Body of the second loop of [evaluateGuess] at index [i]. *)
Definition pass2_step (guessArray : jsstring)
    (st : jsarray Label * jsarray char) (i : nat) : jsarray Label * jsarray char :=
  let '(feedback, solutionArray) := st in
  match arr_get feedback i with
  | Some _ => st
  | None =>
      match indexOf solutionArray (guessArray !! i) with
      | Some letterIndex =>
          (arr_set i present feedback, arr_set letterIndex STAR solutionArray)
      | None => (arr_set i absent feedback, solutionArray)
      end
  end.

(** The two loops, over the arrays that [evaluateGuess] builds. *)
Definition evaluateArrays (guessArray solutionArray : jsstring) (wordLength : nat)
    : jsarray Label :=
  let st1 := foldl (pass1_step guessArray) ([], Some <$> solutionArray)
                   (seq 0 wordLength) in
  let st2 := foldl (pass2_step guessArray) st1 (seq 0 wordLength) in
  st2.1.

Definition evaluateGuess `{Env} (guess solution : jsstring) : jsarray Label :=
  evaluateArrays (normalized guess) (normalized solution) (length solution).

(** What the feedback says about a letter [c]: a position is a hit when its
    label is [correct] or [present]. *)
Definition hit (o : option Label) : bool :=
  match o with Some correct | Some present => true | _ => false end.

Definition labeled (c : char) (g : jsstring) (fb : jsarray Label) (n : nat) : nat :=
  length (filter (λ j, g !! j = Some c ∧ hit (arr_get fb j) = true) (seq 0 n)).

Definition occurrences (c : char) (a : jsarray char) : nat :=
  length (filter (λ y, y = Some c) a).

(** The positions of the guess that hold [c] and are labelled [correct] or
    [present], and the number of times [c] occurs in the solution; letters
    are compared as the evaluator compares them, after normalisation. *)
Definition hitPositions `{Env} (c : char) (guess solution : jsstring) : list nat :=
  filter (λ j, normalized guess !! j = Some c
               ∧ hit (arr_get (evaluateGuess guess solution) j) = true)
         (seq 0 (length (normalized guess))).

Definition letterCount `{Env} (c : char) (solution : jsstring) : nat :=
  length (filter (λ x, x = c) (normalized solution)).

(** Hits for [c] recorded so far plus occurrences of [c] still unconsumed:
    the quantity that both loops of the evaluator keep constant. *)
Definition balance (c : char) (g : jsstring) (n : nat)
    (st : jsarray Label * jsarray char) : nat :=
  labeled c g st.1 n + occurrences c st.2.

Definition dense {A} (m : nat) (a : jsarray A) : Prop :=
  ∀ j, j < m → is_Some (arr_get a j).

(** ** Game data ([PlayerState], [GameState]) *)

Inductive Status := waiting | playing | finished.

#[global] Instance Status_eq_dec : EqDecision Status.
Proof. solve_decision. Defined.

Record GuessEntry := { guess : jsstring; feedback : jsarray Label }.

Record PlayerState := {
  id : string;
  name : string;
  guesses : list GuessEntry;
  timeRemaining : Z;
  isReady : bool;
  isTimedOut : bool
}.

Record RematchRequest := {
  requesterId : string;
  requested : bool;
  accepted : option bool
}.

(** [rematchRequest] is [None] both when the property is absent and when it
    holds [undefined]: the code only tests it for truthiness. *)
Record GameState := {
  roomId : string;
  players : list PlayerState;
  maxPlayers : Qc;
  wordLength : Z;
  timeLimit : option Z;
  status : Status;
  solution : jsstring;
  createdAt : Z;
  rematchRequest : option RematchRequest
}.

(** Field assignments. *)
Definition with_guesses (gs : list GuessEntry) (p : PlayerState) : PlayerState :=
  {| id := id p; name := name p; guesses := gs; timeRemaining := timeRemaining p;
     isReady := isReady p; isTimedOut := isTimedOut p |}.

Definition with_timeRemaining (t : Z) (p : PlayerState) : PlayerState :=
  {| id := id p; name := name p; guesses := guesses p; timeRemaining := t;
     isReady := isReady p; isTimedOut := isTimedOut p |}.

Definition with_isTimedOut (b : bool) (p : PlayerState) : PlayerState :=
  {| id := id p; name := name p; guesses := guesses p;
     timeRemaining := timeRemaining p; isReady := isReady p; isTimedOut := b |}.

Definition with_players (ps : list PlayerState) (g : GameState) : GameState :=
  {| roomId := roomId g; players := ps; maxPlayers := maxPlayers g;
     wordLength := wordLength g; timeLimit := timeLimit g; status := status g;
     solution := solution g; createdAt := createdAt g;
     rematchRequest := rematchRequest g |}.

Definition with_status (st : Status) (g : GameState) : GameState :=
  {| roomId := roomId g; players := players g; maxPlayers := maxPlayers g;
     wordLength := wordLength g; timeLimit := timeLimit g; status := st;
     solution := solution g; createdAt := createdAt g;
     rematchRequest := rematchRequest g |}.

Definition with_rematchRequest (rq : option RematchRequest) (g : GameState)
    : GameState :=
  {| roomId := roomId g; players := players g; maxPlayers := maxPlayers g;
     wordLength := wordLength g; timeLimit := timeLimit g; status := status g;
     solution := solution g; createdAt := createdAt g; rematchRequest := rq |}.

(** [players.find(p => p.id === playerId)] *)
Definition findPlayer (playerId : string) (ps : list PlayerState)
    : option PlayerState :=
  List.find (λ p, bool_decide (id p = playerId)) ps.

(** Mutation of the object that [findPlayer] returns: the first player of
    the list with that id. *)
Fixpoint updatePlayer (playerId : string) (f : PlayerState → PlayerState)
    (ps : list PlayerState) : list PlayerState :=
  match ps with
  | [] => []
  | p :: ps' =>
      if bool_decide (id p = playerId) then f p :: ps'
      else p :: updatePlayer playerId f ps'
  end.

(** [players.splice(players.findIndex(p => p.id === playerId), 1)] *)
Fixpoint removePlayer (playerId : string) (ps : list PlayerState)
    : list PlayerState :=
  match ps with
  | [] => []
  | p :: ps' =>
      if bool_decide (id p = playerId) then ps'
      else p :: removePlayer playerId ps'
  end.

(** [players.some(p => p.id === playerId)] *)
Definition hasPlayer (playerId : string) (g : GameState) : bool :=
  existsb (λ p, bool_decide (id p = playerId)) (players g).

(** ** End of game *)

(** [feedback.every(f => f === 'correct')]; [every] skips holes. *)
Definition allCorrect (fb : jsarray Label) : bool :=
  forallb (λ o, match o with Some l => bool_decide (l = correct) | None => true end) fb.

(** [lastGuess && lastGuess.feedback.every(...)] for the last guess of [p]. *)
Definition lastGuessWins (p : PlayerState) : bool :=
  match last (guesses p) with
  | Some lastGuess => allCorrect (feedback lastGuess)
  | None => false
  end.

Record GameEnd := { isEnd : bool; winnerId : option string }.

Definition checkGameEnd (gameState : GameState) : GameEnd :=
  match List.find lastGuessWins (players gameState) with
  | Some player => {| isEnd := true; winnerId := Some (id player) |}
  | None =>
      let timedOutPlayers := filter (λ p, isTimedOut p = true) (players gameState) in
      if decide (length timedOutPlayers = length (players gameState))
      then {| isEnd := true; winnerId := None |}
      else if forallb (λ p, bool_decide (6 ≤ length (guesses p)) || isTimedOut p)
                      (players gameState)
      then {| isEnd := true; winnerId := None |}
      else {| isEnd := false; winnerId := None |}
  end.

(** ** What is sent to clients *)

(** The texts of the [message] fields, in the order of the source. *)
Inductive Message :=
| MsgTimeoutNotice        (* 'Süreniz doldu! Tahmin yapamazsınız artık.' *)
| MsgRoomNotFound         (* 'Oda bulunamadı!' *)
| MsgRoomFull             (* 'Oda dolu!' *)
| MsgGameAlreadyStarted   (* 'Oyun zaten başlamış!' *)
| MsgGameRoomNotFound     (* 'Oyun odası bulunamadı!' *)
| MsgGameNotActive        (* 'Oyun aktif değil!' *)
| MsgWrongLength (n : Z)  (* `Kelime ${wordLength} harf olmalıdır!` *)
| MsgNotInWordList        (* 'Kelime listede bulunamadı!' *)
| MsgPlayerNotFound       (* 'Oyuncu bulunamadı!' *)
| MsgNoAttemptsLeft       (* 'Tahmin hakkınız bitti!' *)
| MsgPlayerTimedOut       (* 'Süreniz doldu! Tahmin yapamazsınız.' *)
| MsgGameNotFinished      (* 'Oyun henüz bitmedi!' *)
| MsgRematchNeedsAll      (* 'Rövanş için tüm oyuncular gerekli!' *)
| MsgNoRematchRequest     (* 'Rövanş talebi bulunamadı!' *)
| MsgCannotAcceptOwn.     (* 'Kendi rövanş talebinizi kabul edemezsiniz!' *)

(** Payloads, as the objects handed to [emit]. *)
Inductive JSValue :=
| JUndefined
| JNull
| JBool (b : bool)
| JNum (q : Qc)
| JStr (s : string)
| JWord (w : jsstring)
| JMsg (m : Message)
| JArr (items : list JSValue)
| JObj (fields : list (string * JSValue)).

(** A whole number as a payload. *)
Abbreviation JInt z := (JNum (Qc_of_Z z)).

(** [k] is a property name somewhere inside [v]. *)
Fixpoint hasKey (k : string) (v : JSValue) : bool :=
  match v with
  | JArr items => existsb (hasKey k) items
  | JObj fields => existsb (λ kv, bool_decide (kv.1 = k) || hasKey k kv.2) fields
  | _ => false
  end.

(** [obj[k]] on the property list of an object. *)
Definition getField (k : string) (fields : list (string * JSValue))
    : option JSValue :=
  match list_find (λ kv : string * JSValue, kv.1 = k) fields with
  | Some (_, kv) => Some kv.2
  | None => None
  end.

Definition labelValue (o : option Label) : JSValue :=
  match o with
  | Some correct => JStr "correct"
  | Some present => JStr "present"
  | Some absent => JStr "absent"
  | None => JUndefined
  end.

Definition statusValue (st : Status) : JSValue :=
  match st with
  | waiting => JStr "waiting"
  | playing => JStr "playing"
  | finished => JStr "finished"
  end.

Definition guessFields (e : GuessEntry) : list (string * JSValue) :=
  [("guess", JWord (guess e)); ("feedback", JArr (labelValue <$> feedback e))].

Definition playerFields (p : PlayerState) : list (string * JSValue) :=
  [("id", JStr (id p)); ("name", JStr (name p));
   ("guesses", JArr ((λ e, JObj (guessFields e)) <$> guesses p));
   ("timeRemaining", JInt (timeRemaining p));
   ("isReady", JBool (isReady p)); ("isTimedOut", JBool (isTimedOut p))].

Definition rematchFields (rq : RematchRequest) : list (string * JSValue) :=
  [("requesterId", JStr (requesterId rq)); ("requested", JBool (requested rq))]
  ++ match accepted rq with Some b => [("accepted", JBool b)] | None => [] end.

(** The own properties of a [GameState] object, in creation order. *)
Definition gameStateFields (g : GameState) : list (string * JSValue) :=
  [("roomId", JStr (roomId g));
   ("players", JArr ((λ p, JObj (playerFields p)) <$> players g));
   ("maxPlayers", JNum (maxPlayers g));
   ("wordLength", JInt (wordLength g));
   ("timeLimit", match timeLimit g with Some t => JInt t | None => JNull end);
   ("status", statusValue (status g));
   ("solution", JWord (solution g));
   ("createdAt", JInt (createdAt g))]
  ++ match rematchRequest g with
     | Some rq => [("rematchRequest", JObj (rematchFields rq))]
     | None => []
     end.

(** [const { solution, ...clientGameState } = gameState; return clientGameState] *)
Definition sanitizeGameStateForClient (gameState : GameState)
    : list (string * JSValue) :=
  filter (λ kv, kv.1 ≠ "solution") (gameStateFields gameState).

Inductive EventName :=
| room_created | room_joined | player_joined | game_start | invalid_word
| update_state | player_timeout | timer_update | game_over
| rematch_requested | rematch_accepted | rematch_countdown | rematch_declined
| player_left | error.

#[global] Instance EventName_eq_dec : EqDecision EventName.
Proof. solve_decision. Defined.

(** Who receives an event: [socket.emit], [io.to(x).emit] (a room, or the
    private room that carries a socket's own id) and [socket.to(x).emit]
    (the room [x] without the sender). *)
Inductive Target :=
| ToSocket (sock : string)
| ToRoom (room : string)
| ToRoomExceptSender (room sender : string).

Record Emit := { target : Target; event : EventName; payload : JSValue }.

Definition errorTo (sock : string) (m : Message) : Emit :=
  {| target := ToSocket sock; event := error;
     payload := JObj [("message", JMsg m)] |}.

Definition invalidWordTo (sock : string) (m : Message) : Emit :=
  {| target := ToSocket sock; event := invalid_word;
     payload := JObj [("message", JMsg m)] |}.

(** [x || null] on an id that may be [undefined]; the empty string is falsy. *)
Definition idOrNull (x : option string) : JSValue :=
  match x with
  | Some i => if decide (i = "") then JNull else JStr i
  | None => JNull
  end.

Definition gameOverEmit (room : string) (gameEnd : GameEnd) (g : GameState) : Emit :=
  {| target := ToRoom room; event := game_over;
     payload := JObj [("winnerId", idOrNull (winnerId gameEnd));
                      ("solution", JWord (solution g));
                      ("gameState", JObj (sanitizeGameStateForClient g))] |}.

Definition stateEmit (t : Target) (ev : EventName) (g : GameState) : Emit :=
  {| target := t; event := ev;
     payload := JObj [("gameState", JObj (sanitizeGameStateForClient g))] |}.

(** ** Server state *)

(** A pending rematch countdown: the closure of [countdownInterval] with the
    room id, the captured game state and its counter. *)
Record Countdown := { cd_room : string; cd_state : nat; cd_count : Z }.

(** [heap]: the [GameState] objects ever created, by reference.
    [gameRooms]: the registry, in insertion order (the order in which the
    handlers scan it). [gameTimers]: per room and player, the live interval;
    what is kept of its closure is the reference of the game state it
    captured (its player is the one with that id in that state).
    [countdowns] and [cleanups]: the rematch countdowns that are running and
    the room deletions scheduled for five minutes after a game's end. *)
Record Server := {
  heap : list GameState;
  gameRooms : list (string * nat);
  gameTimers : gmap string (gmap string nat);
  countdowns : list Countdown;
  cleanups : list string
}.

Definition initialServer : Server :=
  {| heap := []; gameRooms := []; gameTimers := ∅; countdowns := [];
     cleanups := [] |}.

Definition set_heap (h : list GameState) (s : Server) : Server :=
  {| heap := h; gameRooms := gameRooms s; gameTimers := gameTimers s;
     countdowns := countdowns s; cleanups := cleanups s |}.

Definition set_gameRooms (m : list (string * nat)) (s : Server) : Server :=
  {| heap := heap s; gameRooms := m; gameTimers := gameTimers s;
     countdowns := countdowns s; cleanups := cleanups s |}.

Definition set_gameTimers (t : gmap string (gmap string nat)) (s : Server) : Server :=
  {| heap := heap s; gameRooms := gameRooms s; gameTimers := t;
     countdowns := countdowns s; cleanups := cleanups s |}.

Definition set_countdowns (c : list Countdown) (s : Server) : Server :=
  {| heap := heap s; gameRooms := gameRooms s; gameTimers := gameTimers s;
     countdowns := c; cleanups := cleanups s |}.

Definition set_cleanups (c : list string) (s : Server) : Server :=
  {| heap := heap s; gameRooms := gameRooms s; gameTimers := gameTimers s;
     countdowns := countdowns s; cleanups := c |}.

(** Writing the fields of the game state object at reference [r]. *)
Definition setState (r : nat) (g : GameState) (s : Server) : Server :=
  set_heap (<[r := g]> (heap s)) s.

(** *** Room registry ([Map<string, GameState>]) *)

Definition rooms_get (k : string) (m : list (string * nat)) : option nat :=
  match list_find (λ kv : string * nat, kv.1 = k) m with
  | Some (_, kv) => Some kv.2
  | None => None
  end.

(** [Map.set]: an existing key keeps its place in the iteration order. *)
Fixpoint rooms_set (k : string) (v : nat) (m : list (string * nat))
    : list (string * nat) :=
  match m with
  | [] => [(k, v)]
  | kv :: m' => if decide (kv.1 = k) then (k, v) :: m' else kv :: rooms_set k v m'
  end.

Definition rooms_delete (k : string) (m : list (string * nat))
    : list (string * nat) :=
  filter (λ kv, kv.1 ≠ k) m.

(** The scan [for (const [roomId, state] of gameRooms.entries())] that stops at
    the first room one of whose players has the socket's id. *)
Definition roomOf (s : Server) (sock : string) : option (string * nat) :=
  List.find (λ kv : string * nat,
               match heap s !! kv.2 with
               | Some state => hasPlayer sock state
               | None => false
               end)
            (gameRooms s).

(** The scan followed by the test [!gameState || !userRoom]: a room whose id
    is the empty string counts as not found. *)
Definition callerRoom (s : Server) (sock : string) : option (string * nat) :=
  match roomOf s sock with
  | Some (userRoom, r) => if decide (userRoom = "") then None else Some (userRoom, r)
  | None => None
  end.

(** *** Timer manager *)

(** [gameTimers.get(room)?.get(playerId)]: the live interval of a player, as
    the reference of the game state it captured. *)
Definition timerRef (s : Server) (room playerId : string) : option nat :=
  gameTimers s !! room ≫= (.!! playerId).

Definition clearPlayerTimer (room playerId : string) (s : Server) : Server :=
  match gameTimers s !! room with
  | Some roomTimers =>
      if decide (is_Some (roomTimers !! playerId))
      then set_gameTimers (<[room := delete playerId roomTimers]> (gameTimers s)) s
      else s
  | None => s
  end.

Definition clearAllRoomTimers (room : string) (s : Server) : Server :=
  set_gameTimers (delete room (gameTimers s)) s.

(** [startPlayerTimer(roomId, playerId, gameState)], the game state being the
    object at reference [r]. *)
Definition startPlayerTimer (room playerId : string) (r : nat) (s : Server)
    : Server :=
  match heap s !! r with
  | None => s
  | Some gameState =>
      match findPlayer playerId (players gameState) with
      | None => s
      | Some player =>
          if isTimedOut player then s
          else match timeLimit gameState with
               | None =>
                   setState r (with_players
                     (updatePlayer playerId (with_timeRemaining (-1))
                                   (players gameState)) gameState) s
               | Some limit =>
                   let s1 := clearPlayerTimer room playerId s in
                   let roomTimers := default ∅ (gameTimers s1 !! room) in
                   let s2 := setState r (with_players
                     (updatePlayer playerId (with_timeRemaining limit)
                                   (players gameState)) gameState) s1 in
                   set_gameTimers
                     (<[room := <[playerId := r]> roomTimers]> (gameTimers s2)) s2
               end
      end
  end.

(** [gameState.players.forEach(player => startPlayerTimer(roomId, player.id, gameState))] *)
Definition startAllTimers (room : string) (r : nat) (s : Server) : Server :=
  match heap s !! r with
  | None => s
  | Some gameState =>
      foldl (λ s' playerId, startPlayerTimer room playerId r s') s
            (id <$> players gameState)
  end.

(** The end of a game, shared by [handlePlayerTimeout] and [make_guess]:
    status, timers, [game_over] and the deletion scheduled for later. *)
Definition finishGame (room : string) (r : nat) (gameEnd : GameEnd)
    (g : GameState) (s : Server) : Server * list Emit :=
  let g' := with_status finished g in
  let s1 := clearAllRoomTimers room (setState r g' s) in
  (set_cleanups (cleanups s1 ++ [room]) s1, [gameOverEmit room gameEnd g']).

(** The event that tells a player that time is up. *)
Definition timeoutNotice (playerId : string) : Emit :=
  {| target := ToRoom playerId; event := player_timeout;
     payload := JObj [("message", JMsg MsgTimeoutNotice)] |}.

Definition handlePlayerTimeout (room playerId : string) (r : nat) (s : Server)
    : Server * list Emit :=
  match heap s !! r with
  | None => (s, [])
  | Some gameState =>
      match findPlayer playerId (players gameState) with
      | None => (s, [])
      | Some _ =>
          let g1 := with_players
            (updatePlayer playerId (with_isTimedOut true) (players gameState))
            gameState in
          let notice := timeoutNotice playerId in
          let gameEnd := checkGameEnd g1 in
          if isEnd gameEnd then
            let '(s', out) := finishGame room r gameEnd g1 s in
            (s', notice :: out)
          else (setState r g1 s, [notice; stateEmit (ToRoom room) update_state g1])
      end
  end.

(** One firing of the interval that [startPlayerTimer] installed for
    [(room, playerId)]; nothing happens when no such interval is live. The
    closure's [player] is the player with that id in the captured state: a
    player leaves a state only through [disconnect], which cancels the
    interval under the same key. *)
Definition timerTick (room playerId : string) (s : Server) : Server * list Emit :=
  match timerRef s room playerId with
  | None => (s, [])
  | Some r =>
      match heap s !! r with
      | None => (s, [])
      | Some gameState =>
          match findPlayer playerId (players gameState) with
          | None => (s, [])
          | Some player =>
              let t := (timeRemaining player - 1)%Z in
              let s1 := setState r (with_players
                (updatePlayer playerId (with_timeRemaining t) (players gameState))
                gameState) s in
              let update := {| target := ToRoom playerId; event := timer_update;
                               payload := JObj [("playerId", JStr playerId);
                                                ("timeRemaining", JInt t)] |} in
              if decide (t ≤ 0)%Z then
                let '(s', out) :=
                  handlePlayerTimeout room playerId r
                    (clearPlayerTimer room playerId s1) in
                (s', update :: out)
              else (s1, [update])
          end
      end
  end.

(** ** Socket handlers *)

(** A handler runs to completion ([Done]) or an exception escapes it
    ([Thrown], with the state as the handler left it). *)
Inductive Outcome :=
| Done (s : Server) (out : list Emit)
| Thrown (s : Server).

(** The [timeLimit] argument of [create_room]: absent, [null] or a number. *)
Inductive TimeLimitArg := tl_absent | tl_null | tl_number (t : Z).

Definition validMaxPlayers (maxPlayers : option Qc) : Qc :=
  Math_max (Qc_of_Z 2) (Math_min (Qc_of_Z 5) (js_or_num maxPlayers (Qc_of_Z 2))).

Definition validWordLength (wordLength : option Z) : Z :=
  if bool_decide (js_or wordLength 5 ∈ [5; 6; 7]%Z) then js_or wordLength 5 else 5%Z.

Definition validTimeLimit (timeLimit : TimeLimitArg) : option Z :=
  match timeLimit with
  | tl_null => None
  | tl_absent => Some 30%Z
  | tl_number t =>
      if bool_decide (js_or (Some t) 30 ∈ [30; 35; 60; 75; 90]%Z)
      then Some (js_or (Some t) 30) else Some 30%Z
  end.

Definition newPlayer (sock playerName : string) (limit : option Z) : PlayerState :=
  {| id := sock; name := playerName; guesses := [];
     timeRemaining := js_or limit (-1); isReady := true; isTimedOut := false |}.

(** The caller's room id, the reference of its game state and that state. *)
Definition callerState (s : Server) (sock : string)
    : option (string * nat * GameState) :=
  callerRoom s sock ≫= (λ kv, (λ g, (kv.1, kv.2, g)) <$> heap s !! kv.2).

Section Handlers.
Context `{Env}.

(** [roomId] and [rnd] are the draws of [generateRoomId] and
    [getRandomWord], [now] is [Date.now()]. *)
Definition create_room (sock playerName : string) (maxPlayers : option Qc)
    (wordLength : option Z) (timeLimit : TimeLimitArg) (roomId : string)
    (rnd : nat) (now : Z) (s : Server) : Outcome :=
  let maxP := validMaxPlayers maxPlayers in
  let len := validWordLength wordLength in
  let limit := validTimeLimit timeLimit in
  match getRandomWord len rnd with
  | None => Thrown s
  | Some solution =>
      let gameState :=
        {| roomId := roomId; players := [newPlayer sock playerName limit];
           maxPlayers := maxP; wordLength := len; timeLimit := limit;
           status := waiting; solution := solution; createdAt := now;
           rematchRequest := None |} in
      let r := length (heap s) in
      Done (set_gameRooms (rooms_set roomId r (gameRooms s))
              (set_heap (heap s ++ [gameState]) s))
           [{| target := ToSocket sock; event := room_created;
               payload := JObj [("roomId", JStr roomId)] |}]
  end.

Definition join_room (sock roomId playerName : string) (s : Server) : Outcome :=
  match rooms_get roomId (gameRooms s) ≫= (λ r, (λ g, (r, g)) <$> heap s !! r) with
  | None => Done s [errorTo sock MsgRoomNotFound]
  | Some (r, gameState) =>
      match findPlayer sock (players gameState) with
      | Some _ => Done s [stateEmit (ToSocket sock) room_joined gameState]
      | None =>
          if decide (maxPlayers gameState ≤ Qc_of_nat (length (players gameState)))%Qc
          then Done s [errorTo sock MsgRoomFull]
          else if decide (status gameState ≠ waiting)
          then Done s [errorTo sock MsgGameAlreadyStarted]
          else
            let g1 := with_players
              (players gameState ++ [newPlayer sock playerName (timeLimit gameState)])
              gameState in
            let s1 := setState r g1 s in
            let joined :=
              [stateEmit (ToSocket sock) room_joined g1;
               {| target := ToRoomExceptSender roomId sock; event := player_joined;
                  payload := JObj [("gameState", JObj (sanitizeGameStateForClient g1));
                                   ("newPlayerName", JStr playerName)] |}] in
            if decide (Qc_of_nat (length (players g1)) = maxPlayers g1) then
              let s2 := startAllTimers roomId r (setState r (with_status playing g1) s1) in
              match heap s2 !! r with
              | Some g2 => Done s2 (joined ++ [stateEmit (ToRoom roomId) game_start g2])
              | None => Done s2 joined
              end
            else Done s1 joined
      end
  end.

Definition make_guess (sock : string) (guess : jsstring) (s : Server) : Outcome :=
  match callerState s sock with
  | None => Done s [errorTo sock MsgGameRoomNotFound]
  | Some (userRoom, r, gameState) =>
      if decide (status gameState ≠ playing)
      then Done s [errorTo sock MsgGameNotActive]
      else if decide (Z.of_nat (length guess) ≠ wordLength gameState)
      then Done s [invalidWordTo sock (MsgWrongLength (wordLength gameState))]
      else if negb (isValidWord guess)
      then Done s [invalidWordTo sock MsgNotInWordList]
      else match findPlayer sock (players gameState) with
      | None => Done s [errorTo sock MsgPlayerNotFound]
      | Some player =>
          if decide (6 ≤ length (guesses player))
          then Done s [errorTo sock MsgNoAttemptsLeft]
          else if isTimedOut player
          then Done s [errorTo sock MsgPlayerTimedOut]
          else
            let feedback := evaluateGuess guess (solution gameState) in
            let entry := {| guess := toLowerCase guess; feedback := feedback |} in
            let g1 := with_players
              (updatePlayer sock (λ p, with_guesses (guesses p ++ [entry]) p)
                            (players gameState)) gameState in
            let s1 := setState r g1 s in
            let s2 := if allCorrect feedback then s1
                      else startPlayerTimer userRoom sock r s1 in
            match heap s2 !! r with
            | None => Done s2 []
            | Some g2 =>
                let gameEnd := checkGameEnd g2 in
                if isEnd gameEnd then
                  let '(s3, out) := finishGame userRoom r gameEnd g2 s2 in
                  Done s3 out
                else Done s2 [stateEmit (ToRoom userRoom) update_state g2]
            end
      end
  end.

Definition request_rematch (sock : string) (s : Server) : Outcome :=
  match callerState s sock with
  | None => Done s [errorTo sock MsgGameRoomNotFound]
  | Some (userRoom, r, gameState) =>
      if decide (status gameState ≠ finished)
      then Done s [errorTo sock MsgGameNotFinished]
      else if decide (Qc_of_nat (length (players gameState)) ≠ maxPlayers gameState)
      then Done s [errorTo sock MsgRematchNeedsAll]
      else
        let g1 := with_rematchRequest
          (Some {| requesterId := sock; requested := true; accepted := None |})
          gameState in
        let requesterName :=
          match findPlayer sock (players g1) with
          | Some p => if decide (name p = "") then "Rakip" else name p
          | None => "Rakip"
          end in
        Done (setState r g1 s)
             ((λ p, {| target := ToRoomExceptSender (id p) sock;
                       event := rematch_requested;
                       payload := JObj [("requesterName", JStr requesterName)] |})
              <$> filter (λ p, id p ≠ sock) (players g1))
  end.

(** The reset of every player when a rematch is accepted. *)
Definition resetPlayer (limit : option Z) (p : PlayerState) : PlayerState :=
  {| id := id p; name := name p; guesses := [];
     timeRemaining := js_or limit (-1); isReady := true; isTimedOut := false |}.

Definition accept_rematch (sock : string) (rnd : nat) (now : Z) (s : Server)
    : Outcome :=
  match callerState s sock with
  | None => Done s [errorTo sock MsgGameRoomNotFound]
  | Some (userRoom, r, gameState) =>
      match rematchRequest gameState with
      | None => Done s [errorTo sock MsgNoRematchRequest]
      | Some rq =>
          if negb (requested rq) then Done s [errorTo sock MsgNoRematchRequest]
          else if decide (requesterId rq = sock)
          then Done s [errorTo sock MsgCannotAcceptOwn]
          else
            let g1 := with_rematchRequest
              (Some {| requesterId := requesterId rq; requested := requested rq;
                       accepted := Some true |}) gameState in
            match getRandomWord (wordLength g1) rnd with
            | None => Thrown (setState r g1 s)
            | Some newSolution =>
                let g2 :=
                  {| roomId := roomId g1;
                     players := resetPlayer (timeLimit g1) <$> players g1;
                     maxPlayers := maxPlayers g1; wordLength := wordLength g1;
                     timeLimit := timeLimit g1; status := playing;
                     solution := newSolution; createdAt := now;
                     rematchRequest := None |} in
                let s1 := setState r g2 s in
                Done (set_countdowns
                        (countdowns s1 ++
                         [{| cd_room := userRoom; cd_state := r; cd_count := 3 |}]) s1)
                     [{| target := ToRoom userRoom; event := rematch_accepted;
                         payload := JUndefined |}]
            end
      end
  end.

Definition decline_rematch (sock : string) (s : Server) : Outcome :=
  match callerState s sock with
  | None => Done s [errorTo sock MsgGameRoomNotFound]
  | Some (userRoom, r, gameState) =>
      match rematchRequest gameState with
      | None => Done s [errorTo sock MsgNoRematchRequest]
      | Some rq =>
          if negb (requested rq) then Done s [errorTo sock MsgNoRematchRequest]
          else
            Done (setState r (with_rematchRequest None gameState) s)
                 [{| target := ToRoomExceptSender (requesterId rq) sock;
                     event := rematch_declined; payload := JUndefined |}]
      end
  end.

Definition disconnect (sock : string) (s : Server) : Outcome :=
  match roomOf s sock ≫= (λ kv, (λ g, (kv.1, kv.2, g)) <$> heap s !! kv.2) with
  | None => Done s []
  | Some (roomId, r, gameState) =>
      let g1 := with_players (removePlayer sock (players gameState)) gameState in
      let s1 := setState r g1 s in
      if decide (length (players g1) = 0)
      then Done (set_gameRooms (rooms_delete roomId (gameRooms s1))
                   (clearAllRoomTimers roomId s1)) []
      else Done (clearPlayerTimer roomId sock s1)
                [stateEmit (ToRoom roomId) player_left g1]
  end.

(** One firing of the [k]-th running rematch countdown. *)
Definition countdownTick (k : nat) (s : Server) : Outcome :=
  match countdowns s !! k with
  | None => Done s []
  | Some cd =>
      let tick := {| target := ToRoom (cd_room cd); event := rematch_countdown;
                     payload := JObj [("seconds", JInt (cd_count cd))] |} in
      let countdown := (cd_count cd - 1)%Z in
      if decide (countdown < 0)%Z then
        let s1 := set_countdowns (delete k (countdowns s)) s in
        let s2 := startAllTimers (cd_room cd) (cd_state cd) s1 in
        match heap s2 !! cd_state cd with
        | Some g => Done s2 [tick; stateEmit (ToRoom (cd_room cd)) game_start g]
        | None => Done s2 [tick]
        end
      else
        Done (set_countdowns
                (<[k := {| cd_room := cd_room cd; cd_state := cd_state cd;
                           cd_count := countdown |}]> (countdowns s)) s)
             [tick]
  end.

(** The [k]-th scheduled deletion comes due: [gameRooms.delete(roomId)]. *)
Definition cleanupFire (k : nat) (s : Server) : Outcome :=
  match cleanups s !! k with
  | None => Done s []
  | Some room =>
      Done (set_gameRooms (rooms_delete room (gameRooms s))
              (set_cleanups (delete k (cleanups s)) s)) []
  end.

(** ** The server as a transition system *)

Inductive Action :=
| CreateRoom (sock playerName : string) (maxPlayers : option Qc)
             (wordLength : option Z) (timeLimit : TimeLimitArg)
             (roomId : string) (rnd : nat) (now : Z)
| JoinRoom (sock roomId playerName : string)
| MakeGuess (sock : string) (guess : jsstring)
| RequestRematch (sock : string)
| AcceptRematch (sock : string) (rnd : nat) (now : Z)
| DeclineRematch (sock : string)
| Disconnect (sock : string)
| TimerTick (room playerId : string)
| CountdownTick (k : nat)
| CleanupFire (k : nat).

Definition step (s : Server) (a : Action) : Outcome :=
  match a with
  | CreateRoom sock playerName maxP len limit roomId rnd now =>
      create_room sock playerName maxP len limit roomId rnd now s
  | JoinRoom sock roomId playerName => join_room sock roomId playerName s
  | MakeGuess sock guess => make_guess sock guess s
  | RequestRematch sock => request_rematch sock s
  | AcceptRematch sock rnd now => accept_rematch sock rnd now s
  | DeclineRematch sock => decline_rematch sock s
  | Disconnect sock => disconnect sock s
  | TimerTick room playerId =>
      let '(s', out) := timerTick room playerId s in Done s' out
  | CountdownTick k => countdownTick k s
  | CleanupFire k => cleanupFire k s
  end.

Definition stateOf (o : Outcome) : Server :=
  match o with Done s _ => s | Thrown s => s end.

Definition emitted (o : Outcome) : list Emit :=
  match o with Done _ out => out | Thrown _ => [] end.

Definition run (actions : list Action) (s : Server) : Server :=
  foldl (λ s' a, stateOf (step s' a)) s actions.

(** The states the server can be in between two events. *)
Inductive reachable : Server → Prop :=
| reachable_init : reachable initialServer
| reachable_step s a : reachable s → reachable (stateOf (step s a)).
End Handlers.

(** ** Conditions on the environment *)

(** Every word list was loaded with at least one word. *)
Definition wordsAvailable `{Env} : Prop :=
  WORDS_5 ≠ [] ∧ WORDS_6 ≠ [] ∧ WORDS_7 ≠ [].

(** The list for length [n] holds words of [n] code units. *)
Definition wordsSized `{Env} : Prop :=
  ∀ n words w, WORD_LISTS n = Some words → w ∈ words → Z.of_nat (length w) = n.

(** ** Vocabulary of the properties *)

(** An [error] or [invalid_word] event among the emitted ones. *)
Definition reportsError (out : list Emit) : Prop :=
  ∃ e, e ∈ out ∧ (event e = error ∨ event e = invalid_word).

(** The inbound actions that can answer with an error. *)
Definition inboundAction (a : Action) : Prop :=
  match a with
  | JoinRoom _ _ _ | MakeGuess _ _ | RequestRematch _ | AcceptRematch _ _ _
  | DeclineRematch _ => True
  | _ => False
  end.

(** What a notification may show of the solution: [game_over] carries the
    winner's id or [null], the solution, and the sanitized state; any other
    event has no [solution] property anywhere in its payload. *)
Definition payloadSanitized (e : Emit) : Prop :=
  if decide (event e = game_over) then
    ∃ (w : option string) (g : GameState),
      payload e = JObj [("winnerId", match w with Some i => JStr i | None => JNull end);
                        ("solution", JWord (solution g));
                        ("gameState", JObj (sanitizeGameStateForClient g))]
  else hasKey "solution" (payload e) = false.


(** A player who can still act: fewer than six guesses and not timed out. *)
Definition canAct (p : PlayerState) : Prop :=
  length (guesses p) < 6 ∧ isTimedOut p = false.

Definition allTimedOut (g : GameState) : Prop :=
  Forall (λ p, isTimedOut p = true) (players g).

(** ** Invariants of the reachable states *)

(** The game state with every clock set to zero: what the timer manager
    never changes. *)
Definition timeless (g : GameState) : GameState :=
  with_players (with_timeRemaining 0 <$> players g) g.

(** No player's latest guess is all [correct]. *)
Definition noWinner (g : GameState) : Prop :=
  Forall (λ p, lastGuessWins p = false) (players g).

Record GoodCore `{Env} (g : GameState) : Prop := {
  good_guesses : Forall (λ p, length (guesses p) ≤ 6) (players g);
  good_wordLength : ∃ words, WORD_LISTS (wordLength g) = Some words ∧ words ≠ [];
  good_waiting :
    status g = waiting →
    Forall (λ p, guesses p = [] ∧ isTimedOut p = false) (players g);
  good_ids : NoDup (id <$> players g)
}.

Definition GoodState `{Env} (g : GameState) : Prop :=
  GoodCore g ∧ (status g = playing → noWinner g).

Record Inv `{Env} (s : Server) : Prop := {
  inv_states : ∀ r g, heap s !! r = Some g → GoodState g;
  inv_rooms : ∀ k r, (k, r) ∈ gameRooms s →
                     ∃ g, heap s !! r = Some g ∧ players g ≠ [];
  inv_distinct : NoDup (snd <$> gameRooms s);
  inv_timers : ∀ room playerId r, timerRef s room playerId = Some r →
                                  ∃ g, heap s !! r = Some g ∧ status g ≠ waiting;
  inv_countdowns : ∀ cd, cd ∈ countdowns s →
                         ∃ g, heap s !! cd_state cd = Some g ∧ status g ≠ waiting
}.

(** [s'] differs from [s] in the game state at [r] at most, has no new room,
    and its new timers and countdowns, if any, are on that state. *)
Record touches (r : nat) (s s' : Server) : Prop := {
  touches_heap : ∀ r', r' ≠ r → heap s' !! r' = heap s !! r';
  touches_length : length (heap s') = length (heap s);
  touches_rooms : sublist (gameRooms s') (gameRooms s);
  touches_timers : ∀ room playerId r', timerRef s' room playerId = Some r' →
                     r' = r ∨ timerRef s room playerId = Some r';
  touches_countdowns : ∀ cd, cd ∈ countdowns s' →
                         cd_state cd = r ∨ cd ∈ countdowns s
}.

(** ** Vocabulary of the further properties *)

(** What the solution array of [evaluateGuess] holds while the loops run:
    letters of the solution [sol0] at their own positions, and markers. *)
Definition marked_from (sol0 : jsstring) (sol : jsarray char) : Prop :=
  ∀ k d, arr_get sol k = Some d → d = STAR ∨ sol0 !! k = Some d.

(** A [present] was given to a letter found in the solution array. *)
Definition present_found (g sol0 : jsstring)
    (st : jsarray Label * jsarray char) : Prop :=
  marked_from sol0 st.2 ∧
  ∀ j, arr_get st.1 j = Some present →
       ∃ c, g !! j = Some c ∧ (c ∈ sol0 ∨ c = STAR).

(** Once a position that holds [c] is labelled [absent], no [c] is left in
    the solution array. *)
Definition absent_exhausted (c : char) (g : jsstring)
    (st : jsarray Label * jsarray char) : Prop :=
  ∀ j, g !! j = Some c → arr_get st.1 j = Some absent → occurrences c st.2 = 0.

(** What [create_room] validates and [join_room] enforces. [maxPlayers]
    need not be whole, but it is in a game that has started and in one for
    which a rematch was asked. *)
Record Configured (g : GameState) : Prop := {
  conf_maxPlayers : (Qc_of_Z 2 ≤ maxPlayers g)%Qc ∧ (maxPlayers g ≤ Qc_of_Z 5)%Qc;
  conf_wordLength : wordLength g = 5%Z ∨ wordLength g = 6%Z ∨ wordLength g = 7%Z;
  conf_timeLimit : ∀ t, timeLimit g = Some t →
                        t = 30%Z ∨ t = 35%Z ∨ t = 60%Z ∨ t = 75%Z ∨ t = 90%Z;
  conf_seats : (Qc_of_nat (length (players g)) < maxPlayers g + Qc_of_Z 1)%Qc;
  conf_waiting : status g = waiting → Qc_of_nat (length (players g)) ≠ maxPlayers g;
  conf_started : status g ≠ waiting ∨ rematchRequest g ≠ None →
                 ∃ n : nat, maxPlayers g = Qc_of_nat n
}.

(** A live interval of [(room, playerId)] on the game state at [r]: the state
    is the one of that room id, it has a time limit, and the player is in it,
    not timed out, with a clock between one second and the limit. *)
Definition running (s : Server) (room playerId : string) (r : nat) : Prop :=
  ∃ g p limit,
    heap s !! r = Some g ∧ roomId g = room ∧ timeLimit g = Some limit
    ∧ findPlayer playerId (players g) = Some p ∧ isTimedOut p = false
    ∧ (1 ≤ timeRemaining p ≤ limit)%Z.

Record Wired (s : Server) : Prop := {
  wired_states : ∀ r g, heap s !! r = Some g → Configured g;
  wired_rooms : ∀ k r, (k, r) ∈ gameRooms s →
                       ∃ g, heap s !! r = Some g ∧ roomId g = k;
  wired_timers : ∀ room playerId r, timerRef s room playerId = Some r →
                                    running s room playerId r;
  wired_countdowns : ∀ cd, cd ∈ countdowns s →
                           ∃ g, heap s !! cd_state cd = Some g
                                ∧ roomId g = cd_room cd
}.

(** The player [playerId] of [g] is in [g'] with the same clock and flag. *)
Definition sameClock (playerId : string) (g g' : GameState) : Prop :=
  ∀ p, findPlayer playerId (players g) = Some p →
       ∃ p', findPlayer playerId (players g') = Some p'
             ∧ isTimedOut p' = isTimedOut p ∧ timeRemaining p' = timeRemaining p.

(** The [rematch_countdown] event of a room. *)
Definition countdownEmit (room : string) (seconds : Z) : Emit :=
  {| target := ToRoom room; event := rematch_countdown;
     payload := JObj [("seconds", JInt seconds)] |}.

(** What a step other than an accepted rematch may do to the record of a
    player: append guesses and set the timed-out flag. *)
Definition recordKept (p p' : PlayerState) : Prop :=
  id p' = id p ∧ guesses p `prefix_of` guesses p'
  ∧ (isTimedOut p = true → isTimedOut p' = true).

(** Every player of [g] who is still a player of [g'] has kept their record. *)
Definition keepsRecords (g g' : GameState) : Prop :=
  ∀ playerId p p',
    findPlayer playerId (players g) = Some p →
    findPlayer playerId (players g') = Some p' → recordKept p p'.

(** What one event may do to the status and the rematch request of a game
    state: nothing to the status, or one of the transitions of the game. *)
Definition statusMove (a : Action) (g g' : GameState) : Prop :=
  (status g' = status g
   ∧ (rematchRequest g' = rematchRequest g ∨ rematchRequest g' = None
      ∨ (status g = finished ∧ ∃ sock, a = RequestRematch sock)
      ∨ (rematchRequest g ≠ None ∧ ∃ sock rnd now, a = AcceptRematch sock rnd now)))
  ∨ (status g = waiting ∧ status g' = playing
     ∧ rematchRequest g' = rematchRequest g
     ∧ ∃ sock room playerName, a = JoinRoom sock room playerName)
  ∨ (status g ≠ waiting ∧ status g' = finished
     ∧ rematchRequest g' = rematchRequest g
     ∧ ((status g = playing ∧ ∃ sock guess, a = MakeGuess sock guess)
        ∨ ∃ room playerId, a = TimerTick room playerId))
  ∨ (rematchRequest g ≠ None ∧ status g' = playing ∧ rematchRequest g' = None
     ∧ ∃ sock rnd now, a = AcceptRematch sock rnd now).

(** A rematch request is pending in finished games only. *)
Definition Asked (s : Server) : Prop :=
  ∀ r g, heap s !! r = Some g → rematchRequest g ≠ None → status g = finished.


(** ** A sample environment

    Used to evaluate the model on concrete games. The lower-casing is that of
    the letters A to Z, on which it agrees with the built-in; every sample
    word is written in those letters. *)

Definition asciiLower (s : jsstring) : jsstring :=
  (λ c, if decide (65 ≤ c ≤ 90)%N then (c + 32)%N else c) <$> s.

(** The code units of a string of ASCII characters. *)
Definition word (s : string) : jsstring :=
  Ascii.N_of_ascii <$> String.list_ascii_of_string s.

Definition sampleEnv : Env :=
  {| toLowerCase := asciiLower;
     WORDS_5 := [word "kapak"; word "kabak"; word "kitap"];
     WORDS_6 := [word "kelime"];
     WORDS_7 := [word "merhaba"] |}.

(** Two players with 30 seconds each: B's clock has run out, A's shows one
    second. *)
Definition lastSecond : list Action :=
  [CreateRoom "A" "Ayse" (Some (Qc_of_Z 2)) (Some 5%Z) (tl_number 30)
               "ROOM01" 0 1000%Z;
   JoinRoom "B" "ROOM01" "Berk"]
  ++ replicate 30 (TimerTick "ROOM01" "B")
  ++ replicate 29 (TimerTick "ROOM01" "A").


(* ================================================================== *)
(** * Part II: properties                                               *)
(* ================================================================== *)

(** ** Numbers *)

Lemma Qc_eq_this (a b : Qc) : a = b → (this a == this b)%Q.
Proof. by intros ->. Qed.

Lemma Qc_of_nat_S (n : nat) : Qc_of_nat (S n) = (Qc_of_nat n + Qc_of_Z 1)%Qc.
Proof.
  unfold Qc_of_nat. by rewrite Nat2Z.inj_succ, <- Z.add_1_r, Z2Qc_inj_add.
Qed.

(** Linear order goals over the numbers, by way of [Q]. *)
Ltac qc_order :=
  repeat match goal with
  | H : ¬ (_ ≤ _)%Qc |- _ => apply Qcnot_le_lt in H
  | H : ¬ (_ < _)%Qc |- _ => apply Qcnot_lt_le in H
  | H : @eq Qc _ _ |- _ => apply Qc_eq_this in H
  | |- @eq Qc _ _ => apply Qc_is_canon
  | |- ¬ _ => intros ?
  end;
  rewrite ?Qc_of_nat_S in *; change (Qc_of_nat 0) with (Qc_of_Z 0) in *;
  unfold Qcle, Qclt, Qc_of_nat, Qcplus, Q2Qc, Qc_of_Z, inject_Z in *;
  cbn [this] in *; rewrite ?Qred_correct in *; lra.

Lemma Qc_of_nat_inj (n m : nat) : Qc_of_nat n = Qc_of_nat m → n = m.
Proof. intros Heq%Z2Qc_inj. lia. Qed.

Lemma Qc_of_nat_le (n m : nat) : n ≤ m ↔ (Qc_of_nat n ≤ Qc_of_nat m)%Qc.
Proof. unfold Qc_of_nat. rewrite <- Z2Qc_inj_le. lia. Qed.

Lemma Qc_of_nat_lt (n m : nat) : n < m ↔ (Qc_of_nat n < Qc_of_nat m)%Qc.
Proof. unfold Qc_of_nat. rewrite <- Z2Qc_inj_lt. lia. Qed.

Lemma Qc_of_nat_add_1 (n : nat) : Qc_of_nat (n + 1) = (Qc_of_nat n + Qc_of_Z 1)%Qc.
Proof. rewrite Nat.add_1_r. apply Qc_of_nat_S. Qed.

(** The clamp of [create_room], case by case. *)
Lemma validMaxPlayers_cases (maxPlayers : option Qc) :
  validMaxPlayers maxPlayers
  = match maxPlayers with
    | Some n => if decide (n ≤ Qc_of_Z 2)%Qc then Qc_of_Z 2
                else if decide (Qc_of_Z 5 ≤ n)%Qc then Qc_of_Z 5 else n
    | None => Qc_of_Z 2
    end.
Proof.
  unfold validMaxPlayers, Math_max, Math_min, js_or_num.
  destruct maxPlayers as [n|]; [|done].
  repeat case_decide; try done; try (exfalso; qc_order); qc_order.
Qed.

Lemma validMaxPlayers_range (maxPlayers : option Qc) :
  (Qc_of_Z 2 ≤ validMaxPlayers maxPlayers)%Qc
  ∧ (validMaxPlayers maxPlayers ≤ Qc_of_Z 5)%Qc.
Proof.
  rewrite validMaxPlayers_cases. destruct maxPlayers as [n|].
  - repeat case_decide; split; qc_order.
  - split; qc_order.
Qed.

(** ** Arrays with holes *)

#[global] Arguments pass1_step : simpl never.
#[global] Arguments pass2_step : simpl never.
#[global] Arguments arr_get : simpl never.
#[global] Arguments arr_set : simpl never.

Section ArrayLemmas.
Context {A : Type}.
Implicit Types (a : jsarray A) (i j : nat) (v : A).

Lemma arr_get_lt a i : is_Some (arr_get a i) → i < length a.
Proof.
  unfold arr_get. intros [x Hx].
  destruct (a !! i) eqn:E; [|done].
  by apply lookup_lt_Some in E.
Qed.

Lemma arr_get_ge a i : length a ≤ i → arr_get a i = None.
Proof. intros. unfold arr_get. by rewrite lookup_ge_None_2. Qed.

Lemma arr_set_length a i v : length (arr_set i v a) = length a `max` S i.
Proof.
  unfold arr_set. case_decide.
  - rewrite length_insert. lia.
  - rewrite !length_app, length_replicate. simpl. lia.
Qed.

Lemma arr_get_set_eq a i v : arr_get (arr_set i v a) i = Some v.
Proof.
  unfold arr_get, arr_set. case_decide.
  - by rewrite list_lookup_insert_eq.
  - rewrite lookup_app_r by lia.
    rewrite lookup_app_r by (rewrite length_replicate; lia).
    rewrite length_replicate.
    by replace (i - length a - (i - length a)) with 0 by lia.
Qed.

Lemma arr_get_set_ne a i j v : i ≠ j → arr_get (arr_set i v a) j = arr_get a j.
Proof.
  intros Hij. unfold arr_get, arr_set. case_decide.
  - by rewrite list_lookup_insert_ne.
  - destruct (decide (j < length a)).
    + by rewrite lookup_app_l.
    + rewrite (lookup_ge_None_2 a j) by lia.
      rewrite lookup_app_r by lia.
      destruct (decide (j - length a < i - length a)).
      * rewrite lookup_app_l by (rewrite length_replicate; lia).
        by rewrite lookup_replicate_2.
      * rewrite lookup_app_r by (rewrite length_replicate; lia).
        rewrite length_replicate.
        destruct (j - length a - (i - length a)) as [|k] eqn:E; [lia|done].
Qed.

Lemma arr_get_set a i j v :
  arr_get (arr_set i v a) j = if decide (i = j) then Some v else arr_get a j.
Proof.
  case_decide; [subst; apply arr_get_set_eq | by apply arr_get_set_ne].
Qed.
End ArrayLemmas.

Lemma filter_singleton_length {A} (P : A → Prop) `{∀ x, Decision (P x)} (x : A) :
  length (filter P [x]) = if decide (P x) then 1 else 0.
Proof.
  case_decide.
  - by rewrite filter_cons_True.
  - by rewrite filter_cons_False.
Qed.

Lemma labeled_mono c g fb n m : n ≤ m → labeled c g fb n ≤ labeled c g fb m.
Proof.
  intros Hnm. unfold labeled.
  replace m with (n + (m - n)) by lia.
  rewrite seq_app, filter_app, length_app. lia.
Qed.

Lemma labeled_nil c g n : labeled c g [] n = 0.
Proof.
  unfold labeled. induction n as [|n IH]; [done|].
  rewrite seq_S, filter_app, length_app, IH, filter_singleton_length.
  rewrite decide_False; [done|]. by intros [_ Hh].
Qed.

Lemma labeled_set c g fb n i v :
  arr_get fb i = None →
  labeled c g (arr_set i v fb) n =
  labeled c g fb n +
  (if decide (i < n ∧ g !! i = Some c ∧ hit (Some v) = true) then 1 else 0).
Proof.
  intros Hi. unfold labeled. induction n as [|n IH].
  - rewrite decide_False by lia. done.
  - rewrite !seq_S, !filter_app, !length_app, IH, !filter_singleton_length.
    rewrite !Nat.add_0_l, arr_get_set.
    destruct (decide (i = n)) as [->|Hne].
    + rewrite Hi. repeat case_decide; simpl in *; try lia; exfalso; naive_solver lia.
    + repeat case_decide; simpl in *; try lia; exfalso; naive_solver lia.
Qed.

Lemma occurrences_app c a b : occurrences c (a ++ b) = occurrences c a + occurrences c b.
Proof. unfold occurrences. by rewrite filter_app, length_app. Qed.

Lemma occurrences_replicate_None c n : occurrences c (replicate n None) = 0.
Proof.
  unfold occurrences. induction n as [|n IH]; [done|]. simpl.
  rewrite filter_cons_False by done. done.
Qed.

Lemma occurrences_cons c y a :
  occurrences c (y :: a) = (if decide (y = Some c) then 1 else 0) + occurrences c a.
Proof.
  unfold occurrences. case_decide.
  - by rewrite filter_cons_True.
  - by rewrite filter_cons_False.
Qed.

Lemma occurrences_insert c a i v x :
  a !! i = Some x → v ≠ c →
  occurrences c (<[i := Some v]> a) +
  (if decide (x = Some c) then 1 else 0) = occurrences c a.
Proof.
  revert i. induction a as [|y a IH]; intros i Hx Hv; [done|].
  destruct i as [|i]; simpl in *.
  - injection Hx as ->. rewrite !occurrences_cons.
    rewrite (decide_False (P := Some v = Some c)) by congruence. lia.
  - rewrite !occurrences_cons. specialize (IH i Hx Hv). lia.
Qed.

Lemma occurrences_set c a i v :
  v ≠ c →
  occurrences c (arr_set i v a) +
  (if decide (arr_get a i = Some c) then 1 else 0) = occurrences c a.
Proof.
  intros Hv. unfold arr_set. case_decide as Hlt.
  - destruct (lookup_lt_is_Some_2 a i Hlt) as [x Hx].
    unfold arr_get. rewrite Hx. simpl.
    by apply occurrences_insert.
  - rewrite arr_get_ge by lia.
    rewrite decide_False by done.
    rewrite !occurrences_app, occurrences_replicate_None, occurrences_cons.
    rewrite decide_False by congruence. unfold occurrences. simpl. lia.
Qed.

Lemma occurrences_fmap_Some c (l : jsstring) :
  occurrences c (Some <$> l) = length (filter (λ x, x = c) l).
Proof.
  induction l as [|x l IH]; [done|].
  rewrite fmap_cons, occurrences_cons, IH.
  destruct (decide (x = c)) as [->|Hne].
  - rewrite decide_True by done. by rewrite filter_cons_True.
  - rewrite decide_False by congruence. by rewrite filter_cons_False.
Qed.

Lemma foldl_invariant {S B} (P : S → Prop) (f : S → B → S) (l : list B) (s : S) :
  P s → (∀ s i, i ∈ l → P s → P (f s i)) → P (foldl f s l).
Proof.
  revert s. induction l as [|i l IH]; intros s Hs Hstep; [done|].
  simpl. apply IH.
  - apply Hstep; [left|done].
  - intros s' j Hj. apply Hstep. by right.
Qed.


Lemma indexOf_Some a x k :
  indexOf a x = Some k → ∃ d, x = Some d ∧ arr_get a k = Some d.
Proof.
  unfold indexOf. destruct x as [d|]; [|done].
  intros Hf. apply fmap_Some in Hf as [[k' y] [Hf ->]].
  apply list_find_Some in Hf as (Hk & -> & _).
  exists d. split; [done|]. unfold arr_get. simpl in *. by rewrite Hk.
Qed.

Section PassLemmas.
Variables (c : char) (g : jsstring) (n : nat).
Hypothesis c_not_star : c ≠ STAR.


Lemma pass1_step_balance fb sol i :
  i < n → arr_get fb i = None →
  balance c g n (pass1_step g (fb, sol) i) = balance c g n (fb, sol).
Proof using c_not_star.
  intros Hi Hfb. unfold pass1_step, balance. case_decide as Heq; [|done].
  simpl. rewrite labeled_set by done.
  pose proof (occurrences_set c sol i STAR (not_eq_sym c_not_star)) as Ho.
  rewrite <- Heq in Ho.
  repeat case_decide; simpl in *; try lia; exfalso; naive_solver lia.
Qed.

Lemma pass1_balance l fb sol :
  NoDup l → (∀ i, i ∈ l → i < n) → (∀ i, i ∈ l → arr_get fb i = None) →
  balance c g n (foldl (pass1_step g) (fb, sol) l) = balance c g n (fb, sol).
Proof using c_not_star.
  revert fb sol. induction l as [|i l IH]; intros fb sol Hnd Hlt Hnone; [done|].
  apply NoDup_cons in Hnd as [Hi Hnd]. simpl.
  rewrite <- (pass1_step_balance fb sol i) by (try apply Hlt; try apply Hnone; left).
  destruct (pass1_step g (fb, sol) i) as [fb' sol'] eqn:E.
  apply IH; [done| |].
  - intros j Hj. apply Hlt. by right.
  - intros j Hj. unfold pass1_step in E. case_decide; simplify_eq.
    + rewrite arr_get_set_ne by (intros ->; done). apply Hnone. by right.
    + apply Hnone. by right.
Qed.

Lemma pass2_step_balance fb sol i :
  i < n → balance c g n (pass2_step g (fb, sol) i) = balance c g n (fb, sol).
Proof using c_not_star.
  intros Hi. unfold pass2_step, balance.
  destruct (arr_get fb i) eqn:Hfb; [done|].
  destruct (indexOf sol (g !! i)) as [k|] eqn:Hk; simpl.
  - apply indexOf_Some in Hk as (d & Hd & Hsol).
    rewrite labeled_set by done.
    pose proof (occurrences_set c sol k STAR (not_eq_sym c_not_star)) as Ho.
    rewrite Hsol in Ho. rewrite Hd.
    repeat case_decide; simpl in *; try lia; exfalso; naive_solver lia.
  - rewrite labeled_set by done. rewrite decide_False; [lia|]. naive_solver.
Qed.

Lemma pass2_balance l st :
  (∀ i, i ∈ l → i < n) →
  balance c g n (foldl (pass2_step g) st l) = balance c g n st.
Proof using c_not_star.
  intros Hlt.
  apply (foldl_invariant (λ s, balance c g n s = balance c g n st)); [done|].
  intros [fb sol] i Hi <-. apply pass2_step_balance. by apply Hlt.
Qed.
End PassLemmas.

Lemma evaluateArrays_labeled c g sol0 wordLength n :
  c ≠ STAR →
  labeled c g (evaluateArrays g sol0 wordLength) n ≤ length (filter (λ x, x = c) sol0).
Proof.
  intros Hc. unfold evaluateArrays.
  set (N := n `max` wordLength).
  assert (Hin : ∀ i, i ∈ seq 0 wordLength → i < N).
  { intros i Hi. apply elem_of_seq in Hi. lia. }
  etrans; [apply (labeled_mono _ _ _ n N); lia|].
  pose proof (pass2_balance c g N Hc (seq 0 wordLength)
    (foldl (pass1_step g) ([], Some <$> sol0) (seq 0 wordLength)) Hin) as H2.
  rewrite (pass1_balance c g N Hc) in H2; [|apply NoDup_seq|done|done].
  unfold balance in H2. simpl in H2.
  rewrite labeled_nil, occurrences_fmap_Some in H2. lia.
Qed.


Lemma dense_set {A} m (a : jsarray A) i v : dense m a → dense m (arr_set i v a).
Proof.
  intros Ha j Hj. rewrite arr_get_set. case_decide; [by eexists|by apply Ha].
Qed.


Lemma dense_length {A} m (a : jsarray A) : dense m a → m ≤ length a.
Proof.
  intros Ha. destruct m as [|m]; [lia|].
  pose proof (arr_get_lt a m (Ha m ltac:(lia))). lia.
Qed.

Lemma seq_split i n : i < n → seq 0 n = seq 0 i ++ i :: seq (S i) (n - S i).
Proof.
  intros Hi. replace n with (i + S (n - S i)) at 1 by lia.
  by rewrite seq_app.
Qed.

Section FeedbackShape.
Variable g : jsstring.

Lemma pass1_step_other st i j :
  i ≠ j → arr_get (pass1_step g st i).1 j = arr_get st.1 j.
Proof.
  intros Hij. destruct st as [fb sol]. unfold pass1_step.
  case_decide; [|done]. simpl. by rewrite arr_get_set_ne.
Qed.

Lemma pass2_step_other st i j :
  i ≠ j → arr_get (pass2_step g st i).1 j = arr_get st.1 j.
Proof.
  intros Hij. destruct st as [fb sol]. unfold pass2_step.
  destruct (arr_get fb i); [done|].
  destruct (indexOf sol (g !! i)); simpl; by rewrite arr_get_set_ne.
Qed.

Lemma pass1_other l st j :
  j ∉ l → arr_get (foldl (pass1_step g) st l).1 j = arr_get st.1 j.
Proof.
  intros Hj.
  apply (foldl_invariant (λ s, arr_get s.1 j = arr_get st.1 j)); [done|].
  intros s i Hi <-. apply pass1_step_other. by intros ->.
Qed.


Lemma pass1_step_length st i n :
  i < n → length st.1 ≤ n → length (pass1_step g st i).1 ≤ n.
Proof.
  intros Hi Hn. destruct st as [fb sol]. unfold pass1_step.
  case_decide; [|done]. simpl in *. rewrite arr_set_length. lia.
Qed.

Lemma pass2_step_length st i n :
  i < n → length st.1 ≤ n → length (pass2_step g st i).1 ≤ n.
Proof.
  intros Hi Hn. destruct st as [fb sol]. unfold pass2_step. simpl in *.
  destruct (arr_get fb i); [done|].
  destruct (indexOf sol (g !! i)); simpl; rewrite arr_set_length; lia.
Qed.

Lemma pass2_step_labels st i : is_Some (arr_get (pass2_step g st i).1 i).
Proof.
  destruct st as [fb sol]. unfold pass2_step.
  destruct (arr_get fb i) eqn:E; [simpl; by rewrite E|].
  destruct (indexOf sol (g !! i)); simpl; rewrite arr_get_set_eq; by eexists.
Qed.

Lemma pass2_step_keeps st i j :
  is_Some (arr_get st.1 j) → is_Some (arr_get (pass2_step g st i).1 j).
Proof.
  intros Hj. destruct (decide (i = j)) as [->|Hne].
  - apply pass2_step_labels.
  - by rewrite pass2_step_other.
Qed.

Lemma pass2_labels l st j :
  j ∈ l → is_Some (arr_get (foldl (pass2_step g) st l).1 j).
Proof.
  revert st. induction l as [|i l IH]; intros st Hj; [by apply elem_of_nil in Hj|].
  simpl. apply elem_of_cons in Hj as [->|Hj]; [|by apply IH].
  apply (foldl_invariant (λ s, is_Some (arr_get s.1 i))).
  - apply pass2_step_labels.
  - intros s k _. apply pass2_step_keeps.
Qed.


Lemma pass2_step_dense st i m : dense m st.2 → dense m (pass2_step g st i).2.
Proof.
  destruct st as [fb sol]. unfold pass2_step.
  destruct (arr_get fb i); [done|].
  destruct (indexOf sol (g !! i)); simpl; [apply dense_set|done].
Qed.
End FeedbackShape.

Lemma evaluateArrays_length g sol0 n : length (evaluateArrays g sol0 n) = n.
Proof.
  unfold evaluateArrays.
  set (st1 := foldl (pass1_step g) _ _).
  assert (H1 : length st1.1 ≤ n).
  { apply (foldl_invariant (λ s, length s.1 ≤ n)); [simpl; lia|].
    intros s i Hi. apply pass1_step_length. apply elem_of_seq in Hi. lia. }
  apply Nat.le_antisymm.
  - apply (foldl_invariant (λ s, length s.1 ≤ n)); [done|].
    intros s i Hi. apply pass2_step_length. apply elem_of_seq in Hi. lia.
  - apply dense_length. intros j Hj. apply pass2_labels, elem_of_seq. lia.
Qed.

Lemma evaluateArrays_labels g sol0 n i :
  i < n → is_Some (arr_get (evaluateArrays g sol0 n) i).
Proof. intros Hi. apply pass2_labels, elem_of_seq. lia. Qed.



(** ** The guess evaluator *)



(** The marker itself is outside the bound: against the solution "ab", the
    '*' of "a*" finds the marker left by the matched a and is labelled
    [present]. [make_guess] hands a guess to the evaluator only after
    [isValidWord] has found it in the word list. *)
Lemma evaluateGuess_star_overcounted :
  length (word "a*") = length (word "ab") ∧
  evaluateGuess (H := sampleEnv) (word "a*") (word "ab") = [Some correct; Some present] ∧
  ¬ (length (hitPositions (H := sampleEnv) STAR (word "a*") (word "ab"))
     ≤ letterCount (H := sampleEnv) STAR (word "ab")).
Proof.
  split; [reflexivity|]. split; [reflexivity|].
  vm_compute. intros Hle. inversion Hle.
Qed.


(** A guess shorter and a guess longer than the solution "llama". *)
Example evaluateGuess_short_and_long :
  evaluateGuess (H := sampleEnv) (word "a") (word "llama")
  = [Some present; Some absent; Some absent; Some absent; Some absent]
  ∧ evaluateGuess (H := sampleEnv) (word "lamallama") (word "llama")
  = [Some correct; Some present; Some present; Some present; Some present].
Proof. split; reflexivity. Qed.


(** ** Room creation *)

Lemma rooms_get_set k v m : rooms_get k (rooms_set k v m) = Some v.
Proof.
  unfold rooms_get. induction m as [|kv m IH]; simpl.
  - by rewrite decide_True.
  - destruct (decide (kv.1 = k)) as [Heq|Hne]; simpl.
    + by rewrite decide_True.
    + rewrite decide_False by done.
      destruct (list_find _ (rooms_set k v m)) as [[i kv']|]; simpl in *; [|done].
      done.
Qed.

Lemma validWordLength_cases (wordLength : option Z) :
  validWordLength wordLength = 5%Z ∨ validWordLength wordLength = 6%Z
  ∨ validWordLength wordLength = 7%Z.
Proof.
  unfold validWordLength. case_bool_decide as Hin; [|by left].
  rewrite !elem_of_cons, elem_of_nil in Hin. naive_solver.
Qed.

Lemma getRandomWord_available `{Env} (n : Z) (rnd : nat) :
  wordsAvailable → (n = 5 ∨ n = 6 ∨ n = 7)%Z →
  ∃ w words, getRandomWord n rnd = Some w ∧ WORD_LISTS n = Some words ∧ w ∈ words.
Proof.
  intros (H5 & H6 & H7) Hn. unfold getRandomWord.
  assert (∃ words, WORD_LISTS n = Some words ∧ words ≠ []) as (words & Hl & Hne).
  { unfold WORD_LISTS. destruct Hn as [-> | [-> | ->] ]; simpl; eauto. }
  rewrite Hl.
  assert (0 < length words) by (destruct words; [done|simpl; lia]).
  rewrite decide_True by done.
  destruct (lookup_lt_is_Some_2 words (rnd `mod` length words)) as [w Hw].
  { apply Nat.mod_upper_bound. lia. }
  exists w, words. split_and!; [done..|]. by eapply list_elem_of_lookup_2.
Qed.

Lemma getRandomWord_Some `{Env} (n : Z) (rnd : nat) (w : jsstring) :
  getRandomWord n rnd = Some w →
  ∃ words, WORD_LISTS n = Some words ∧ words ≠ [].
Proof.
  unfold getRandomWord. destruct (WORD_LISTS n) as [words|]; [|done].
  case_decide as Hlen; [|done]. intros _. exists words. split; [done|].
  intros ->. csimpl in Hlen. lia.
Qed.

Lemma getRandomWord_listed `{Env} (n : Z) (rnd : nat) (words : list jsstring) :
  WORD_LISTS n = Some words → words ≠ [] →
  ∃ w, getRandomWord n rnd = Some w ∧ w ∈ words.
Proof.
  intros Hl Hne. unfold getRandomWord. rewrite Hl.
  assert (0 < length words) by (destruct words; [done|csimpl; lia]).
  rewrite decide_True by done.
  destruct (lookup_lt_is_Some_2 words (rnd `mod` length words)) as [w Hw].
  { apply Nat.mod_upper_bound. lia. }
  exists w. split; [done|]. by eapply list_elem_of_lookup_2.
Qed.

(** C8. Whatever configuration [create_room] receives, it creates a room in
    [waiting] with the creator as its only player, [maxPlayers] clamped into
    [2,5] (2 when absent; a fraction between 2 and 5 is kept as it is),
    [wordLength] kept when 5, 6 or 7 and 5 otherwise,
    [timeLimit] null when null, kept when one of 30, 35, 60, 75, 90 and 30
    otherwise; nothing is rejected (the word lists being loaded). *)
Theorem create_room_configuration `{Env} (sock playerName : string)
    (maxP : option Qc) (len : option Z) (limit : TimeLimitArg) (room : string)
    (rnd : nat) (now : Z) (s : Server) :
  wordsAvailable →
  ∃ s' out r gameState,
    create_room sock playerName maxP len limit room rnd now s = Done s' out
    ∧ rooms_get room (gameRooms s') = Some r
    ∧ heap s' !! r = Some gameState
    ∧ status gameState = waiting
    ∧ (∃ p, players gameState = [p] ∧ id p = sock)
    ∧ maxPlayers gameState
      = match maxP with
        | Some n => if decide (n ≤ Qc_of_Z 2)%Qc then Qc_of_Z 2
                    else if decide (Qc_of_Z 5 ≤ n)%Qc then Qc_of_Z 5 else n
        | None => Qc_of_Z 2
        end
    ∧ wordLength gameState
      = match len with
        | Some n => if decide (n = 5 ∨ n = 6 ∨ n = 7)%Z then n else 5%Z
        | None => 5%Z
        end
    ∧ timeLimit gameState
      = match limit with
        | tl_null => None
        | tl_number t =>
            if decide (t = 30 ∨ t = 35 ∨ t = 60 ∨ t = 75 ∨ t = 90)%Z
            then Some t else Some 30%Z
        | tl_absent => Some 30%Z
        end.
Proof.
  intros Hw. unfold create_room.
  destruct (getRandomWord_available (validWordLength len) rnd Hw
              (validWordLength_cases len)) as (w & words & -> & _ & _).
  eexists _, _, (length (heap s)), _. split; [reflexivity|].
  split; [apply rooms_get_set|].
  split; [simpl; by rewrite lookup_app_r, Nat.sub_diag by lia|].
  simpl. split; [done|]. split; [by eexists|]. split_and!.
  - apply validMaxPlayers_cases.
  - unfold validWordLength, js_or. destruct len as [n|]; [|done].
    destruct (decide (n = 0)%Z) as [->|Hn0].
    + rewrite decide_False by lia. done.
    + case_bool_decide as Hin; rewrite !elem_of_cons, elem_of_nil in Hin;
        case_decide; try done; exfalso; naive_solver.
  - unfold validTimeLimit, js_or. destruct limit as [| |t]; [done..|].
    destruct (decide (t = 0)%Z) as [->|Hn0].
    + rewrite decide_False by lia. done.
    + case_bool_decide as Hin; rewrite !elem_of_cons, elem_of_nil in Hin;
        case_decide; try done; exfalso; naive_solver.
Qed.

(** Out-of-range values: 9 players, 4 letters, 45 seconds. *)
Lemma create_room_configuration_sample :
  wordsAvailable (H := sampleEnv) ∧
  ∃ s' out r gameState,
    create_room (H := sampleEnv) "A" "Ayse" (Some (Qc_of_Z 9)) (Some 4%Z) (tl_number 45)
                "ROOM01" 7 1000%Z initialServer = Done s' out
    ∧ rooms_get "ROOM01" (gameRooms s') = Some r
    ∧ heap s' !! r = Some gameState
    ∧ status gameState = waiting
    ∧ (∃ p, players gameState = [p] ∧ id p = "A")
    ∧ maxPlayers gameState = Qc_of_Z 5
    ∧ wordLength gameState = 5%Z
    ∧ timeLimit gameState = Some 30%Z.
Proof.
  assert (Hw : wordsAvailable (H := sampleEnv)) by (by split_and!).
  split; [exact Hw|].
  exact (@create_room_configuration sampleEnv "A" "Ayse" (Some (Qc_of_Z 9)) (Some 4%Z)
           (tl_number 45) "ROOM01" 7 1000%Z initialServer Hw).
Defined.


(** ** Error paths *)

Lemma reportsError_nil : ¬ reportsError [].
Proof. intros (e & He & _). by apply elem_of_nil in He. Qed.

Lemma reportsError_cons e out :
  reportsError (e :: out) ↔ (event e = error ∨ event e = invalid_word) ∨ reportsError out.
Proof.
  unfold reportsError. split.
  - intros (e' & [->|Hin]%elem_of_cons & He); [by left|right; eauto].
  - intros [He|(e' & Hin & He)]; [exists e; split; [left|done]|].
    exists e'. split; [by right|done].
Qed.

Lemma reportsError_app out1 out2 :
  reportsError (out1 ++ out2) ↔ reportsError out1 ∨ reportsError out2.
Proof.
  unfold reportsError. split.
  - intros (e & [Hin|Hin]%elem_of_app & He); [left|right]; eauto.
  - intros [(e & Hin & He)|(e & Hin & He)]; exists e; (split; [|done]);
      apply elem_of_app; auto.
Qed.

Lemma reportsError_fmap {A} (f : A → Emit) (l : list A) :
  (∀ x, event (f x) ≠ error ∧ event (f x) ≠ invalid_word) → ¬ reportsError (f <$> l).
Proof.
  intros Hf (e & (x & -> & _)%list_elem_of_fmap & He).
  destruct (Hf x). naive_solver.
Qed.

Ltac no_error :=
  repeat first
    [ rewrite reportsError_cons in *
    | rewrite reportsError_app in *
    | match goal with
      | H : reportsError [] |- _ => by apply reportsError_nil in H
      | H : reportsError (_ <$> _) |- _ =>
          exfalso; revert H; apply reportsError_fmap; by intros
      | H : _ ∨ _ |- _ => destruct H
      end ];
  simpl in *; try discriminate.

Section Errors.
Context `{Env}.

Lemma finishGame_no_error room r gameEnd g s s' out :
finishGame room r gameEnd g s = (s', out) → ¬ reportsError out.
Proof. unfold finishGame. intros [= <- <-] Herr. no_error. Qed.

Lemma join_room_error sock room playerName s s' out :
join_room sock room playerName s = Done s' out → reportsError out → s' = s.
Proof.
unfold join_room. intros Hstep Herr.
repeat case_match; simplify_eq; try done; no_error.
Qed.

Lemma make_guess_error sock guess s s' out :
make_guess sock guess s = Done s' out → reportsError out → s' = s.
Proof.
unfold make_guess. intros Hstep Herr.
repeat case_match; simplify_eq; try done; try (by no_error).
all: try (exfalso; by eapply finishGame_no_error).
Qed.

Lemma request_rematch_error sock s s' out :
request_rematch sock s = Done s' out → reportsError out → s' = s.
Proof.
unfold request_rematch. intros Hstep Herr.
repeat case_match; simplify_eq; try done; no_error.
Qed.

Lemma accept_rematch_error sock rnd now s s' out :
accept_rematch sock rnd now s = Done s' out → reportsError out → s' = s.
Proof.
unfold accept_rematch. intros Hstep Herr.
repeat case_match; simplify_eq; try done; no_error.
Qed.

Lemma decline_rematch_error sock s s' out :
decline_rematch sock s = Done s' out → reportsError out → s' = s.
Proof.
unfold decline_rematch. intros Hstep Herr.
repeat case_match; simplify_eq; try done; no_error.
Qed.

(** C5. When [join_room], [make_guess], [request_rematch], [accept_rematch]
  or [decline_rematch] answers with an [error] or [invalid_word] event, the
  server state (registry, every game state, timers) is what it was. *)
Theorem error_leaves_state_unchanged (s s' : Server) (a : Action) (out : list Emit) :
inboundAction a → step s a = Done s' out → reportsError out → s' = s.
Proof.
destruct a; simpl; try done; intros _.
- apply join_room_error.
- apply make_guess_error.
- apply request_rematch_error.
- apply accept_rematch_error.
- apply decline_rematch_error.
Qed.
End Errors.

(** A three-letter guess in a five-letter game that has started. *)
Lemma error_leaves_state_unchanged_sample :
  let s := run (H := sampleEnv)
             [CreateRoom "A" "Ayse" (Some (Qc_of_Z 2)) (Some 5%Z) (tl_number 30)
                          "ROOM01" 0 1000%Z;
              JoinRoom "B" "ROOM01" "Berk"] initialServer in
  let a := MakeGuess "A" (word "kap") in
  let out := [invalidWordTo "A" (MsgWrongLength 5)] in
  inboundAction a
  ∧ step (H := sampleEnv) s a = Done s out
  ∧ reportsError out
  ∧ s = s.
Proof.
  intros s a out.
  assert (Hstep : step (H := sampleEnv) s a = Done s out) by (vm_compute; reflexivity).
  assert (Herr : reportsError out).
  { exists (invalidWordTo "A" (MsgWrongLength 5)). split; [left|by right]. }
  split; [exact I|]. split; [exact Hstep|]. split; [exact Herr|].
  exact (@error_leaves_state_unchanged sampleEnv s s a out I Hstep Herr).
Defined.


(** ** What clients are shown *)

Lemma getField_filter_ne (k k0 : string) (fields : list (string * JSValue)) :
  k ≠ k0 →
  getField k (filter (λ kv, kv.1 ≠ k0) fields) = getField k fields.
Proof.
  intros Hk. unfold getField. induction fields as [|kv fields IH]; [done|].
  destruct (decide (kv.1 = k0)) as [Heq|Hne].
  - rewrite filter_cons_False by naive_solver. simpl.
    rewrite decide_False by congruence.
    destruct (list_find _ fields) as [[i kv']|]; simpl in *;
      destruct (list_find _ (filter _ fields)) as [[j kv'']|]; simpl in *; done.
  - rewrite filter_cons_True by done. simpl.
    case_decide; [done|].
    destruct (list_find _ fields) as [[i kv']|]; simpl in *;
      destruct (list_find _ (filter _ fields)) as [[j kv'']|]; simpl in *; done.
Qed.

Lemma getField_filter_eq (k : string) (fields : list (string * JSValue)) :
  getField k (filter (λ kv, kv.1 ≠ k) fields) = None.
Proof.
  unfold getField. induction fields as [|kv fields IH]; [done|].
  destruct (decide (kv.1 = k)) as [Heq|Hne].
  - rewrite filter_cons_False by naive_solver. done.
  - rewrite filter_cons_True by done. simpl. rewrite decide_False by done.
    destruct (list_find _ (filter _ fields)) as [[j kv'']|]; simpl in *; done.
Qed.

Lemma hasKey_labels (fb : list (option Label)) :
  existsb (hasKey "solution") (labelValue <$> fb) = false.
Proof.
  induction fb as [|o fb IH]; [done|].
  rewrite fmap_cons. cbn [existsb]. rewrite IH. by destruct o as [[]|].
Qed.

Lemma hasKey_guesses (gs : list GuessEntry) :
  existsb (hasKey "solution") ((λ e, JObj (guessFields e)) <$> gs) = false.
Proof.
  induction gs as [|e gs IH]; [done|].
  rewrite fmap_cons. cbn [existsb]. rewrite IH.
  unfold guessFields. cbn [hasKey existsb fst snd]. by rewrite hasKey_labels.
Qed.

Lemma hasKey_players (ps : list PlayerState) :
  existsb (hasKey "solution") ((λ p, JObj (playerFields p)) <$> ps) = false.
Proof.
  induction ps as [|p ps IH]; [done|].
  rewrite fmap_cons. cbn [existsb]. rewrite IH.
  unfold playerFields. cbn [hasKey existsb fst snd]. by rewrite hasKey_guesses.
Qed.

Lemma sanitizeGameStateForClient_fields (g : GameState) :
  sanitizeGameStateForClient g =
  [("roomId", JStr (roomId g));
   ("players", JArr ((λ p, JObj (playerFields p)) <$> players g));
   ("maxPlayers", JNum (maxPlayers g));
   ("wordLength", JInt (wordLength g));
   ("timeLimit", match timeLimit g with Some t => JInt t | None => JNull end);
   ("status", statusValue (status g));
   ("createdAt", JInt (createdAt g))]
  ++ match rematchRequest g with
     | Some rq => [("rematchRequest", JObj (rematchFields rq))]
     | None => []
     end.
Proof.
  unfold sanitizeGameStateForClient, gameStateFields.
  rewrite filter_app. f_equal. by destruct (rematchRequest g).
Qed.

Lemma sanitized_hides_solution (g : GameState) :
  hasKey "solution" (JObj (sanitizeGameStateForClient g)) = false.
Proof.
  rewrite sanitizeGameStateForClient_fields.
  cbn [hasKey]. rewrite existsb_app. apply orb_false_iff. split.
  - cbn [existsb hasKey fst snd]. rewrite hasKey_players.
    by destruct (timeLimit g), (status g).
  - destruct (rematchRequest g) as [rq|]; [|done].
    unfold rematchFields. by destruct (accepted rq).
Qed.

Lemma payloadSanitized_plain t ev v :
  ev ≠ game_over → hasKey "solution" v = false →
  payloadSanitized {| target := t; event := ev; payload := v |}.
Proof. intros Hev Hv. unfold payloadSanitized. simpl. by rewrite decide_False. Qed.

Lemma hasKey_obj_cons k k' v fields :
  hasKey k (JObj ((k', v) :: fields))
  = bool_decide (k' = k) || hasKey k v || hasKey k (JObj fields).
Proof. done. Qed.

Lemma payloadSanitized_stateEmit t ev g :
  ev ≠ game_over → payloadSanitized (stateEmit t ev g).
Proof.
  intros Hev. apply payloadSanitized_plain; [done|].
  by rewrite hasKey_obj_cons, sanitized_hides_solution.
Qed.

Lemma payloadSanitized_gameOver room gameEnd g :
  payloadSanitized (gameOverEmit room gameEnd g).
Proof.
  unfold payloadSanitized. simpl.
  exists (match winnerId gameEnd with
          | Some i => if decide (i = "") then None else Some i
          | None => None
          end), g.
  unfold idOrNull. destruct (winnerId gameEnd) as [i|]; [|done].
  by destruct (decide (i = "")).
Qed.

Ltac payloads :=
  repeat first
    [ apply Forall_nil_2
    | apply Forall_cons_2
    | apply Forall_app_2
    | apply payloadSanitized_gameOver
    | (apply payloadSanitized_stateEmit; discriminate)
    | (apply payloadSanitized_plain; [discriminate|]) ].

Section Payloads.
Context `{Env}.

Lemma finishGame_payloads room r gameEnd g s :
Forall payloadSanitized (finishGame room r gameEnd g s).2.
Proof. unfold finishGame. simpl. payloads. Qed.

Lemma handlePlayerTimeout_payloads room playerId r s :
Forall payloadSanitized (handlePlayerTimeout room playerId r s).2.
Proof.
unfold handlePlayerTimeout. repeat case_match; simpl; payloads; try done.
match goal with H : finishGame _ _ _ _ _ = _ |- _ =>
  pose proof (finishGame_payloads room r (checkGameEnd
    (with_players (updatePlayer playerId (with_isTimedOut true) (players g)) g))
    (with_players (updatePlayer playerId (with_isTimedOut true) (players g)) g) s) as Hf;
  rewrite H in Hf end.
done.
Qed.

Lemma timerTick_payloads room playerId s :
Forall payloadSanitized (timerTick room playerId s).2.
Proof.
unfold timerTick. repeat case_match; simpl; payloads; try done.
match goal with H : handlePlayerTimeout ?a ?b ?c ?d = _ |- _ =>
  pose proof (handlePlayerTimeout_payloads a b c d) as Hf; rewrite H in Hf end.
done.
Qed.

Lemma join_room_payloads sock room playerName s :
Forall payloadSanitized (emitted (join_room sock room playerName s)).
Proof.
unfold join_room. repeat case_match; simpl; payloads; try done.
all: by rewrite !hasKey_obj_cons, sanitized_hides_solution.
Qed.

Lemma make_guess_payloads sock guess s :
Forall payloadSanitized (emitted (make_guess sock guess s)).
Proof.
unfold make_guess. repeat case_match; simpl; payloads; try done.
all: match goal with H : finishGame ?a ?b ?c ?d ?e = _ |- _ =>
  pose proof (finishGame_payloads a b c d e) as Hf; by rewrite H in Hf end.
Qed.

Lemma request_rematch_payloads sock s :
Forall payloadSanitized (emitted (request_rematch sock s)).
Proof.
unfold request_rematch. repeat case_match; simpl; payloads; try done.
all: apply Forall_fmap, Forall_forall; intros q _; simpl; by payloads.
Qed.

Lemma step_payloads s a : Forall payloadSanitized (emitted (step s a)).
Proof.
destruct a; simpl.
- unfold create_room. repeat case_match; simpl; payloads; done.
- apply join_room_payloads.
- apply make_guess_payloads.
- apply request_rematch_payloads.
- unfold accept_rematch. repeat case_match; simpl; payloads; done.
- unfold decline_rematch. repeat case_match; simpl; payloads; done.
- unfold disconnect. repeat case_match; simpl; payloads; done.
- pose proof (timerTick_payloads room playerId s) as Ht.
  by destruct (timerTick room playerId s).
- unfold countdownTick. repeat case_match; simpl; payloads; done.
- unfold cleanupFire. repeat case_match; simpl; payloads; done.
Qed.

(** C7. The sanitized projection of a game state has no [solution] property
  and agrees with the state on every other property; and every event that
  any handler or timer emits either is [game_over], carrying the winner's
  id or [null], the solution and the sanitized state, or has no [solution]
  property anywhere in its payload. *)
Theorem solution_only_in_game_over (s : Server) (a : Action) (g : GameState) :
getField "solution" (sanitizeGameStateForClient g) = None
∧ (∀ k, k ≠ "solution" →
        getField k (sanitizeGameStateForClient g) = getField k (gameStateFields g))
∧ hasKey "solution" (JObj (sanitizeGameStateForClient g)) = false
∧ (∀ e, e ∈ emitted (step s a) → payloadSanitized e).
Proof.
split_and!.
- apply getField_filter_eq.
- intros k Hk. by apply getField_filter_ne.
- apply sanitized_hides_solution.
- apply Forall_forall, step_payloads.
Qed.
End Payloads.


(** ** Invariants *)

(** ** Players and game states *)

Lemma findPlayer_Some playerId ps p :
  findPlayer playerId ps = Some p → p ∈ ps ∧ id p = playerId.
Proof.
  unfold findPlayer. intros Hf. apply find_some in Hf as [Hin Hid].
  apply bool_decide_eq_true in Hid. by apply list_elem_of_In in Hin.
Qed.

Lemma findPlayer_None playerId ps :
  findPlayer playerId ps = None ↔ playerId ∉ id <$> ps.
Proof.
  unfold findPlayer. induction ps as [|p ps IH]; csimpl.
  - split; [intros _ Hin; by apply elem_of_nil in Hin|done].
  - case_bool_decide as Hid.
    + split; [done|]. intros Hn. exfalso. apply Hn. rewrite Hid. left.
    + rewrite IH. rewrite not_elem_of_cons. naive_solver.
Qed.

Lemma findPlayer_is_Some playerId ps :
  is_Some (findPlayer playerId ps) ↔ playerId ∈ id <$> ps.
Proof.
  destruct (findPlayer playerId ps) eqn:E.
  - split; [|by eauto]. intros _. apply findPlayer_Some in E as [Hin <-].
    by apply list_elem_of_fmap_2.
  - apply findPlayer_None in E. split; [by intros [? ?]|done].
Qed.

Lemma hasPlayer_findPlayer playerId g :
  hasPlayer playerId g = true ↔ is_Some (findPlayer playerId (players g)).
Proof.
  unfold hasPlayer, findPlayer. induction (players g) as [|p ps IH]; csimpl.
  - split; [done|by intros [? ?]].
  - case_bool_decide; csimpl; [split; eauto|done].
Qed.

Lemma updatePlayer_ids playerId f ps :
  (∀ p, id (f p) = id p) → id <$> updatePlayer playerId f ps = id <$> ps.
Proof.
  intros Hf. induction ps as [|p ps IH]; [done|]. csimpl.
  case_bool_decide; csimpl; [by rewrite Hf|by rewrite IH].
Qed.

Lemma updatePlayer_length playerId f ps :
  length (updatePlayer playerId f ps) = length ps.
Proof.
  induction ps as [|p ps IH]; [done|]. csimpl.
  case_bool_decide; csimpl; [done|by rewrite IH].
Qed.

Lemma updatePlayer_Forall (P : PlayerState → Prop) playerId f ps :
  Forall P ps → (∀ p, p ∈ ps → id p = playerId → P p → P (f p)) →
  Forall P (updatePlayer playerId f ps).
Proof.
  induction ps as [|p ps IH]; intros Hps Hf; [done|].
  apply Forall_cons in Hps as [Hp Hps]. csimpl. case_bool_decide.
  - apply Forall_cons. split; [|done]. apply Hf; [left|done..].
  - apply Forall_cons. split; [done|]. apply IH; [done|].
    intros q Hq. apply Hf. by right.
Qed.

Lemma updatePlayer_elem_of playerId f ps q :
  q ∈ updatePlayer playerId f ps →
  q ∈ ps ∨ ∃ p, p ∈ ps ∧ id p = playerId ∧ q = f p.
Proof.
  induction ps as [|p ps IH]; [by left|]. csimpl. case_bool_decide.
  - intros [->|Hq]%elem_of_cons; [right; exists p; split_and!; [left|done..]|].
    left. by right.
  - intros [->|Hq]%elem_of_cons; [left; left|].
    destruct (IH Hq) as [?|(p' & ? & ? & ?)]; [left; by right|].
    right. exists p'. split_and!; [by right|done..].
Qed.

Lemma updatePlayer_timeless playerId t ps :
  with_timeRemaining 0 <$> updatePlayer playerId (with_timeRemaining t) ps
  = with_timeRemaining 0 <$> ps.
Proof.
  induction ps as [|p ps IH]; [done|]. csimpl.
  case_bool_decide; csimpl; [done|by rewrite IH].
Qed.

Lemma removePlayer_sublist playerId ps : sublist (removePlayer playerId ps) ps.
Proof.
  induction ps as [|p ps IH]; [constructor|]. csimpl.
  case_bool_decide; [by apply sublist_cons|by apply sublist_skip].
Qed.

Lemma removePlayer_length playerId ps :
  playerId ∈ id <$> ps → S (length (removePlayer playerId ps)) = length ps.
Proof.
  induction ps as [|p ps IH]; [by intros ?%elem_of_nil|]. csimpl.
  case_bool_decide as Hid; [done|].
  intros [?|Hin]%elem_of_cons; [done|]. csimpl. by rewrite IH.
Qed.

Lemma timeless_update playerId t g :
  timeless (with_players (updatePlayer playerId (with_timeRemaining t) (players g)) g)
  = timeless g.
Proof. unfold timeless. csimpl. by rewrite updatePlayer_timeless. Qed.

Lemma timeless_status g g' : timeless g = timeless g' → status g = status g'.
Proof. intros Heq. by apply (f_equal status) in Heq. Qed.

Lemma timeless_wordLength g g' : timeless g = timeless g' → wordLength g = wordLength g'.
Proof. intros Heq. by apply (f_equal wordLength) in Heq. Qed.

Lemma timeless_players g g' :
  timeless g = timeless g' →
  with_timeRemaining 0 <$> players g = with_timeRemaining 0 <$> players g'.
Proof. intros Heq. by apply (f_equal players) in Heq. Qed.

Lemma timeless_Forall (P : PlayerState → Prop) g g' :
  (∀ p, P p ↔ P (with_timeRemaining 0 p)) →
  timeless g = timeless g' → Forall P (players g) → Forall P (players g').
Proof.
  intros HP Heq%timeless_players Hg.
  assert (H0 : Forall P (with_timeRemaining 0 <$> players g)).
  { rewrite Forall_fmap. eapply Forall_impl; [exact Hg|].
    intros p Hp. unfold compose. by apply (proj1 (HP p)). }
  rewrite Heq, Forall_fmap in H0.
  eapply Forall_impl; [exact H0|]. intros p Hp. unfold compose in Hp. by apply (proj2 (HP p)).
Qed.

Section Invariants.
Context `{Env}.

Lemma GoodCore_timeless g g' : timeless g = timeless g' → GoodCore g → GoodCore g'.
Proof.
intros Heq [H1 H2 H3 H4]. split.
- by apply (timeless_Forall _ g g').
- by rewrite <- (timeless_wordLength g g').
- rewrite <- (timeless_status g g') by done. intros Hw.
  by apply (timeless_Forall _ g g'); [..|apply H3].
- apply timeless_players in Heq.
  apply (f_equal (fmap id)) in Heq.
  rewrite <- !list_fmap_compose in Heq.
  by rewrite <- (list_fmap_ext (id ∘ with_timeRemaining 0) id (players g')),
    <- Heq by done.
Qed.

Lemma noWinner_timeless g g' : timeless g = timeless g' → noWinner g → noWinner g'.
Proof. intros Heq. by apply (timeless_Forall _ g g'). Qed.

Lemma GoodState_timeless g g' : timeless g = timeless g' → GoodState g → GoodState g'.
Proof.
intros Heq [Hc Hw]. split; [by eapply GoodCore_timeless|].
rewrite <- (timeless_status g g') by done. intros Hp.
eapply noWinner_timeless; [done|by apply Hw].
Qed.

Lemma find_lastGuessWins_timeless ps :
List.find lastGuessWins (with_timeRemaining 0 <$> ps)
= with_timeRemaining 0 <$> List.find lastGuessWins ps.
Proof.
induction ps as [|p ps IH]; [done|]. csimpl.
change (lastGuessWins (with_timeRemaining 0 p)) with (lastGuessWins p).
by destruct (lastGuessWins p).
Qed.

Lemma checkGameEnd_timeless_1 g : checkGameEnd (timeless g) = checkGameEnd g.
Proof.
unfold checkGameEnd, timeless. csimpl.
rewrite find_lastGuessWins_timeless.
destruct (List.find lastGuessWins (players g)) as [p|]; [done|]. csimpl.
assert (Hl : length (filter (λ p, isTimedOut p = true)
                       (with_timeRemaining 0 <$> players g))
             = length (filter (λ p, isTimedOut p = true) (players g))).
{ induction (players g) as [|p ps IH]; [done|]. csimpl.
  destruct (isTimedOut p) eqn:E.
  - rewrite !filter_cons_True by done. csimpl. by rewrite IH.
  - rewrite !filter_cons_False by (csimpl; congruence). done. }
assert (Hf : forallb (λ p, bool_decide (6 ≤ length (guesses p)) || isTimedOut p)
               (with_timeRemaining 0 <$> players g)
             = forallb (λ p, bool_decide (6 ≤ length (guesses p)) || isTimedOut p)
                 (players g)).
{ clear Hl. induction (players g) as [|p ps IH]; [done|].
  rewrite fmap_cons. cbn [forallb]. by rewrite IH. }
by rewrite Hl, Hf, length_fmap.
Qed.

Lemma checkGameEnd_timeless g g' :
timeless g = timeless g' → checkGameEnd g = checkGameEnd g'.
Proof.
intros Heq. by rewrite <- (checkGameEnd_timeless_1 g), Heq, checkGameEnd_timeless_1.
Qed.

Lemma checkGameEnd_continues g :
isEnd (checkGameEnd g) = false → noWinner g.
Proof.
unfold checkGameEnd, noWinner.
destruct (List.find lastGuessWins (players g)) as [p|] eqn:E; [done|]. intros _.
apply Forall_forall. intros p Hp.
apply list_elem_of_In in Hp.
pose proof (find_none _ _ E p Hp) as Hn. done.
Qed.

Lemma GoodCore_with_status st g :
st ≠ waiting → GoodCore g → GoodCore (with_status st g).
Proof. intros Hst [H1 H2 H3 H4]. by split. Qed.

Lemma GoodState_finished g : GoodCore g → GoodState (with_status finished g).
Proof. intros Hc. split; [by apply GoodCore_with_status|done]. Qed.

Lemma GoodState_with_rematchRequest rq g :
GoodState g → GoodState (with_rematchRequest rq g).
Proof. intros [[H1 H2 H3 H4] Hw]. by repeat split. Qed.

Lemma GoodCore_guess sock e g p :
GoodCore g → status g ≠ waiting → findPlayer sock (players g) = Some p →
length (guesses p) < 6 →
GoodCore (with_players
            (updatePlayer sock (λ q, with_guesses (guesses q ++ [e]) q) (players g)) g).
Proof.
intros [H1 H2 H3 H4] Hst Hf Hlen. split; csimpl; [|done|done|].
- apply updatePlayer_Forall; [done|]. intros q Hq Hid _. csimpl.
  assert (q = p) as ->; [|rewrite length_app; csimpl; lia].
  apply findPlayer_Some in Hf as [Hp Hidp].
  apply list_elem_of_lookup in Hq as [i Hi], Hp as [j Hj].
  assert (i = j); [|naive_solver].
  eapply NoDup_lookup; [done| |]; rewrite list_lookup_fmap.
  + by rewrite Hi.
  + rewrite Hj. csimpl. congruence.
- by rewrite updatePlayer_ids.
Qed.

Lemma GoodCore_timedOut playerId g :
GoodCore g → status g ≠ waiting →
GoodCore (with_players
            (updatePlayer playerId (with_isTimedOut true) (players g)) g).
Proof.
intros [H1 H2 H3 H4] Hst. split; csimpl; [|done|done|].
- apply updatePlayer_Forall; [done|]. by intros q _ _ Hq.
- by rewrite updatePlayer_ids.
Qed.

Lemma noWinner_timedOut playerId g :
noWinner g →
noWinner (with_players
            (updatePlayer playerId (with_isTimedOut true) (players g)) g).
Proof.
unfold noWinner. intros Hn. csimpl.
apply updatePlayer_Forall; [done|]. by intros q _ _ Hq.
Qed.

Lemma GoodState_removePlayer playerId g :
GoodState g → GoodState (with_players (removePlayer playerId (players g)) g).
Proof.
pose proof (removePlayer_sublist playerId (players g)) as Hsub.
assert (HF : ∀ P : PlayerState → Prop,
          Forall P (players g) → Forall P (removePlayer playerId (players g))).
{ intros P HP. apply Forall_forall. intros p Hp.
  eapply (proj1 (Forall_forall _ _)); [done|]. by eapply elem_of_sublist. }
intros [[H1 H2 H3 H4] Hw]. split; [split|]; csimpl.
- by apply HF.
- done.
- intros Hst. by apply HF, H3.
- eapply sublist_NoDup; [exact H4|]. by apply fmap_sublist.
- intros Hp. by apply HF, Hw.
Qed.

Lemma GoodState_join sock playerName g :
GoodState g → status g = waiting → findPlayer sock (players g) = None →
GoodCore (with_players (players g ++ [newPlayer sock playerName (timeLimit g)]) g)
∧ noWinner (with_players (players g ++ [newPlayer sock playerName (timeLimit g)]) g).
Proof.
intros [[H1 H2 H3 H4] Hw] Hst Hf. split; [split|]; csimpl.
- apply Forall_app. split; [done|]. apply Forall_singleton. csimpl. lia.
- done.
- intros _. apply Forall_app. split; [by apply H3|]. by apply Forall_singleton.
- rewrite fmap_app. apply NoDup_app. split_and!; [done| |apply NoDup_singleton].
  intros i Hi [->|[]%elem_of_nil]%elem_of_cons.
  by apply findPlayer_None in Hf.
- unfold noWinner. csimpl. apply Forall_app. split; [|by apply Forall_singleton].
  eapply Forall_impl; [by apply H3|]. intros p [Hg _].
  unfold lastGuessWins. by rewrite Hg.
Qed.

Lemma GoodState_reset g newSolution now :
GoodState g →
GoodState {| roomId := roomId g;
             players := resetPlayer (timeLimit g) <$> players g;
             maxPlayers := maxPlayers g; wordLength := wordLength g;
             timeLimit := timeLimit g; status := playing;
             solution := newSolution; createdAt := now;
             rematchRequest := None |}.
Proof.
intros [[H1 H2 H3 H4] Hw]. split; [split|]; csimpl.
- apply Forall_fmap, Forall_forall. intros p _. csimpl. lia.
- done.
- done.
- by rewrite <- list_fmap_compose.
- intros _. unfold noWinner. csimpl. apply Forall_fmap, Forall_forall. by intros p _.
Qed.

(** ** Timers *)

Lemma timerRef_clearPlayerTimer room playerId s room' playerId' :
timerRef (clearPlayerTimer room playerId s) room' playerId'
= if decide (room = room' ∧ playerId = playerId') then None
  else timerRef s room' playerId'.
Proof.
unfold clearPlayerTimer, timerRef.
destruct (gameTimers s !! room) as [m|] eqn:Hm.
- destruct (decide (is_Some (m !! playerId))) as [Hs|Hn]; csimpl.
  + destruct (decide (room = room')) as [<-|Hr].
    * rewrite lookup_insert_eq, Hm. csimpl.
      destruct (decide (playerId = playerId')) as [<-|Hp].
      -- rewrite lookup_delete_eq. by rewrite decide_True.
      -- rewrite lookup_delete_ne by done. by rewrite decide_False by naive_solver.
    * rewrite lookup_insert_ne by done. by rewrite decide_False by naive_solver.
  + case_decide as Heq; [|done]. destruct Heq as [<- <-]. rewrite Hm. csimpl.
    apply eq_None_not_Some. done.
- case_decide as Heq; [|done]. destruct Heq as [<- <-]. by rewrite Hm.
Qed.

Lemma timerRef_clearAllRoomTimers room s room' playerId' :
timerRef (clearAllRoomTimers room s) room' playerId'
= if decide (room = room') then None else timerRef s room' playerId'.
Proof.
unfold clearAllRoomTimers, timerRef. csimpl. case_decide as Heq.
- subst. by rewrite lookup_delete_eq.
- by rewrite lookup_delete_ne.
Qed.

Lemma timerRef_install room playerId r s room' playerId' :
timerRef (set_gameTimers
            (<[room := <[playerId := r]> (default ∅ (gameTimers s !! room))]>
               (gameTimers s)) s) room' playerId'
= if decide (room = room' ∧ playerId = playerId') then Some r
  else timerRef s room' playerId'.
Proof.
unfold timerRef. csimpl.
destruct (decide (room = room')) as [<-|Hr].
- rewrite lookup_insert_eq. csimpl.
  destruct (decide (playerId = playerId')) as [<-|Hp].
  + rewrite lookup_insert_eq. by rewrite decide_True.
  + rewrite lookup_insert_ne by done. rewrite decide_False by naive_solver.
    by destruct (gameTimers s !! room).
- rewrite lookup_insert_ne by done. by rewrite decide_False by naive_solver.
Qed.

(** The exact effect of [startPlayerTimer] on a player who can be timed. *)
Lemma startPlayerTimer_effect room playerId r s g p :
heap s !! r = Some g → findPlayer playerId (players g) = Some p →
isTimedOut p = false →
let s' := startPlayerTimer room playerId r s in
heap s' = <[r := with_players
                   (updatePlayer playerId
                      (with_timeRemaining (default (-1)%Z (timeLimit g)))
                      (players g)) g]> (heap s)
∧ gameRooms s' = gameRooms s ∧ countdowns s' = countdowns s
∧ cleanups s' = cleanups s
∧ ∀ room' playerId',
    timerRef s' room' playerId'
    = if decide (timeLimit g ≠ None ∧ room = room' ∧ playerId = playerId')
      then Some r else timerRef s room' playerId'.
Proof.
intros Hg Hf Ht. unfold startPlayerTimer. rewrite Hg, Hf, Ht.
destruct (timeLimit g) as [limit|]; csimpl.
- split_and!; try (unfold clearPlayerTimer; by repeat case_match).
  + intros room' playerId'.
    pose proof (timerRef_install room playerId r
      (setState r (with_players
         (updatePlayer playerId (with_timeRemaining limit) (players g)) g)
         (clearPlayerTimer room playerId s)) room' playerId') as Hi.
    csimpl in Hi. rewrite Hi. clear Hi.
    change (timerRef (setState ?a ?b ?c)) with (timerRef c).
    rewrite timerRef_clearPlayerTimer.
    repeat case_decide; naive_solver.
- by split_and!.
Qed.

Lemma startPlayerTimer_skip room playerId r s g :
heap s !! r = Some g →
(findPlayer playerId (players g) = None
 ∨ ∃ p, findPlayer playerId (players g) = Some p ∧ isTimedOut p = true) →
startPlayerTimer room playerId r s = s.
Proof.
intros Hg Hcase. unfold startPlayerTimer. rewrite Hg.
destruct Hcase as [->|(p & -> & ->)]; done.
Qed.

(** ** Steps that touch one game state *)

Lemma touches_refl r s : touches r s s.
Proof. split; auto. Qed.

Lemma touches_trans r s1 s2 s3 : touches r s1 s2 → touches r s2 s3 → touches r s1 s3.
Proof.
intros [A1 A2 A3 A4 A5] [B1 B2 B3 B4 B5]. split.
- intros r' Hr. by rewrite B1, A1.
- congruence.
- by etrans.
- intros room playerId r' Ht. destruct (B4 _ _ _ Ht) as [?|Ht']; [by left|].
  by apply A4.
- intros cd Hcd. destruct (B5 _ Hcd) as [?|Hcd']; [by left|]. by apply A5.
Qed.

Lemma touches_setState r g s : touches r s (setState r g s).
Proof.
split; csimpl; auto.
- intros r' Hr. by rewrite list_lookup_insert_ne.
- by rewrite length_insert.
Qed.

Lemma touches_clearPlayerTimer r room playerId s :
touches r s (clearPlayerTimer room playerId s).
Proof.
split.
- intros r' _. unfold clearPlayerTimer. by repeat case_match.
- unfold clearPlayerTimer. by repeat case_match.
- unfold clearPlayerTimer. by repeat case_match.
- intros room' playerId' r'. rewrite timerRef_clearPlayerTimer.
  case_decide; [done|by right].
- intros cd. unfold clearPlayerTimer. repeat case_match; by right.
Qed.

Lemma touches_clearAllRoomTimers r room s : touches r s (clearAllRoomTimers room s).
Proof.
split; csimpl; auto.
intros room' playerId' r'. rewrite timerRef_clearAllRoomTimers.
case_decide; [done|by right].
Qed.

Lemma touches_set_cleanups r c s : touches r s (set_cleanups c s).
Proof. split; csimpl; auto. Qed.

Lemma touches_set_gameRooms r m s :
sublist m (gameRooms s) → touches r s (set_gameRooms m s).
Proof. intros Hm. split; csimpl; auto. Qed.

Lemma touches_startPlayerTimer room playerId r s :
touches r s (startPlayerTimer room playerId r s).
Proof.
destruct (heap s !! r) as [g|] eqn:Hg.
2:{ unfold startPlayerTimer. rewrite Hg. apply touches_refl. }
destruct (findPlayer playerId (players g)) as [p|] eqn:Hf.
2:{ rewrite (startPlayerTimer_skip _ _ _ _ g) by auto. apply touches_refl. }
destruct (isTimedOut p) eqn:Ht.
{ rewrite (startPlayerTimer_skip _ _ _ _ g) by eauto. apply touches_refl. }
destruct (startPlayerTimer_effect room playerId r s g p Hg Hf Ht)
  as (Hh & Hr & Hc & _ & Hti).
split.
- intros r' Hne. by rewrite Hh, list_lookup_insert_ne.
- by rewrite Hh, length_insert.
- by rewrite Hr.
- intros room' playerId' r'. rewrite Hti. case_decide; [|by right].
  intros [= <-]. by left.
- intros cd. rewrite Hc. by right.
Qed.

Lemma startPlayerTimer_timeless room playerId r s g :
heap s !! r = Some g →
∃ g', heap (startPlayerTimer room playerId r s) !! r = Some g'
      ∧ timeless g' = timeless g.
Proof.
intros Hg.
destruct (findPlayer playerId (players g)) as [p|] eqn:Hf.
2:{ rewrite (startPlayerTimer_skip _ _ _ _ g) by auto. eauto. }
destruct (isTimedOut p) eqn:Ht.
{ rewrite (startPlayerTimer_skip _ _ _ _ g) by eauto. eauto. }
destruct (startPlayerTimer_effect room playerId r s g p Hg Hf Ht) as (Hh & _).
eexists. rewrite Hh. split.
- apply list_lookup_insert_eq. by eapply lookup_lt_Some.
- apply timeless_update.
Qed.

Lemma startTimers_fold room r ids s g :
heap s !! r = Some g →
let s' := foldl (λ s' playerId, startPlayerTimer room playerId r s') s ids in
touches r s s' ∧ ∃ g', heap s' !! r = Some g' ∧ timeless g' = timeless g.
Proof.
revert s g. induction ids as [|i ids IH]; intros s g Hg; csimpl.
- split; [apply touches_refl|eauto].
- destruct (startPlayerTimer_timeless room i r s g Hg) as (g1 & Hg1 & Ht1).
  destruct (IH _ _ Hg1) as (Ht & g' & Hg' & Ht').
  split; [|exists g'; split; [done|congruence] ].
  eapply touches_trans; [apply touches_startPlayerTimer|done].
Qed.

Lemma startAllTimers_timeless room r s g :
heap s !! r = Some g →
touches r s (startAllTimers room r s)
∧ ∃ g', heap (startAllTimers room r s) !! r = Some g' ∧ timeless g' = timeless g.
Proof.
intros Hg. unfold startAllTimers. rewrite Hg. by apply startTimers_fold.
Qed.

(** ** Preservation of the invariant *)

Lemma rooms_same_state (m : list (string * nat)) k1 k2 r :
NoDup (snd <$> m) → (k1, r) ∈ m → (k2, r) ∈ m → k1 = k2.
Proof.
intros Hnd [i Hi]%list_elem_of_lookup [j Hj]%list_elem_of_lookup.
assert (i = j); [|naive_solver].
eapply NoDup_lookup; [done| |]; rewrite list_lookup_fmap.
- by rewrite Hi.
- by rewrite Hj.
Qed.

Lemma Inv_touches s s' r g g' :
Inv s → touches r s s' → heap s !! r = Some g → heap s' !! r = Some g' →
GoodState g' →
(players g' = [] → ∀ k, (k, r) ∉ gameRooms s') →
(status g' = waiting →
   status g = waiting
   ∧ (∀ room playerId, timerRef s' room playerId = Some r →
                       timerRef s room playerId = Some r)
   ∧ (∀ cd, cd ∈ countdowns s' → cd_state cd = r → cd ∈ countdowns s)) →
Inv s'.
Proof.
intros [I1 I2 I3 I4 I5] [T1 T2 T3 T4 T5] Hg Hg' Hgood Hempty Hquiet.
assert (Hactive : status g' ≠ waiting ∨ status g' = waiting)
  by (destruct (status g'); auto).
split.
- intros r' g0 Hr'. destruct (decide (r' = r)) as [->|Hne]; [congruence|].
  rewrite T1 in Hr' by done. eauto.
- intros k r' Hk. destruct (decide (r' = r)) as [->|Hne].
  + exists g'. split; [done|]. intros He. by eapply Hempty.
  + rewrite T1 by done. eapply I2, elem_of_sublist; done.
- eapply sublist_NoDup; [done|]. by apply fmap_sublist.
- intros room playerId r' Ht.
  assert (Hold : timerRef s room playerId = Some r' → r' ≠ r →
                 ∃ g0, heap s' !! r' = Some g0 ∧ status g0 ≠ waiting).
  { intros Ho Hne. rewrite T1 by done. eauto. }
  destruct (decide (r' = r)) as [->|Hne].
  2:{ destruct (T4 _ _ _ Ht) as [?|Ho]; [done|auto]. }
  exists g'. split; [done|]. intros Hw.
  destruct (Hquiet Hw) as (Hgw & Hti & _).
  destruct (I4 _ _ _ (Hti _ _ Ht)) as (g0 & Hg0 & Hs0). congruence.
- intros cd Hcd.
  destruct (decide (cd_state cd = r)) as [Heq|Hne].
  2:{ destruct (T5 _ Hcd) as [?|Ho]; [done|]. rewrite T1 by done. auto. }
  rewrite Heq. exists g'. split; [done|]. intros Hw.
  destruct (Hquiet Hw) as (Hgw & _ & Hcds).
  destruct (I5 _ (Hcds _ Hcd Heq)) as (g0 & Hg0 & Hs0). congruence.
Qed.

(** The frequent case: the touched state is not [waiting] and keeps players. *)
Lemma Inv_touches_active s s' r g g' :
Inv s → touches r s s' → heap s !! r = Some g → heap s' !! r = Some g' →
GoodState g' → players g' ≠ [] → status g' ≠ waiting → Inv s'.
Proof. intros. eapply Inv_touches; eauto; done. Qed.

Lemma Inv_shrink s s' :
Inv s → heap s' = heap s → sublist (gameRooms s') (gameRooms s) →
(∀ room playerId r, timerRef s' room playerId = Some r →
                    timerRef s room playerId = Some r) →
(∀ cd, cd ∈ countdowns s' → cd ∈ countdowns s) →
Inv s'.
Proof.
intros [I1 I2 I3 I4 I5] Hh Hr Ht Hc. split; rewrite ?Hh; auto.
- intros k r Hk. eapply I2, elem_of_sublist; done.
- eapply sublist_NoDup; [done|]. by apply fmap_sublist.
- intros. eapply I4. eauto.
Qed.

Lemma Inv_initial : Inv initialServer.
Proof.
split; csimpl.
- intros r g Hr. by rewrite lookup_nil in Hr.
- intros k r Hk. by apply elem_of_nil in Hk.
- constructor.
- intros room playerId r. unfold timerRef. csimpl. by rewrite lookup_empty.
- intros cd Hcd. by apply elem_of_nil in Hcd.
Qed.

(** ** Looking rooms up *)

Lemma rooms_get_Some k m r : rooms_get k m = Some r → (k, r) ∈ m.
Proof.
unfold rooms_get. destruct (list_find _ m) as [[i [k' r']]|] eqn:E; [|done].
intros [= <-]. apply list_find_Some in E as (Hi & Hk & _). csimpl in Hk. subst.
by eapply list_elem_of_lookup_2.
Qed.

Lemma rooms_get_None k m r : rooms_get k m = None → (k, r) ∉ m.
Proof.
unfold rooms_get. destruct (list_find _ m) as [[i [k' r']]|] eqn:E; [done|].
intros _ Hin. apply list_find_None in E.
by apply (proj1 (Forall_forall _ _) E _ Hin).
Qed.

Lemma rooms_get_delete k m : rooms_get k (rooms_delete k m) = None.
Proof.
unfold rooms_get, rooms_delete.
destruct (list_find _ (filter _ m)) as [[i kv]|] eqn:E; [|done].
apply list_find_Some in E as (Hi & Hk & _).
apply list_elem_of_lookup_2, list_elem_of_filter in Hi as [Hne _]. done.
Qed.

Lemma rooms_set_elem_of k v m kv :
kv ∈ rooms_set k v m → kv = (k, v) ∨ kv ∈ m.
Proof.
induction m as [|kv' m IH]; csimpl.
- intros [->|[]%elem_of_nil]%elem_of_cons. by left.
- case_decide.
  + intros [->|Hin]%elem_of_cons; [by left|right; by right].
  + intros [->|Hin]%elem_of_cons; [right; left|].
    destruct (IH Hin); [by left|right; by right].
Qed.

Lemma rooms_set_NoDup k v m :
NoDup (snd <$> m) → v ∉ snd <$> m → NoDup (snd <$> rooms_set k v m).
Proof.
induction m as [|kv m IH]; csimpl; intros Hnd Hv.
- apply NoDup_singleton.
- apply NoDup_cons in Hnd as [Hkv Hnd].
  apply not_elem_of_cons in Hv as [Hne Hv].
  case_decide; csimpl; apply NoDup_cons; split; auto.
  intros Hin. apply list_elem_of_fmap in Hin as (kv' & Heq & Hin).
  apply rooms_set_elem_of in Hin as [->|Hin]; [done|].
  apply Hkv. rewrite Heq. by apply list_elem_of_fmap_2.
Qed.

Lemma roomOf_Some s sock k r :
roomOf s sock = Some (k, r) →
(k, r) ∈ gameRooms s ∧ ∃ g, heap s !! r = Some g ∧ hasPlayer sock g = true.
Proof.
unfold roomOf. intros Hf. apply find_some in Hf as [Hin Hp].
apply list_elem_of_In in Hin. split; [done|]. csimpl in Hp.
destruct (heap s !! r) as [g|]; [eauto|done].
Qed.

Lemma callerState_Some s sock k r g :
callerState s sock = Some (k, r, g) →
roomOf s sock = Some (k, r) ∧ k ≠ "" ∧ heap s !! r = Some g.
Proof.
unfold callerState, callerRoom.
destruct (roomOf s sock) as [[k' r']|]; [|done].
case_decide; [done|]. csimpl.
destruct (heap s !! r') as [g'|] eqn:E; [|done]. csimpl. by intros [= <- <- <-].
Qed.

Lemma callerState_member s sock k r g :
callerState s sock = Some (k, r, g) →
(k, r) ∈ gameRooms s ∧ heap s !! r = Some g ∧ hasPlayer sock g = true.
Proof.
intros (Hr & _ & Hg)%callerState_Some.
apply roomOf_Some in Hr as (Hin & g' & Hg' & Hp). split_and!; [done..|congruence].
Qed.

Lemma hasPlayer_nonempty sock g : hasPlayer sock g = true → players g ≠ [].
Proof. unfold hasPlayer. by destruct (players g). Qed.

Lemma setState_lookup r g s :
r < length (heap s) → heap (setState r g s) !! r = Some g.
Proof. intros Hr. csimpl. by apply list_lookup_insert_eq. Qed.

Lemma finishGame_Inv room r gameEnd g0 g s s' out :
Inv s → heap s !! r = Some g0 → GoodCore g → players g ≠ [] →
finishGame room r gameEnd g s = (s', out) → Inv s'.
Proof.
intros HI Hg0 Hg Hne [= <- <-].
eapply (Inv_touches_active s _ r g0 (with_status finished g)); try done.
- eapply touches_trans; [apply touches_setState|].
  eapply touches_trans; [apply touches_clearAllRoomTimers|].
  apply touches_set_cleanups.
- csimpl. apply list_lookup_insert_eq. by eapply lookup_lt_Some.
- by apply GoodState_finished.
Qed.

Lemma handlePlayerTimeout_Inv room playerId r s g :
Inv s → heap s !! r = Some g → status g ≠ waiting → players g ≠ [] →
Inv (handlePlayerTimeout room playerId r s).1.
Proof.
intros HI Hg Hst Hne. unfold handlePlayerTimeout. rewrite Hg.
destruct (findPlayer playerId (players g)) as [p|] eqn:Hf; [|done].
set (g1 := with_players _ g).
assert (Hc1 : GoodCore g1).
{ apply GoodCore_timedOut; [|done]. by apply (inv_states s HI r g). }
assert (Hne1 : players g1 ≠ []).
{ unfold g1. csimpl. intros He. apply (f_equal length) in He.
  rewrite updatePlayer_length in He. by destruct (players g). }
destruct (isEnd (checkGameEnd g1)) eqn:Hend.
- destruct (finishGame room r (checkGameEnd g1) g1 s) as [s' out] eqn:Hfin.
  csimpl. by eapply finishGame_Inv.
- csimpl. eapply (Inv_touches_active s _ r g g1); try done.
  + apply touches_setState.
  + apply setState_lookup. by eapply lookup_lt_Some.
  + split; [done|]. intros _. by apply checkGameEnd_continues.
Qed.


Lemma create_room_Inv sock playerName maxP len limit room rnd now s :
Inv s → Inv (stateOf (create_room sock playerName maxP len limit room rnd now s)).
Proof.
intros HI. unfold create_room.
destruct (getRandomWord (validWordLength len) rnd) as [w|] eqn:Hrand; [|done].
csimpl. destruct HI as [I1 I2 I3 I4 I5].
assert (Hfresh : ∀ r g, heap s !! r = Some g →
          (heap s ++ [{| roomId := room;
                         players := [newPlayer sock playerName (validTimeLimit limit)];
                         maxPlayers := validMaxPlayers maxP;
                         wordLength := validWordLength len;
                         timeLimit := validTimeLimit limit; status := waiting;
                         solution := w; createdAt := now;
                         rematchRequest := None |}]) !! r = Some g).
{ intros r g Hr. rewrite lookup_app_l; [done|]. by eapply lookup_lt_Some. }
split; csimpl.
- intros r g [Hr|[_ Hr]]%lookup_app_Some; [eauto|].
  apply list_lookup_singleton_Some in Hr as [_ <-].
  split; [split|]; csimpl.
  + apply Forall_singleton. csimpl. lia.
  + by apply (getRandomWord_Some _ rnd w).
  + intros _. by apply Forall_singleton.
  + apply NoDup_singleton.
  + done.
- intros k r [[= -> ->]|Hin]%rooms_set_elem_of.
  + eexists. rewrite lookup_app_r, Nat.sub_diag by lia. csimpl. done.
  + destruct (I2 _ _ Hin) as (g & Hg & Hne). eauto.
- apply rooms_set_NoDup; [done|].
  intros ([k r] & Heq & Hin)%list_elem_of_fmap. csimpl in Heq. subst.
  destruct (I2 _ _ Hin) as (g & Hg & _). apply lookup_lt_Some in Hg. lia.
- intros room' playerId r Ht. destruct (I4 _ _ _ Ht) as (g & Hg & Hs). eauto.
- intros cd Hcd. destruct (I5 _ Hcd) as (g & Hg & Hs). eauto.
Qed.

Lemma join_room_Inv sock room playerName s :
Inv s → Inv (stateOf (join_room sock room playerName s)).
Proof.
intros HI. unfold join_room.
destruct (rooms_get room (gameRooms s)) as [r|] eqn:Hr; [|done]. csimpl.
destruct (heap s !! r) as [g|] eqn:Hg; [|done]. csimpl.
destruct (findPlayer sock (players g)) as [p|] eqn:Hf; [done|].
case_decide as Hfull; [done|]. case_decide as Hst; [done|].
assert (Hw : status g = waiting) by (destruct (status g); done).
pose proof (inv_states s HI r g Hg) as Hgood.
destruct (GoodState_join sock playerName g Hgood Hw Hf) as [Hc1 Hn1].
set (g1 := with_players _ g) in *.
assert (Hlt : r < length (heap s)) by by eapply lookup_lt_Some.
assert (Hne1 : players g1 ≠ []).
{ unfold g1. csimpl. by destruct (players g). }
assert (HI1 : Inv (setState r g1 s)).
{ eapply (Inv_touches s _ r g g1); try done.
  - apply touches_setState.
  - by apply setState_lookup. }
case_decide as Hmax; [|done].
set (s1 := setState r (with_status playing g1) (setState r g1 s)).
assert (Hg1 : heap s1 !! r = Some (with_status playing g1)).
{ apply setState_lookup. csimpl. by rewrite length_insert. }
destruct (startAllTimers_timeless room r s1 _ Hg1) as (Ht & g2 & Hg2 & Htl).
rewrite Hg2. csimpl.
eapply (Inv_touches_active s _ r g g2); try done.
- eapply touches_trans; [apply touches_setState|].
  eapply touches_trans; [apply touches_setState|done].
- apply (GoodState_timeless (with_status playing g1) g2); [by symmetry|].
  split; [apply GoodCore_with_status; [done|exact Hc1]|intros _; exact Hn1].
- apply timeless_players in Htl. csimpl in Htl. intros He. rewrite He in Htl.
  symmetry in Htl. by apply fmap_nil_inv in Htl.
- by rewrite (timeless_status _ _ Htl).
Qed.

Lemma make_guess_Inv sock guess s :
Inv s → Inv (stateOf (make_guess sock guess s)).
Proof.
intros HI. unfold make_guess.
destruct (callerState s sock) as [[[userRoom r] g]|] eqn:Hc; [|done].
apply callerState_member in Hc as (Hin & Hg & Hp).
case_decide as Hst; [done|]. case_decide; [done|].
destruct (negb (isValidWord guess)); [done|].
destruct (findPlayer sock (players g)) as [p|] eqn:Hf; [|done].
case_decide as Hlen; [done|]. destruct (isTimedOut p) eqn:Hto; [done|].
assert (Hpl : status g = playing) by (destruct (status g); naive_solver).
set (entry := {| guess := toLowerCase guess; feedback := _ |}).
set (g1 := with_players _ g).
assert (Hlt : r < length (heap s)) by by eapply lookup_lt_Some.
assert (Hc1 : GoodCore g1).
{ eapply GoodCore_guess; [by apply (inv_states s HI r g)|congruence|done|lia]. }
assert (Hne1 : players g1 ≠ []).
{ unfold g1. csimpl. intros He. apply (f_equal length) in He.
  rewrite updatePlayer_length in He. apply hasPlayer_nonempty in Hp.
  by destruct (players g). }
set (s2 := if allCorrect _ then setState r g1 s
           else startPlayerTimer userRoom sock r (setState r g1 s)).
assert (H2 : touches r s s2 ∧ ∃ g2, heap s2 !! r = Some g2 ∧ timeless g2 = timeless g1).
{ unfold s2. destruct (allCorrect _).
  - split; [apply touches_setState|]. exists g1. split; [by apply setState_lookup|done].
  - split.
    + eapply touches_trans; [apply touches_setState|apply touches_startPlayerTimer].
    + apply startPlayerTimer_timeless. by apply setState_lookup. }
destruct H2 as (Ht2 & g2 & Hg2 & Htl). rewrite Hg2.
assert (Hc2 : GoodCore g2) by (eapply GoodCore_timeless; [symmetry; exact Htl|done]).
assert (Hne2 : players g2 ≠ []).
{ apply timeless_players in Htl. intros He. rewrite He in Htl.
  symmetry in Htl. by apply fmap_nil_inv in Htl. }
assert (Hs2 : status g2 = playing) by by rewrite (timeless_status _ _ Htl).
destruct (isEnd (checkGameEnd g2)) eqn:Hend.
- destruct (finishGame userRoom r (checkGameEnd g2) g2 s2) as [s3 out] eqn:Hfin.
  csimpl. injection Hfin as <- <-.
  eapply (Inv_touches_active s _ r g (with_status finished g2)); try done.
  + eapply touches_trans; [exact Ht2|].
    eapply touches_trans; [apply touches_setState|].
    eapply touches_trans; [apply touches_clearAllRoomTimers|].
    apply touches_set_cleanups.
  + csimpl. apply list_lookup_insert_eq. by eapply lookup_lt_Some.
  + by apply GoodState_finished.
- csimpl. eapply (Inv_touches_active s _ r g g2); try done.
  + split; [done|]. intros _. by apply checkGameEnd_continues.
  + congruence.
Qed.

Lemma request_rematch_Inv sock s :
Inv s → Inv (stateOf (request_rematch sock s)).
Proof.
intros HI. unfold request_rematch.
destruct (callerState s sock) as [[[userRoom r] g]|] eqn:Hc; [|done].
apply callerState_member in Hc as (Hin & Hg & Hp).
case_decide as Hst; [done|]. case_decide; [done|]. csimpl.
match goal with |- Inv (setState _ ?g2 _) =>
  eapply (Inv_touches_active s _ r g g2) end; try done.
- apply touches_setState.
- apply setState_lookup. by eapply lookup_lt_Some.
- apply GoodState_with_rematchRequest. by apply (inv_states s HI r g).
- by apply hasPlayer_nonempty in Hp.
- csimpl. destruct (status g); naive_solver.
Qed.

Lemma accept_rematch_Inv sock rnd now s :
Inv s → Inv (stateOf (accept_rematch sock rnd now s)).
Proof.
intros HI. unfold accept_rematch.
destruct (callerState s sock) as [[[userRoom r] g]|] eqn:Hc; [|done].
apply callerState_member in Hc as (Hin & Hg & Hp).
destruct (rematchRequest g) as [rq|] eqn:Hrq; [|done].
destruct (negb (requested rq)); [done|]. case_decide; [done|].
pose proof (inv_states s HI r g Hg) as Hgood.
pose proof (hasPlayer_nonempty _ _ Hp) as Hne.
assert (Hlt : r < length (heap s)) by by eapply lookup_lt_Some.
destruct (getRandomWord _ rnd) as [w|]; csimpl.
- match goal with |- Inv (set_countdowns _ (setState _ ?g2 _)) =>
    eapply (Inv_touches_active s _ r g g2) end; try done.
  + eapply touches_trans; [apply touches_setState|].
    split; csimpl; auto.
    intros cd [Hcd|Hcd]%elem_of_app; [by right|].
    apply list_elem_of_singleton in Hcd as ->. by left.
  + csimpl. by apply list_lookup_insert_eq.
  + by apply (GoodState_reset g).
  + csimpl. intros He%fmap_nil_inv. done.
- match goal with |- Inv (setState _ ?g2 _) =>
    eapply (Inv_touches s _ r g g2) end; try done.
  + apply touches_setState.
  + by apply setState_lookup.
  + by apply GoodState_with_rematchRequest.
Qed.

Lemma decline_rematch_Inv sock s :
Inv s → Inv (stateOf (decline_rematch sock s)).
Proof.
intros HI. unfold decline_rematch.
destruct (callerState s sock) as [[[userRoom r] g]|] eqn:Hc; [|done].
apply callerState_member in Hc as (Hin & Hg & Hp).
destruct (rematchRequest g) as [rq|] eqn:Hrq; [|done].
destruct (negb (requested rq)); [done|]. csimpl.
pose proof (hasPlayer_nonempty _ _ Hp) as Hne.
match goal with |- Inv (setState _ ?g2 _) =>
  eapply (Inv_touches s _ r g g2) end; try done.
- apply touches_setState.
- apply setState_lookup. by eapply lookup_lt_Some.
- apply GoodState_with_rematchRequest. by apply (inv_states s HI r g).
Qed.

Lemma disconnect_Inv sock s : Inv s → Inv (stateOf (disconnect sock s)).
Proof.
intros HI. unfold disconnect.
destruct (roomOf s sock) as [[room r]|] eqn:Hr; [|done]. csimpl.
apply roomOf_Some in Hr as (Hin & g & Hg & Hp). rewrite Hg. csimpl.
pose proof (GoodState_removePlayer sock g (inv_states s HI r g Hg)) as Hgood.
set (g1 := with_players _ g) in *.
assert (Hlt : r < length (heap s)) by by eapply lookup_lt_Some.
case_decide as Hlen; csimpl.
- eapply (Inv_touches s _ r g g1); try done.
  + eapply touches_trans; [apply touches_setState|].
    eapply touches_trans; [apply touches_clearAllRoomTimers|].
    apply touches_set_gameRooms. csimpl. apply sublist_filter.
  + csimpl. by apply list_lookup_insert_eq.
  + intros _ k [Hne Hk]%list_elem_of_filter. csimpl in Hne.
    apply Hne.
    apply (rooms_same_state (gameRooms s) k room r); [apply HI|done..].
  + intros Hw. split; [exact Hw|]. split; [|done].
    intros room' playerId.
    change (timerRef (set_gameRooms ?m ?x)) with (timerRef x).
    rewrite timerRef_clearAllRoomTimers.
    change (timerRef (setState ?a ?b ?x)) with (timerRef x). by case_decide.
- eapply (Inv_touches s _ r g g1); try done.
  + eapply touches_trans; [apply touches_setState|apply touches_clearPlayerTimer].
  + unfold clearPlayerTimer. repeat case_match; by apply setState_lookup.
  + intros He. unfold g1 in He. csimpl in He. by rewrite He in Hlen.
  + intros Hw. split; [exact Hw|]. split.
    * intros room' playerId. rewrite timerRef_clearPlayerTimer.
      change (timerRef (setState ?a ?b ?x)) with (timerRef x). by case_decide.
    * unfold clearPlayerTimer. by repeat case_match.
Qed.

Lemma timerTick_Inv room playerId s : Inv s → Inv (timerTick room playerId s).1.
Proof.
intros HI. unfold timerTick.
destruct (timerRef s room playerId) as [r|] eqn:Ht; [|done].
destruct (inv_timers s HI _ _ _ Ht) as (g & Hg & Hst). rewrite Hg.
destruct (findPlayer playerId (players g)) as [p|] eqn:Hf; [|done].
set (g1 := with_players _ g).
assert (Htl : timeless g1 = timeless g) by apply timeless_update.
assert (Hlt : r < length (heap s)) by by eapply lookup_lt_Some.
assert (Hne : players g ≠ []).
{ apply findPlayer_Some in Hf as [Hin _]. intros He. rewrite He in Hin.
  by apply elem_of_nil in Hin. }
assert (Hne1 : players g1 ≠ []).
{ apply timeless_players in Htl. intros He. rewrite He in Htl.
  symmetry in Htl. by apply fmap_nil_inv in Htl. }
assert (HI1 : Inv (setState r g1 s)).
{ eapply (Inv_touches_active s _ r g g1);
    [done|apply touches_setState|done|by apply setState_lookup| |done|].
  - eapply GoodState_timeless; [by symmetry|]. by apply (inv_states s HI r g).
  - by rewrite (timeless_status _ _ Htl). }
case_decide; [|done].
assert (HI2 : Inv (clearPlayerTimer room playerId (setState r g1 s))).
{ eapply Inv_shrink; [exact HI1|..].
  - unfold clearPlayerTimer. by repeat case_match.
  - unfold clearPlayerTimer. by repeat case_match.
  - intros room' playerId' r'. rewrite timerRef_clearPlayerTimer. by case_decide.
  - unfold clearPlayerTimer. by repeat case_match. }
pose proof (handlePlayerTimeout_Inv room playerId r _ g1 HI2) as HI3.
destruct (handlePlayerTimeout room playerId r _) as [s' out]. csimpl in *.
apply HI3; [|exact Hst|done].
unfold clearPlayerTimer. repeat case_match; by apply setState_lookup.
Qed.

Lemma countdownTick_Inv k s : Inv s → Inv (stateOf (countdownTick k s)).
Proof.
intros HI. unfold countdownTick.
destruct (countdowns s !! k) as [cd|] eqn:Hk; [|done].
destruct (inv_countdowns s HI cd) as (g & Hg & Hst);
  [by eapply list_elem_of_lookup_2|].
case_decide.
- set (s1 := set_countdowns _ s).
  assert (HI1 : Inv s1).
  { eapply Inv_shrink; [exact HI|done..|].
    intros cd'. csimpl. apply list_elem_of_delete_inv. }
  destruct (startAllTimers_timeless (cd_room cd) (cd_state cd) s1 g Hg)
    as (Ht & g' & Hg' & Htl).
  rewrite Hg'. csimpl.
  destruct (inv_states s1 HI1 _ _ Hg) as [Hc Hw].
  eapply (Inv_touches s1 _ (cd_state cd) g g'); try done.
  + by eapply GoodState_timeless.
  + intros He k0 Hk0. destruct Ht as [_ _ Hsub _ _].
    destruct (inv_rooms s1 HI1 k0 (cd_state cd)) as (g0 & Hg0 & Hne0);
      [by eapply elem_of_sublist|].
    assert (g0 = g) as -> by (unfold s1 in Hg0; csimpl in Hg0; congruence).
    apply timeless_players in Htl. rewrite He in Htl.
    symmetry in Htl. by apply fmap_nil_inv in Htl.
  + rewrite (timeless_status _ _ Htl). done.
- csimpl. split; try apply HI. csimpl.
  intros cd' Hcd'.
  apply list_elem_of_lookup in Hcd' as [i Hi].
  destruct (decide (i = k)) as [->|Hne].
  + rewrite list_lookup_insert_eq in Hi by by eapply lookup_lt_Some.
    injection Hi as <-. csimpl. eauto.
  + rewrite list_lookup_insert_ne in Hi by done.
    eapply (inv_countdowns s HI), list_elem_of_lookup_2. done.
Qed.

Lemma cleanupFire_Inv k s : Inv s → Inv (stateOf (cleanupFire k s)).
Proof.
intros HI. unfold cleanupFire.
destruct (cleanups s !! k) as [room|]; [|done]. csimpl.
eapply Inv_shrink; [exact HI|done| |done..]. csimpl. apply sublist_filter.
Qed.

Lemma step_Inv s a : Inv s → Inv (stateOf (step s a)).
Proof.
intros HI. destruct a; csimpl.
- by apply create_room_Inv.
- by apply join_room_Inv.
- by apply make_guess_Inv.
- by apply request_rematch_Inv.
- by apply accept_rematch_Inv.
- by apply decline_rematch_Inv.
- by apply disconnect_Inv.
- pose proof (timerTick_Inv room playerId s HI) as Ht.
  by destruct (timerTick room playerId s).
- by apply countdownTick_Inv.
- by apply cleanupFire_Inv.
Qed.

Lemma reachable_Inv s : reachable s → Inv s.
Proof.
induction 1 as [|s a _ IH]; [apply Inv_initial|by apply step_Inv].
Qed.
End Invariants.


(** ** The six-guess limit *)

Lemma reachable_run `{Env} actions s : reachable s → reachable (run actions s).
Proof.
  revert s. induction actions as [|a actions IH]; intros s Hs; [done|].
  csimpl. apply IH. by constructor.
Qed.

(** C4 (as amended). In every reachable state no player has more than six
    guesses. A [make_guess] whose caller already has six, with a guess of the
    right length that is in the word list, in a room that is [playing], is
    answered to the caller alone with the attempts-exhausted error and
    changes nothing; in a room that is not [playing] any [make_guess] is
    answered with the game-not-active error, and changes nothing either. *)
Theorem guess_history_bounded `{Env} (s : Server) (sock : string) (guess : jsstring)
    (userRoom : string) (r : nat) (g : GameState) (p : PlayerState) :
  reachable s →
  (∀ r' g' p', heap s !! r' = Some g' → p' ∈ players g' → length (guesses p') ≤ 6)
  ∧ (callerState s sock = Some (userRoom, r, g) → status g = playing →
     Z.of_nat (length guess) = wordLength g → isValidWord guess = true →
     findPlayer sock (players g) = Some p → 6 ≤ length (guesses p) →
     make_guess sock guess s = Done s [errorTo sock MsgNoAttemptsLeft])
  ∧ (callerState s sock = Some (userRoom, r, g) → status g ≠ playing →
     make_guess sock guess s = Done s [errorTo sock MsgGameNotActive]).
Proof.
  intros Hreach. split_and!.
  - intros r' g' p' Hg' Hp'.
    destruct (inv_states s (reachable_Inv s Hreach) r' g' Hg') as [[Hlen _ _ _] _].
    by apply (proj1 (Forall_forall _ _) Hlen).
  - intros Hc Hst Hlen Hvalid Hf Hsix. unfold make_guess. rewrite Hc.
    rewrite decide_False by (by intros ?).
    rewrite decide_False by (by intros ?).
    rewrite Hvalid, Hf. csimpl. by rewrite decide_True.
  - intros Hc Hst. unfold make_guess. rewrite Hc. by rewrite decide_True.
Qed.

(** A plays six wrong guesses while B has not played: the room is still
    [playing] and A's seventh guess is refused. *)
Lemma guess_history_bounded_seventh :
  let s := run (H := sampleEnv)
             ([CreateRoom "A" "Ayse" (Some (Qc_of_Z 2)) (Some 5%Z) tl_null
                           "ROOM01" 0 1000%Z;
               JoinRoom "B" "ROOM01" "Berk"]
              ++ replicate 6 (MakeGuess "A" (word "kitap"))) initialServer in
  reachable (H := sampleEnv) s
  ∧ ∃ r g p,
      callerState s "A" = Some ("ROOM01", r, g) ∧ status g = playing
      ∧ findPlayer "A" (players g) = Some p ∧ length (guesses p) = 6
      ∧ make_guess (H := sampleEnv) "A" (word "kitap") s
        = Done s [errorTo "A" MsgNoAttemptsLeft].
Proof.
  intros s.
  assert (Hreach : reachable (H := sampleEnv) s)
    by (apply reachable_run; constructor).
  split; [exact Hreach|].
  destruct (callerState s "A") as [[[userRoom r] g]|] eqn:Hc; [|by vm_compute in Hc].
  destruct (findPlayer "A" (players g)) as [p|] eqn:Hf.
  2:{ vm_compute in Hc. injection Hc as <- <- <-. by vm_compute in Hf. }
  assert (Hroom : userRoom = "ROOM01")
    by (vm_compute in Hc; by injection Hc as <- _ _).
  assert (Hst : status g = playing)
    by (vm_compute in Hc; by injection Hc as _ _ <-).
  assert (Hlen : length (guesses p) = 6).
  { vm_compute in Hc. injection Hc as _ _ <-. vm_compute in Hf. by injection Hf as <-. }
  assert (Hwl : Z.of_nat (length (word "kitap")) = wordLength g)
    by (vm_compute in Hc; by injection Hc as _ _ <-).
  assert (Hvalid : isValidWord (H := sampleEnv) (word "kitap") = true)
    by (vm_compute; reflexivity).
  assert (Hsix : 6 ≤ length (guesses p)) by (rewrite Hlen; lia).
  subst userRoom.
  pose proof (proj1 (proj2 (@guess_history_bounded sampleEnv s "A" (word "kitap")
                "ROOM01" r g p Hreach)) Hc Hst Hwl Hvalid Hf Hsix) as Hrefused.
  exists r, g, p. split_and!; [reflexivity|exact Hst|exact Hf|exact Hlen|exact Hrefused].
Defined.

(** C4 as stated fails once the game is over: A and B have both used their
    six guesses, the room is [finished], and A's seventh guess (right length,
    in the word list) is answered with the game-not-active error, not with
    the attempts-exhausted one. *)
Lemma seventh_guess_after_game_over :
  let s := run (H := sampleEnv)
             ([CreateRoom "A" "Ayse" (Some (Qc_of_Z 2)) (Some 5%Z) tl_null
                           "ROOM01" 0 1000%Z;
               JoinRoom "B" "ROOM01" "Berk"]
              ++ replicate 6 (MakeGuess "A" (word "kitap"))
              ++ replicate 6 (MakeGuess "B" (word "kitap"))) initialServer in
  ∃ r g p,
    callerState s "A" = Some ("ROOM01", r, g)
    ∧ findPlayer "A" (players g) = Some p ∧ length (guesses p) = 6
    ∧ Z.of_nat (length (word "kitap")) = wordLength g
    ∧ isValidWord (H := sampleEnv) (word "kitap") = true
    ∧ status g = finished
    ∧ make_guess (H := sampleEnv) "A" (word "kitap") s
      = Done s [errorTo "A" MsgGameNotActive]
    ∧ errorTo "A" MsgGameNotActive ≠ errorTo "A" MsgNoAttemptsLeft.
Proof.
  intros s.
  destruct (callerState s "A") as [[[userRoom r] g]|] eqn:Hc; [|by vm_compute in Hc].
  destruct (findPlayer "A" (players g)) as [p|] eqn:Hf.
  2:{ vm_compute in Hc. injection Hc as <- <- <-. by vm_compute in Hf. }
  assert (Hroom : userRoom = "ROOM01")
    by (vm_compute in Hc; by injection Hc as <- _ _).
  assert (Hst : status g = finished)
    by (vm_compute in Hc; by injection Hc as _ _ <-).
  assert (Hlen : length (guesses p) = 6).
  { vm_compute in Hc. injection Hc as _ _ <-. vm_compute in Hf. by injection Hf as <-. }
  assert (Hwl : Z.of_nat (length (word "kitap")) = wordLength g)
    by (vm_compute in Hc; by injection Hc as _ _ <-).
  subst userRoom. exists r, g, p. by split_and!.
Qed.


(** ** Rematch *)

Lemma find_Some_split {A} (f : A → bool) (l : list A) (x : A) :
  List.find f l = Some x →
  ∃ before after, l = before ++ x :: after ∧ f x = true
                  ∧ Forall (λ y, f y = false) before.
Proof.
  induction l as [|y l IH]; [done|]. csimpl.
  destruct (f y) eqn:E.
  - intros [= ->]. by exists [], l.
  - intros (before & after & -> & Hx & Hb)%IH.
    exists (y :: before), after. split_and!; [done..|]. by constructor.
Qed.

(** The room that the handlers resolve for a caller is the first room of
    the registry, in insertion order, whose player list holds the caller. *)
Lemma callerState_first_room s sock k r g :
  callerState s sock = Some (k, r, g) →
  ∃ before after,
    gameRooms s = before ++ (k, r) :: after
    ∧ hasPlayer sock g = true
    ∧ ∀ k' r' g', (k', r') ∈ before → heap s !! r' = Some g' →
                  hasPlayer sock g' = false.
Proof.
  intros Hc. pose proof (callerState_member _ _ _ _ _ Hc) as (_ & _ & Hp).
  apply callerState_Some in Hc as (Hr & _ & Hg). unfold roomOf in Hr.
  apply find_Some_split in Hr as (before & after & Hl & _ & Hb).
  exists before, after. split_and!; [done..|].
  intros k' r' g' Hin Hg'. rewrite Forall_forall in Hb.
  specialize (Hb _ Hin). csimpl in Hb. by rewrite Hg' in Hb.
Qed.

(** C6 (as amended). In a reachable state, let a rematch request be pending
    in the room that the server resolves for the caller: the first room of
    the registry whose player list holds the caller. [accept_rematch] by the
    requester is answered with the cannot-accept-own-request error and
    changes nothing; by any other caller it succeeds: the room is sent
    [rematch_accepted], every player's guesses are cleared, timed-out flag
    and remaining time reset, the solution becomes the word that
    [getRandomWord] draws from the list for the room's word length (the entry
    at the drawn index, whatever the previous solution was), the request is
    cleared and the status is [playing]. *)
Theorem accept_rematch_outcome `{Env} (s : Server) (sock : string) (rnd : nat)
    (now : Z) (userRoom : string) (r : nat) (g : GameState) (rq : RematchRequest) :
  reachable s →
  callerState s sock = Some (userRoom, r, g) →
  rematchRequest g = Some rq → requested rq = true →
  (∃ before after,
     gameRooms s = before ++ (userRoom, r) :: after
     ∧ hasPlayer sock g = true
     ∧ ∀ k' r' g', (k', r') ∈ before → heap s !! r' = Some g' →
                   hasPlayer sock g' = false)
  ∧ (requesterId rq = sock →
     accept_rematch sock rnd now s = Done s [errorTo sock MsgCannotAcceptOwn])
  ∧ (requesterId rq ≠ sock →
     ∃ s' out g' words,
       accept_rematch sock rnd now s = Done s' out
       ∧ out = [{| target := ToRoom userRoom; event := rematch_accepted;
                   payload := JUndefined |}]
       ∧ ¬ reportsError out
       ∧ gameRooms s' = gameRooms s
       ∧ heap s' !! r = Some g'
       ∧ players g' = resetPlayer (timeLimit g) <$> players g
       ∧ Forall (λ p, guesses p = [] ∧ isTimedOut p = false
                      ∧ timeRemaining p = js_or (timeLimit g) (-1)) (players g')
       ∧ WORD_LISTS (wordLength g) = Some words ∧ solution g' ∈ words
       ∧ getRandomWord (wordLength g) rnd = Some (solution g')
       ∧ words !! (rnd `mod` length words) = Some (solution g')
       ∧ (wordsSized → Z.of_nat (length (solution g')) = wordLength g)
       ∧ wordLength g' = wordLength g
       ∧ rematchRequest g' = None
       ∧ status g' = playing).
Proof.
  intros Hreach Hc Hrq Hreq.
  split; [by apply callerState_first_room|].
  unfold accept_rematch. rewrite Hc, Hrq, Hreq.
  csimpl. split.
  - intros Hown. by rewrite decide_True.
  - intros Hother. rewrite decide_False by done.
    pose proof (callerState_member _ _ _ _ _ Hc) as (_ & Hg & _).
    destruct (inv_states s (reachable_Inv s Hreach) r g Hg)
      as [[_ (words & Hwords & Hne) _ _] _].
    destruct (getRandomWord_listed (wordLength g) rnd words Hwords Hne)
      as (w & Hrand & Hin).
    assert (Hdraw : words !! (rnd `mod` length words) = Some w).
    { unfold getRandomWord in Hrand. rewrite Hwords in Hrand.
      by case_decide. }
    rewrite Hrand. eexists _, _, _, words. split; [reflexivity|].
    split; [reflexivity|].
    split; [intros Herr; no_error|]. split; [done|].
    split; [csimpl; apply list_lookup_insert_eq; by eapply lookup_lt_Some|].
    csimpl. split_and!; try done.
    + apply Forall_fmap, Forall_forall. by intros p _.
    + intros Hsized. by apply (Hsized _ words).
Qed.

(** A wins the first game, B asks for a rematch, A accepts. *)
Lemma accept_rematch_outcome_sample :
  let s := run (H := sampleEnv)
             [CreateRoom "A" "Ayse" (Some (Qc_of_Z 2)) (Some 5%Z) (tl_number 30)
                          "ROOM01" 0 1000%Z;
              JoinRoom "B" "ROOM01" "Berk";
              MakeGuess "B" (word "kitap");
              MakeGuess "A" (word "kapak");
              RequestRematch "B"] initialServer in
  reachable (H := sampleEnv) s
  ∧ ∃ r g rq,
      callerState s "A" = Some ("ROOM01", r, g)
      ∧ rematchRequest g = Some rq ∧ requested rq = true ∧ requesterId rq = "B"
      ∧ ∃ s' out g' words,
          accept_rematch (H := sampleEnv) "A" 1 2000%Z s = Done s' out
          ∧ out = [{| target := ToRoom "ROOM01"; event := rematch_accepted;
                      payload := JUndefined |}]
          ∧ ¬ reportsError out
          ∧ gameRooms s' = gameRooms s
          ∧ heap s' !! r = Some g'
          ∧ players g' = resetPlayer (timeLimit g) <$> players g
          ∧ Forall (λ p, guesses p = [] ∧ isTimedOut p = false
                         ∧ timeRemaining p = js_or (timeLimit g) (-1)) (players g')
          ∧ WORD_LISTS (H := sampleEnv) (wordLength g) = Some words
          ∧ solution g' ∈ words
          ∧ getRandomWord (H := sampleEnv) (wordLength g) 1 = Some (solution g')
          ∧ words !! (1 `mod` length words) = Some (solution g')
          ∧ (wordsSized (H := sampleEnv) →
             Z.of_nat (length (solution g')) = wordLength g)
          ∧ wordLength g' = wordLength g
          ∧ rematchRequest g' = None
          ∧ status g' = playing.
Proof.
  intros s.
  assert (Hreach : reachable (H := sampleEnv) s)
    by (apply reachable_run; constructor).
  split; [exact Hreach|].
  destruct (callerState s "A") as [[[userRoom r] g]|] eqn:Hc; [|by vm_compute in Hc].
  destruct (rematchRequest g) as [rq|] eqn:Hrq.
  2:{ vm_compute in Hc. injection Hc as <- <- <-. by vm_compute in Hrq. }
  assert (Hroom : userRoom = "ROOM01")
    by (vm_compute in Hc; by injection Hc as <- _ _).
  assert (Hrq' : requested rq = true ∧ requesterId rq = "B").
  { vm_compute in Hc. injection Hc as _ _ <-. vm_compute in Hrq.
    by injection Hrq as <-. }
  destruct Hrq' as [Hreq Hby]. subst userRoom.
  assert (Hother : requesterId rq ≠ "A") by (by rewrite Hby).
  exists r, g, rq. split_and!; [reflexivity|exact Hrq|exact Hreq|exact Hby|].
  exact (proj2 (proj2 (@accept_rematch_outcome sampleEnv s "A" 1 2000%Z "ROOM01"
                         r g rq Hreach Hc Hrq Hreq)) Hother).
Defined.

(** C6 as stated fails for a member who is also listed in an earlier room:
    [join_room] does not look at the other rooms. A creates ROOM00 and then
    joins B's ROOM01; B wins and asks for a rematch. A is a player of ROOM01
    and not the requester, yet [accept_rematch] by A is handled in ROOM00,
    where nothing is pending: A is answered with the no-rematch-request
    error, whatever the draw, and nothing changes. *)
Lemma accept_rematch_from_second_room :
  let s := run (H := sampleEnv)
             [CreateRoom "A" "Ayse" (Some (Qc_of_Z 2)) (Some 5%Z) (tl_number 30)
                         "ROOM00" 0 1000%Z;
              CreateRoom "B" "Berk" (Some (Qc_of_Z 2)) (Some 5%Z) (tl_number 30)
                         "ROOM01" 0 2000%Z;
              JoinRoom "A" "ROOM01" "Ayse";
              MakeGuess "B" (word "kapak");
              RequestRematch "B"] initialServer in
  reachable (H := sampleEnv) s
  ∧ ∃ r g rq,
      rooms_get "ROOM01" (gameRooms s) = Some r ∧ heap s !! r = Some g
      ∧ status g = finished
      ∧ rematchRequest g = Some rq ∧ requested rq = true
      ∧ requesterId rq = "B" ∧ hasPlayer "A" g = true
      ∧ ∀ rnd now,
          accept_rematch (H := sampleEnv) "A" rnd now s
          = Done s [errorTo "A" MsgNoRematchRequest].
Proof.
  intros s. split; [apply reachable_run; constructor|].
  eexists 1, _, _. split_and!; vm_compute; reflexivity.
Qed.


(** ** Departure of the last player *)

Lemma removePlayer_last sock p :
  bool_decide (id p = sock) = true → removePlayer sock [p] = [].
Proof. intros Hp. csimpl. by rewrite Hp. Qed.

(** C9. No room of a reachable registry is without players. When the room
    that [disconnect] finds for the caller has the caller as its only player,
    the room's timers are dropped and the room leaves the registry, after
    which a [join_room] with its id is answered with the room-not-found
    error. *)
Theorem last_player_disconnect `{Env} (s : Server) (sock room : string) (r : nat)
    (g : GameState) :
  reachable s →
  (∀ k r', (k, r') ∈ gameRooms s → ∃ g', heap s !! r' = Some g' ∧ players g' ≠ [])
  ∧ (roomOf s sock = Some (room, r) → heap s !! r = Some g →
     length (players g) = 1 →
     ∃ s', disconnect sock s = Done s' []
           ∧ rooms_get room (gameRooms s') = None
           ∧ (∀ k r', (k, r') ∈ gameRooms s' → (k, r') ∈ gameRooms s ∧ k ≠ room)
           ∧ gameTimers s' !! room = None
           ∧ ∀ sock' playerName,
               join_room sock' room playerName s'
               = Done s' [errorTo sock' MsgRoomNotFound]).
Proof.
  intros Hreach. split.
  - apply (inv_rooms s (reachable_Inv s Hreach)).
  - intros Hroom Hg Hone.
    pose proof (roomOf_Some _ _ _ _ Hroom) as (_ & g0 & Hg0 & Hp).
    assert (g0 = g) as -> by congruence.
    assert (Hrm : removePlayer sock (players g) = []).
    { unfold hasPlayer in Hp. destruct (players g) as [|p [|q ps]]; [done| |done].
      csimpl in Hp. rewrite orb_false_r in Hp. by apply removePlayer_last. }
    unfold disconnect. rewrite Hroom. csimpl. rewrite Hg. csimpl.
    rewrite Hrm. csimpl. eexists. split; [reflexivity|]. csimpl.
    assert (Hgone : rooms_get room (rooms_delete room (gameRooms s)) = None)
      by apply rooms_get_delete.
    split_and!.
    + done.
    + intros k r' [Hne Hin]%list_elem_of_filter. done.
    + apply lookup_delete_eq.
    + intros sock' playerName. unfold join_room. csimpl. by rewrite Hgone.
Qed.

(** The scenario of the design document: the creator of a two-player room
    leaves before anyone joins. *)
Lemma last_player_disconnect_sample :
  let s := run (H := sampleEnv)
             [CreateRoom "A" "Ayse" (Some (Qc_of_Z 2)) (Some 5%Z) (tl_number 30)
                          "ROOM01" 0 1000%Z]
             initialServer in
  reachable (H := sampleEnv) s
  ∧ ∃ r g, roomOf s "A" = Some ("ROOM01", r) ∧ heap s !! r = Some g
           ∧ length (players g) = 1
           ∧ ∃ s', disconnect "A" s = Done s' []
                   ∧ rooms_get "ROOM01" (gameRooms s') = None
                   ∧ (∀ k r', (k, r') ∈ gameRooms s' →
                              (k, r') ∈ gameRooms s ∧ k ≠ "ROOM01")
                   ∧ gameTimers s' !! "ROOM01" = None
                   ∧ ∀ sock' playerName,
                       join_room sock' "ROOM01" playerName s'
                       = Done s' [errorTo sock' MsgRoomNotFound].
Proof.
  intros s.
  assert (Hreach : reachable (H := sampleEnv) s)
    by (apply reachable_run; constructor).
  split; [exact Hreach|].
  assert (Hroom : roomOf s "A" = Some ("ROOM01", 0)) by (vm_compute; reflexivity).
  destruct (heap s !! 0) as [g|] eqn:Hg; [|by vm_compute in Hg].
  assert (Hone : length (players g) = 1)
    by (vm_compute in Hg; by injection Hg as <-).
  exists 0, g. split_and!; [exact Hroom|exact Hg|exact Hone|].
  exact (proj2 (@last_player_disconnect sampleEnv s "A" "ROOM01" 0 g Hreach)
           Hroom Hg Hone).
Defined.


(** ** Filling a room *)

Lemma updatePlayer_elem_of_NoDup playerId f ps q :
  NoDup (id <$> ps) → (∀ p, id (f p) = id p) → q ∈ updatePlayer playerId f ps →
  (q ∈ ps ∧ id q ≠ playerId) ∨ ∃ p, p ∈ ps ∧ id p = playerId ∧ q = f p.
Proof.
  intros Hnd Hf. induction ps as [|p ps IH]; [by intros ?%elem_of_nil|].
  rewrite fmap_cons in Hnd. apply NoDup_cons in Hnd as [Hp Hnd]. csimpl.
  case_bool_decide as Hid.
  - intros [->|Hq]%elem_of_cons.
    + right. exists p. split_and!; [left|done..].
    + left. split; [by right|]. intros Heq. apply Hp. rewrite Hid, <- Heq.
      by apply list_elem_of_fmap_2.
  - intros [->|Hq]%elem_of_cons; [left; split; [left|done]|].
    destruct (IH Hnd Hq) as [[? ?]|(p' & ? & ? & ?)].
    + left. split; [by right|done].
    + right. exists p'. split_and!; [by right|done..].
Qed.

Lemma timeless_timeLimit g g' : timeless g = timeless g' → timeLimit g = timeLimit g'.
Proof. intros Heq. by apply (f_equal timeLimit) in Heq. Qed.

Lemma timeless_ids g g' : timeless g = timeless g' → id <$> players g = id <$> players g'.
Proof.
  intros Heq%timeless_players. apply (f_equal (fmap id)) in Heq.
  by rewrite <- !list_fmap_compose in Heq.
Qed.

Lemma startTimers_fold_unlimited room r ids :
  ∀ s g (D : string → Prop),
  heap s !! r = Some g → timeLimit g = None → NoDup (id <$> players g) →
  Forall (λ p, isTimedOut p = false) (players g) →
  Forall (λ p, D (id p) → timeRemaining p = (-1)%Z) (players g) →
  ∃ g', heap (foldl (λ s' playerId, startPlayerTimer room playerId r s') s ids) !! r
        = Some g'
        ∧ Forall (λ p, D (id p) ∨ id p ∈ ids → timeRemaining p = (-1)%Z) (players g').
Proof.
  induction ids as [|i ids IH]; intros s g D Hg Hlim Hnd Hto HD; csimpl.
  - exists g. split; [done|]. eapply Forall_impl; [exact HD|].
    intros p Hp [?|[]%elem_of_nil]. auto.
  - assert (Hnext : ∃ g1, heap (startPlayerTimer room i r s) !! r = Some g1
              ∧ timeLimit g1 = None ∧ NoDup (id <$> players g1)
              ∧ Forall (λ p, isTimedOut p = false) (players g1)
              ∧ Forall (λ p, D (id p) ∨ id p = i → timeRemaining p = (-1)%Z)
                       (players g1)).
    { destruct (findPlayer i (players g)) as [p|] eqn:Hf.
      - assert (Hpt : isTimedOut p = false).
        { apply findPlayer_Some in Hf as [Hin _].
          by apply (proj1 (Forall_forall _ _) Hto). }
        destruct (startPlayerTimer_effect room i r s g p Hg Hf Hpt) as (Hh & _).
        rewrite Hlim in Hh. csimpl in Hh.
        eexists. rewrite Hh. split.
        { apply list_lookup_insert_eq. by eapply lookup_lt_Some. }
        csimpl. split_and!; [done| | |].
        + by rewrite updatePlayer_ids.
        + apply updatePlayer_Forall; [done|]. by intros q _ _ Hq.
        + apply Forall_forall. intros q Hq.
          apply updatePlayer_elem_of_NoDup in Hq as [[Hq Hne]|(p' & Hp' & Hid & ->)];
            [|done|done|..].
          * intros [Hd|?]; [|done]. by apply (proj1 (Forall_forall _ _) HD).
          * done.
      - rewrite (startPlayerTimer_skip _ _ _ _ g) by auto.
        exists g. split_and!; [done..|].
        apply Forall_forall. intros q Hq [Hd|Hid].
        + by apply (proj1 (Forall_forall _ _) HD).
        + apply findPlayer_None in Hf. exfalso. apply Hf. rewrite <- Hid.
          by apply list_elem_of_fmap_2. }
    destruct Hnext as (g1 & Hg1 & Hlim1 & Hnd1 & Hto1 & HD1).
    destruct (IH _ g1 (λ x, D x ∨ x = i) Hg1 Hlim1 Hnd1 Hto1 HD1) as (g' & Hg' & HD').
    exists g'. split; [done|]. eapply Forall_impl; [exact HD'|].
    intros p Hp Hcase. apply Hp. rewrite elem_of_cons in Hcase. tauto.
Qed.

Lemma startTimers_fold_timed room r ids :
  ∀ s g limit playerId,
  heap s !! r = Some g → timeLimit g = Some limit →
  Forall (λ p, isTimedOut p = false) (players g) →
  timerRef s room playerId = Some r
  ∨ (playerId ∈ ids ∧ playerId ∈ id <$> players g) →
  timerRef (foldl (λ s' playerId, startPlayerTimer room playerId r s') s ids)
           room playerId = Some r.
Proof.
  induction ids as [|i ids IH]; intros s g limit playerId Hg Hlim Hto Hcase; csimpl.
  - destruct Hcase as [?|[[]%elem_of_nil _] ]. done.
  - destruct (startPlayerTimer_timeless room i r s g Hg) as (g1 & Hg1 & Htl).
    apply (IH _ g1 limit); [done| | |].
    + by rewrite (timeless_timeLimit _ _ Htl).
    + by apply (timeless_Forall _ g g1).
    + assert (Hstep : ∀ q, timerRef s room q = Some r ∨ (q = i ∧ q ∈ id <$> players g) →
                          timerRef (startPlayerTimer room i r s) room q = Some r).
      { intros q Hq.
        destruct (findPlayer i (players g)) as [p|] eqn:Hf.
        - assert (Hpt : isTimedOut p = false).
          { apply findPlayer_Some in Hf as [Hin _].
            by apply (proj1 (Forall_forall _ _) Hto). }
          destruct (startPlayerTimer_effect room i r s g p Hg Hf Hpt)
            as (_ & _ & _ & _ & Hti).
          rewrite Hti, Hlim. case_decide as Hd; [done|].
          destruct Hq as [?|[-> _] ]; [done|]. exfalso. by apply Hd.
        - rewrite (startPlayerTimer_skip _ _ _ _ g) by auto.
          destruct Hq as [?|[-> Hin] ]; [done|].
          by apply findPlayer_None in Hf. }
      rewrite (timeless_ids _ _ Htl).
      destruct Hcase as [Hold|[[->|Hin]%elem_of_cons Hmem] ].
      * left. apply Hstep. by left.
      * left. apply Hstep. by right.
      * by right.
Qed.

(** What [startAllTimers] leaves behind in a state none of whose players is
    timed out: a live timer per player, or the sentinel -1 on every clock. *)
Lemma startAllTimers_everyone room r s g :
  heap s !! r = Some g → NoDup (id <$> players g) →
  Forall (λ p, isTimedOut p = false) (players g) →
  ∃ g', heap (startAllTimers room r s) !! r = Some g'
        ∧ timeless g' = timeless g
        ∧ ∀ p, p ∈ players g' →
               match timeLimit g' with
               | Some _ => timerRef (startAllTimers room r s) room (id p) = Some r
               | None => timeRemaining p = (-1)%Z
               end.
Proof.
  intros Hg Hnd Hto.
  destruct (startAllTimers_timeless room r s g Hg) as (_ & g' & Hg' & Htl).
  exists g'. split_and!; [done..|]. intros p Hp.
  rewrite (timeless_timeLimit _ _ Htl).
  unfold startAllTimers in *. rewrite Hg in *.
  destruct (timeLimit g) as [limit|] eqn:Hlim.
  - apply (startTimers_fold_timed room r _ s g limit); [done..|]. right.
    rewrite <- (timeless_ids _ _ Htl). split; by apply list_elem_of_fmap_2.
  - destruct (startTimers_fold_unlimited room r (id <$> players g) s g (λ _, False))
      as (g'' & Hg'' & Hall); [done..| |].
    { apply Forall_forall. by intros q _ []. }
    assert (g'' = g') as -> by congruence.
    apply (proj1 (Forall_forall _ _) Hall p Hp). right.
    rewrite <- (timeless_ids _ _ Htl). by apply list_elem_of_fmap_2.
Qed.

(** C3. In a reachable state, a [join_room] by a socket that is not yet in a
    [waiting] room turns the room to [playing] exactly when it brings the
    membership to [maxPlayers]; afterwards every member has a live timer on
    this game (numeric time limit) or the remaining time -1 (no limit). And
    whenever a [join_room] changes the status of any game state, it is this
    transition. *)
Theorem join_room_starts_game `{Env} (s : Server) (sock room playerName : string)
    (r : nat) (g : GameState) :
  reachable s →
  (rooms_get room (gameRooms s) = Some r → heap s !! r = Some g →
   status g = waiting → findPlayer sock (players g) = None →
   ∃ s' out g',
     join_room sock room playerName s = Done s' out
     ∧ heap s' !! r = Some g'
     ∧ (status g' = playing
        ↔ Qc_of_nat (length (players g) + 1) = maxPlayers g)
     ∧ (status g' = playing →
        id <$> players g' = (id <$> players g) ++ [sock]
        ∧ ∀ p, p ∈ players g' →
               match timeLimit g' with
               | Some _ => timerRef s' room (id p) = Some r
               | None => timeRemaining p = (-1)%Z
               end))
  ∧ (∀ r0 g0 g0',
       heap s !! r0 = Some g0 →
       heap (stateOf (join_room sock room playerName s)) !! r0 = Some g0' →
       status g0' ≠ status g0 →
       rooms_get room (gameRooms s) = Some r0
       ∧ status g0 = waiting ∧ status g0' = playing
       ∧ findPlayer sock (players g0) = None
       ∧ Qc_of_nat (length (players g0) + 1) = maxPlayers g0).
Proof.
  intros Hreach. pose proof (reachable_Inv s Hreach) as HI. split.
  - intros Hr Hg Hw Hf. unfold join_room. rewrite Hr. csimpl. rewrite Hg. csimpl.
    rewrite Hf.
    assert (Hlt : r < length (heap s)) by by eapply lookup_lt_Some.
    case_decide as Hfull.
    { eexists _, _, g. split_and!; [done..| |by rewrite Hw].
      rewrite Hw. split; [done|]. intros Hm. exfalso.
      rewrite Qc_of_nat_add_1 in Hm. qc_order. }
    rewrite decide_False by (by intros ?).
    set (g1 := with_players _ g).
    assert (Hlen1 : Qc_of_nat (length (players g1))
                    = Qc_of_nat (length (players g) + 1)).
    { unfold g1. csimpl. by rewrite length_app. }
    case_decide as Hmax.
    2:{ eexists _, _, g1. split; [reflexivity|].
        split; [by apply setState_lookup|].
        change (status g1) with (status g). rewrite Hw.
        split; [|done]. split; [done|]. intros Hm. exfalso. apply Hmax.
        etrans; [exact Hlen1|exact Hm]. }
    destruct (inv_states s HI r g Hg) as [[_ _ Hfresh Hids] _].
    set (s1 := setState r (with_status playing g1) (setState r g1 s)).
    assert (Hg1 : heap s1 !! r = Some (with_status playing g1)).
    { apply setState_lookup. csimpl. by rewrite length_insert. }
    destruct (startAllTimers_everyone room r s1 _ Hg1) as (g2 & Hg2 & Htl & Hall).
    { csimpl. rewrite fmap_app. apply NoDup_app. split_and!; [done| |apply NoDup_singleton].
      intros i Hi [->|[]%elem_of_nil]%elem_of_cons. by apply findPlayer_None in Hf. }
    { csimpl. apply Forall_app. split; [|by apply Forall_singleton].
      eapply Forall_impl; [by apply Hfresh|]. by intros p [_ ?]. }
    rewrite Hg2. eexists _, _, g2. split; [reflexivity|]. split; [done|].
    rewrite (timeless_status _ _ Htl). csimpl. split.
    + split; [intros _|done]. etrans; [symmetry; exact Hlen1|exact Hmax].
    + intros _. split; [|done].
      rewrite (timeless_ids _ _ Htl). csimpl. by rewrite fmap_app.
  - intros r0 g0 g0' Hg0 Hg0' Hchange. unfold join_room in Hg0'.
    destruct (rooms_get room (gameRooms s)) as [r1|] eqn:Hr; csimpl in Hg0';
      [|congruence].
    destruct (heap s !! r1) as [g1|] eqn:Hg1; csimpl in Hg0'; [|congruence].
    destruct (findPlayer sock (players g1)) as [p|] eqn:Hf; csimpl in Hg0';
      [congruence|].
    case_decide as Hfull; csimpl in Hg0'; [congruence|].
    case_decide as Hst; csimpl in Hg0'; [congruence|].
    assert (Hw : status g1 = waiting) by (destruct (status g1); done).
    assert (Hlt : r1 < length (heap s)) by by eapply lookup_lt_Some.
    set (g2 := with_players _ g1) in *.
    case_decide as Hmax.
    2:{ csimpl in Hg0'. destruct (decide (r0 = r1)) as [->|Hne].
        - rewrite list_lookup_insert_eq in Hg0' by done.
          injection Hg0' as <-. assert (g0 = g1) as -> by congruence. done.
        - rewrite list_lookup_insert_ne in Hg0' by done. congruence. }
    set (s1 := setState r1 (with_status playing g2) (setState r1 g2 s)) in *.
    assert (Hgs1 : heap s1 !! r1 = Some (with_status playing g2)).
    { apply setState_lookup. csimpl. by rewrite length_insert. }
    destruct (startAllTimers_timeless room r1 s1 _ Hgs1) as (Ht & g3 & Hg3 & Htl).
    rewrite Hg3 in Hg0'. csimpl in Hg0'.
    destruct (decide (r0 = r1)) as [->|Hne].
    + assert (g0' = g3) as -> by congruence. assert (g0 = g1) as -> by congruence.
      split_and!; [done..| |done|].
      * by rewrite (timeless_status _ _ Htl).
      * unfold g2 in Hmax. csimpl in Hmax. by rewrite length_app in Hmax.
    + rewrite (touches_heap _ _ _ Ht) in Hg0' by done. unfold s1 in Hg0'.
      csimpl in Hg0'. rewrite !list_lookup_insert_ne in Hg0' by done. congruence.
Qed.

(** The second player joins a two-player room with a 30 second limit. *)
Lemma join_room_starts_game_sample :
  let s := run (H := sampleEnv)
             [CreateRoom "A" "Ayse" (Some (Qc_of_Z 2)) (Some 5%Z) (tl_number 30)
                          "ROOM01" 0 1000%Z]
             initialServer in
  reachable (H := sampleEnv) s
  ∧ ∃ r g,
      rooms_get "ROOM01" (gameRooms s) = Some r ∧ heap s !! r = Some g
      ∧ status g = waiting ∧ findPlayer "B" (players g) = None
      ∧ Qc_of_nat (length (players g) + 1) = maxPlayers g
      ∧ ∃ s' out g',
          join_room "B" "ROOM01" "Berk" s = Done s' out
          ∧ heap s' !! r = Some g'
          ∧ (status g' = playing
             ↔ Qc_of_nat (length (players g) + 1) = maxPlayers g)
          ∧ (status g' = playing →
             id <$> players g' = (id <$> players g) ++ ["B"]
             ∧ ∀ p, p ∈ players g' →
                    match timeLimit g' with
                    | Some _ => timerRef s' "ROOM01" (id p) = Some r
                    | None => timeRemaining p = (-1)%Z
                    end).
Proof.
  intros s.
  assert (Hreach : reachable (H := sampleEnv) s)
    by (apply reachable_run; constructor).
  split; [exact Hreach|].
  assert (Hr : rooms_get "ROOM01" (gameRooms s) = Some 0) by (vm_compute; reflexivity).
  destruct (heap s !! 0) as [g|] eqn:Hg; [|by vm_compute in Hg].
  assert (Hfacts : status g = waiting ∧ findPlayer "B" (players g) = None
                   ∧ Qc_of_nat (length (players g) + 1) = maxPlayers g).
  { vm_compute in Hg. injection Hg as <-. by split_and!. }
  destruct Hfacts as (Hw & Hf & Hmax).
  exists 0, g. split_and!; [exact Hr|exact Hg|exact Hw|exact Hf|exact Hmax|].
  exact (proj1 (@join_room_starts_game sampleEnv s "B" "ROOM01" "Berk" 0 g Hreach)
           Hr Hg Hw Hf).
Defined.


(** ** Timeouts and the end of a game *)

Lemma filter_length_all {A} (P : A → Prop) `{∀ x, Decision (P x)} (l : list A) :
  length (filter P l) = length l ↔ Forall P l.
Proof.
  induction l as [|x l IH]; [done|].
  destruct (decide (P x)) as [Hx|Hx].
  - rewrite filter_cons_True by done. csimpl. rewrite Forall_cons.
    split; [intros [= Hl]; split; [done|by apply IH]|].
    intros [_ Hl]. f_equal. by apply IH.
  - rewrite filter_cons_False by done. csimpl. rewrite Forall_cons.
    pose proof (length_filter P l). split; [lia|tauto].
Qed.

Lemma find_noWinner g : noWinner g → List.find lastGuessWins (players g) = None.
Proof.
  unfold noWinner. induction (players g) as [|p ps IH]; [done|].
  intros [Hp Hps]%Forall_cons. csimpl. rewrite Hp. by apply IH.
Qed.

Lemma checkGameEnd_draw g :
  noWinner g → allTimedOut g → checkGameEnd g = {| isEnd := true; winnerId := None |}.
Proof.
  intros Hn Ht. unfold checkGameEnd. rewrite find_noWinner by done.
  rewrite decide_True; [done|]. by apply filter_length_all.
Qed.

Lemma checkGameEnd_goes_on g :
  noWinner g → ¬ allTimedOut g → Exists canAct (players g) →
  checkGameEnd g = {| isEnd := false; winnerId := None |}.
Proof.
  intros Hn Ht Hact. unfold checkGameEnd. rewrite find_noWinner by done.
  rewrite decide_False by (by rewrite filter_length_all).
  assert (Hf : forallb (λ p, bool_decide (6 ≤ length (guesses p)) || isTimedOut p)
                 (players g) = false); [|by rewrite Hf].
  apply not_true_is_false. intros Hall.
  apply Exists_exists in Hact as (p & Hp & Hlen & Hto).
  rewrite forallb_forall in Hall. apply list_elem_of_In in Hp.
  specialize (Hall p Hp). rewrite Hto, orb_false_r in Hall.
  apply bool_decide_eq_true in Hall. lia.
Qed.

Lemma findPlayer_updatePlayer playerId f ps :
  (∀ p, id (f p) = id p) →
  findPlayer playerId (updatePlayer playerId f ps) = f <$> findPlayer playerId ps.
Proof.
  intros Hf. unfold findPlayer. induction ps as [|p ps IH]; [done|]. csimpl.
  case_bool_decide as Hid; csimpl.
  - rewrite bool_decide_eq_true_2 by (by rewrite Hf). done.
  - rewrite bool_decide_eq_false_2 by done. done.
Qed.

Lemma handlePlayerTimeout_found room playerId r s g p :
  heap s !! r = Some g → findPlayer playerId (players g) = Some p →
  let g1 := with_players
              (updatePlayer playerId (with_isTimedOut true) (players g)) g in
  handlePlayerTimeout room playerId r s
  = if isEnd (checkGameEnd g1)
    then (set_cleanups (cleanups s ++ [room])
            (clearAllRoomTimers room (setState r (with_status finished g1) s)),
          [timeoutNotice playerId;
           gameOverEmit room (checkGameEnd g1) (with_status finished g1)])
    else (setState r g1 s,
          [timeoutNotice playerId; stateEmit (ToRoom room) update_state g1]).
Proof.
  intros Hg Hf g1. unfold handlePlayerTimeout. rewrite Hg, Hf. fold g1.
  by destruct (isEnd (checkGameEnd g1)).
Qed.

Lemma timerTick_expires room playerId r s g p :
  timerRef s room playerId = Some r → heap s !! r = Some g →
  findPlayer playerId (players g) = Some p → (timeRemaining p ≤ 1)%Z →
  let g1 := with_players
              (updatePlayer playerId (with_timeRemaining (timeRemaining p - 1))
                            (players g)) g in
  let later := handlePlayerTimeout room playerId r
                 (clearPlayerTimer room playerId (setState r g1 s)) in
  timerTick room playerId s
  = (later.1,
     {| target := ToRoom playerId; event := timer_update;
        payload := JObj [("playerId", JStr playerId);
                         ("timeRemaining", JInt (timeRemaining p - 1))] |}
     :: later.2).
Proof.
  intros Ht Hg Hf Hlow g1 later. unfold timerTick. rewrite Ht, Hg, Hf.
  rewrite decide_True by lia. fold g1. fold later. by destruct later.
Qed.

(** C2. In a reachable state, for a game that is [playing]: the game-end
    check reports an end without winner when every player is timed out, and
    no end when the timed-out players are not all of them and some player can
    still act. Accordingly, when a player's clock runs out: if every player
    is then timed out the game becomes [finished] and [game_over] is emitted
    with no winner; if not, and some player can still act, the game stays
    [playing] and no [game_over] is emitted. *)
Theorem timeout_ends_game_only_for_all `{Env} (s : Server) (room playerId : string)
    (r : nat) (g : GameState) (p : PlayerState) :
  reachable s → heap s !! r = Some g → status g = playing →
  (allTimedOut g → checkGameEnd g = {| isEnd := true; winnerId := None |})
  ∧ (¬ allTimedOut g → Exists canAct (players g) →
     checkGameEnd g = {| isEnd := false; winnerId := None |})
  ∧ (timerRef s room playerId = Some r →
     findPlayer playerId (players g) = Some p → (timeRemaining p ≤ 1)%Z →
     ∃ g', heap (timerTick room playerId s).1 !! r = Some g'
       ∧ (allTimedOut g' →
          status g' = finished
          ∧ gameOverEmit room {| isEnd := true; winnerId := None |} g'
            ∈ (timerTick room playerId s).2)
       ∧ (¬ allTimedOut g' → Exists canAct (players g') →
          status g' = playing
          ∧ ∀ e, e ∈ (timerTick room playerId s).2 → event e ≠ game_over)).
Proof.
  intros Hreach Hg Hst.
  destruct (inv_states s (reachable_Inv s Hreach) r g Hg) as [_ Hnw].
  specialize (Hnw Hst). split_and!.
  - by apply checkGameEnd_draw.
  - by apply checkGameEnd_goes_on.
  - intros Ht Hf Hlow.
    rewrite (timerTick_expires room playerId r s g p) by done. csimpl.
    set (g1 := with_players _ g).
    assert (Hlt : r < length (heap s)) by by eapply lookup_lt_Some.
    set (s1 := clearPlayerTimer room playerId (setState r g1 s)).
    assert (Hlen1 : length (heap s1) = length (heap s)).
    { unfold s1, clearPlayerTimer. repeat case_match; csimpl; by rewrite length_insert. }
    assert (Hg1 : heap s1 !! r = Some g1).
    { unfold s1, clearPlayerTimer. repeat case_match; by apply setState_lookup. }
    assert (Hnw1 : noWinner g1).
    { eapply noWinner_timeless; [|exact Hnw]. symmetry. apply timeless_update. }
    assert (Hf1 : findPlayer playerId (players g1)
                  = Some (with_timeRemaining (timeRemaining p - 1) p)).
    { unfold g1. csimpl. by rewrite findPlayer_updatePlayer, Hf. }
    rewrite (handlePlayerTimeout_found room playerId r s1 g1 _ Hg1 Hf1).
    set (g2 := with_players (updatePlayer playerId (with_isTimedOut true) (players g1)) g1).
    assert (Hnw2 : noWinner g2) by by apply noWinner_timedOut.
    destruct (isEnd (checkGameEnd g2)) eqn:Hend; csimpl.
    + exists (with_status finished g2). split.
      { apply list_lookup_insert_eq. by rewrite Hlen1. }
      split.
      * intros Hall. split; [done|].
        rewrite (checkGameEnd_draw g2 Hnw2 Hall). right. right. left.
      * intros Hnot Hact. rewrite (checkGameEnd_goes_on g2 Hnw2 Hnot Hact) in Hend.
        done.
    + exists g2. split.
      { apply list_lookup_insert_eq. by rewrite Hlen1. }
      split.
      * intros Hall. by rewrite (checkGameEnd_draw g2 Hnw2 Hall) in Hend.
      * intros _ _. split; [done|].
        intros e [->|[->|[->|[]%elem_of_nil]%elem_of_cons]%elem_of_cons]%elem_of_cons;
          done.
Qed.

Lemma timeout_ends_game_only_for_all_sample :
  let s := run (H := sampleEnv) lastSecond initialServer in
  reachable (H := sampleEnv) s
  ∧ ∃ r g p,
      heap s !! r = Some g ∧ status g = playing
      ∧ timerRef s "ROOM01" "A" = Some r
      ∧ findPlayer "A" (players g) = Some p ∧ (timeRemaining p ≤ 1)%Z
      ∧ ∃ g', heap (timerTick "ROOM01" "A" s).1 !! r = Some g'
          ∧ (allTimedOut g' →
             status g' = finished
             ∧ gameOverEmit "ROOM01" {| isEnd := true; winnerId := None |} g'
               ∈ (timerTick "ROOM01" "A" s).2)
          ∧ (¬ allTimedOut g' → Exists canAct (players g') →
             status g' = playing
             ∧ ∀ e, e ∈ (timerTick "ROOM01" "A" s).2 → event e ≠ game_over).
Proof.
  intros s.
  assert (Hreach : reachable (H := sampleEnv) s)
    by (apply reachable_run; constructor).
  split; [exact Hreach|].
  assert (Ht : timerRef s "ROOM01" "A" = Some 0) by (vm_compute; reflexivity).
  destruct (heap s !! 0) as [g|] eqn:Hg; [|by vm_compute in Hg].
  destruct (findPlayer "A" (players g)) as [p|] eqn:Hf.
  2:{ vm_compute in Hg. injection Hg as <-. by vm_compute in Hf. }
  assert (Hst : status g = playing) by (vm_compute in Hg; by injection Hg as <-).
  assert (Hlow : (timeRemaining p ≤ 1)%Z).
  { vm_compute in Hg. injection Hg as <-. vm_compute in Hf. by injection Hf as <-. }
  exists 0, g, p. split_and!; [exact Hg|exact Hst|exact Ht|exact Hf|exact Hlow|].
  exact (proj2 (proj2 (@timeout_ends_game_only_for_all sampleEnv s "ROOM01" "A" 0 g p
                         Hreach Hg Hst)) Ht Hf Hlow).
Defined.

(** In that state A's last tick ends the game with no winner; had B still
    been in play, the same tick would have left the game running. *)
Example last_timeout_is_a_draw :
  let s := run (H := sampleEnv) lastSecond initialServer in
  status <$> heap (timerTick "ROOM01" "A" s).1 !! 0 = Some finished
  ∧ (event <$> (timerTick "ROOM01" "A" s).2) = [timer_update; player_timeout; game_over]
  ∧ (λ e, getField "winnerId" match payload e with JObj f => f | _ => [] end)
      <$> last (timerTick "ROOM01" "A" s).2 = Some (Some JNull).
Proof. vm_compute. by split_and!. Qed.

Example first_timeout_keeps_playing :
  let s := run (H := sampleEnv)
             ([CreateRoom "A" "Ayse" (Some (Qc_of_Z 2)) (Some 5%Z) (tl_number 30)
                          "ROOM01" 0 1000%Z;
               JoinRoom "B" "ROOM01" "Berk"]
              ++ replicate 29 (TimerTick "ROOM01" "B")) initialServer in
  status <$> heap (timerTick "ROOM01" "B" s).1 !! 0 = Some playing
  ∧ (event <$> (timerTick "ROOM01" "B" s).2)
    = [timer_update; player_timeout; update_state].
Proof. vm_compute. by split_and!. Qed.

(** ** The labels of the guess evaluator *)

Lemma arr_get_fmap_Some {A} (l : list A) i : arr_get (Some <$> l) i = l !! i.
Proof. unfold arr_get. rewrite list_lookup_fmap. by destruct (l !! i). Qed.

Lemma arr_get_nil {A} i : arr_get (@nil (option A)) i = None.
Proof. done. Qed.

(** Counting the positions below [m] or below [n] that satisfy a predicate
    gives the same number when the predicate holds at the same positions. *)
Lemma filter_seq_length (P Q : nat → Prop) `{∀ j, Decision (P j)} `{∀ j, Decision (Q j)}
    (m n : nat) :
  (∀ j, j < m ∧ P j ↔ j < n ∧ Q j) →
  length (filter P (seq 0 m)) = length (filter Q (seq 0 n)).
Proof.
  intros HPQ. apply Permutation_length, NoDup_Permutation.
  - apply NoDup_filter, NoDup_seq.
  - apply NoDup_filter, NoDup_seq.
  - intros j. rewrite !list_elem_of_filter, !elem_of_seq.
    specialize (HPQ j). naive_solver lia.
Qed.

Lemma filter_seq_le (P Q : nat → Prop) `{∀ j, Decision (P j)} `{∀ j, Decision (Q j)}
    (m n : nat) :
  (∀ j, j < m → P j → j < n ∧ Q j) →
  length (filter P (seq 0 m)) ≤ length (filter Q (seq 0 n)).
Proof.
  intros HPQ. apply submseteq_length, NoDup_submseteq.
  - apply NoDup_filter, NoDup_seq.
  - intros j. rewrite !list_elem_of_filter, !elem_of_seq.
    specialize (HPQ j). naive_solver lia.
Qed.

(** The occurrences of [c] among the first [n] letters of [g]. *)
Lemma count_take (c : char) (g : jsstring) n :
  length (filter (λ x, x = c) (take n g))
  = length (filter (λ j, g !! j = Some c) (seq 0 n)).
Proof.
  induction n as [|n IH]; [done|].
  rewrite seq_S, filter_app, length_app, <- IH, Nat.add_0_l.
  rewrite filter_singleton_length.
  destruct (g !! n) as [x|] eqn:E.
  - rewrite (take_S_r _ _ _ E), filter_app, length_app, filter_singleton_length.
    repeat case_decide; naive_solver.
  - rewrite !take_ge by (apply lookup_ge_None in E; lia).
    rewrite decide_False by done. lia.
Qed.

Lemma occurrences_zero c a : indexOf a (Some c) = None → occurrences c a = 0.
Proof.
  unfold indexOf, occurrences. intros Hf.
  destruct (list_find (λ y, y = Some c) a) eqn:E; [done|].
  apply list_find_None in E.
  induction E as [|y a Hy _ IH]; [done|].
  rewrite filter_cons_False by done. exact IH.
Qed.

Lemma allCorrect_spec (fb : jsarray Label) :
  allCorrect fb = true ↔ ∀ i l, arr_get fb i = Some l → l = correct.
Proof.
  unfold allCorrect. induction fb as [|o fb IH]; simpl.
  - split; [|done]. intros _ i l. by rewrite arr_get_nil.
  - rewrite andb_true_iff, IH. split.
    + intros [Ho Hfb] [|i] l; [|apply Hfb].
      unfold arr_get. simpl. intros ->. by apply bool_decide_eq_true in Ho.
    + intros Hall. split.
      * destruct o as [l|]; [|done]. apply bool_decide_eq_true. by apply (Hall 0).
      * intros i l. apply (Hall (S i)).
Qed.

Section Labels.
Variables (g sol0 : jsstring).

Lemma pass1_step_sol_other st i j :
i ≠ j → arr_get (pass1_step g st i).2 j = arr_get st.2 j.
Proof.
intros Hij. destruct st as [fb sol]. unfold pass1_step.
case_decide; [|done]. simpl. by rewrite arr_get_set_ne.
Qed.

Lemma pass1_sol_other l st j :
j ∉ l → arr_get (foldl (pass1_step g) st l).2 j = arr_get st.2 j.
Proof.
intros Hj.
apply (foldl_invariant (λ s, arr_get s.2 j = arr_get st.2 j)); [done|].
intros s i Hi <-. apply pass1_step_sol_other. by intros ->.
Qed.

(** The first loop labels a position [correct] exactly when the two arrays
  hold the same value there (two [undefined] included), and leaves a hole
  otherwise. *)
Lemma pass1_label n i :
i < n →
arr_get (foldl (pass1_step g) ([], Some <$> sol0) (seq 0 n)).1 i
= if decide (g !! i = sol0 !! i) then Some correct else None.
Proof.
intros Hi. rewrite (seq_split i n Hi), foldl_app. simpl.
rewrite pass1_other by (rewrite elem_of_seq; lia).
pose proof (pass1_other g (seq 0 i) ([], Some <$> sol0) i) as Hfb.
pose proof (pass1_sol_other (seq 0 i) ([], Some <$> sol0) i) as Hsol.
destruct (foldl (pass1_step g) ([], Some <$> sol0) (seq 0 i)) as [fb sol].
simpl in Hfb, Hsol.
rewrite arr_get_nil in Hfb by done. rewrite arr_get_fmap_Some in Hsol.
specialize (Hfb ltac:(rewrite elem_of_seq; lia)).
specialize (Hsol ltac:(rewrite elem_of_seq; lia)).
unfold pass1_step. rewrite Hsol.
case_decide; simpl; [by rewrite arr_get_set_eq|done].
Qed.

(** The first loop writes no label other than [correct]. *)
Lemma pass1_only_correct l st :
(∀ j x, arr_get st.1 j = Some x → x = correct) →
∀ j x, arr_get (foldl (pass1_step g) st l).1 j = Some x → x = correct.
Proof.
intros Hst.
apply (foldl_invariant (λ s, ∀ j x, arr_get s.1 j = Some x → x = correct)); [done|].
intros [fb sol] i _ IH j x. unfold pass1_step.
case_decide; [|apply IH]. simpl. rewrite arr_get_set.
case_decide; [congruence|apply IH].
Qed.

(** The second loop neither adds nor removes a [correct]. *)
Lemma pass2_step_correct st i j :
arr_get (pass2_step g st i).1 j = Some correct ↔ arr_get st.1 j = Some correct.
Proof.
destruct st as [fb sol]. unfold pass2_step.
destruct (arr_get fb i) eqn:E; [done|].
destruct (indexOf sol (g !! i)); simpl; rewrite arr_get_set;
  case_decide; subst; rewrite ?E; naive_solver.
Qed.

Lemma pass2_correct l st j :
arr_get (foldl (pass2_step g) st l).1 j = Some correct ↔ arr_get st.1 j = Some correct.
Proof.
revert st. induction l as [|i l IH]; intros st; [done|].
simpl. rewrite IH. apply pass2_step_correct.
Qed.

Lemma evaluateArrays_correct n i :
arr_get (evaluateArrays g sol0 n) i = Some correct ↔ i < n ∧ g !! i = sol0 !! i.
Proof.
split.
- intros Hc.
  assert (i < n) as Hi.
  { rewrite <- (evaluateArrays_length g sol0 n). apply arr_get_lt. by eexists. }
  split; [done|]. unfold evaluateArrays in Hc. simpl in Hc.
  rewrite pass2_correct, pass1_label in Hc by done.
  by case_decide.
- intros [Hi Heq]. unfold evaluateArrays. simpl.
  rewrite pass2_correct, pass1_label by done. by rewrite decide_True.
Qed.

Lemma evaluateArrays_allCorrect n :
allCorrect (evaluateArrays g sol0 n) = true ↔ ∀ i, i < n → g !! i = sol0 !! i.
Proof.
rewrite allCorrect_spec. split.
- intros Hall i Hi.
  destruct (evaluateArrays_labels g sol0 n i Hi) as [l Hl].
  rewrite (Hall i l Hl) in Hl. by apply evaluateArrays_correct in Hl as [_ ?].
- intros Heq i l Hl.
  assert (i < n) as Hi.
  { rewrite <- (evaluateArrays_length g sol0 n). apply arr_get_lt. by eexists. }
  pose proof (proj2 (evaluateArrays_correct n i) (conj Hi (Heq i Hi))). congruence.
Qed.

Lemma marked_from_set sol k : marked_from sol0 sol → marked_from sol0 (arr_set k STAR sol).
Proof.
intros Hm j d. rewrite arr_get_set. case_decide; [left; congruence|apply Hm].
Qed.

Lemma marked_from_initial : marked_from sol0 (Some <$> sol0).
Proof. intros k d. rewrite arr_get_fmap_Some. by right. Qed.

Lemma pass1_marked l st :
marked_from sol0 st.2 → marked_from sol0 (foldl (pass1_step g) st l).2.
Proof.
intros Hst. apply (foldl_invariant (λ s, marked_from sol0 s.2)); [done|].
intros [fb sol] i _ Hm. unfold pass1_step.
case_decide; [|done]. by apply marked_from_set.
Qed.

Lemma pass2_present_found l st :
present_found g sol0 st → present_found g sol0 (foldl (pass2_step g) st l).
Proof.
intros Hst. apply (foldl_invariant (present_found g sol0)); [done|].
intros [fb sol] i _ [Hm Hp]. unfold pass2_step.
destruct (arr_get fb i) eqn:E; [by split|].
destruct (indexOf sol (g !! i)) as [k|] eqn:Hk; simpl.
- split; [by apply marked_from_set|]. simpl.
  intros j. rewrite arr_get_set. case_decide as Hij; [|apply Hp].
  subst j. intros _.
  apply indexOf_Some in Hk as (d & Hd & Hsol). exists d. split; [done|].
  destruct (Hm k d Hsol) as [->|Hin]; [by right|].
  left. by eapply list_elem_of_lookup_2.
- split; [done|]. simpl. intros j. rewrite arr_get_set.
  case_decide; [done|apply Hp].
Qed.

Lemma evaluateArrays_present n i :
arr_get (evaluateArrays g sol0 n) i = Some present →
∃ c, g !! i = Some c ∧ g !! i ≠ sol0 !! i ∧ (c ∈ sol0 ∨ c = STAR).
Proof.
intros Hp.
assert (g !! i ≠ sol0 !! i) as Hne.
{ intros Heq.
  assert (i < n) as Hi.
  { rewrite <- (evaluateArrays_length g sol0 n). apply arr_get_lt. by eexists. }
  pose proof (proj2 (evaluateArrays_correct n i) (conj Hi Heq)). congruence. }
unfold evaluateArrays in Hp. simpl in Hp.
eapply pass2_present_found in Hp as (c & Hc & Hin); [by exists c| ].
split.
- apply pass1_marked, marked_from_initial.
- intros j Hj. eapply pass1_only_correct in Hj; [done|].
  intros j' x. simpl. by rewrite arr_get_nil.
Qed.

Lemma evaluateArrays_not_in_solution n i c :
i < n → g !! i = Some c → c ≠ STAR → c ∉ sol0 →
arr_get (evaluateArrays g sol0 n) i = Some absent.
Proof.
intros Hi Hg Hstar Hnot.
destruct (evaluateArrays_labels g sol0 n i Hi) as [l Hl].
destruct l; [| |done].
- apply evaluateArrays_correct in Hl as [_ Heq]. rewrite Hg in Heq.
  exfalso. apply Hnot. by eapply list_elem_of_lookup_2.
- apply evaluateArrays_present in Hl as (d & Hd & _ & Hin).
  rewrite Hg in Hd. naive_solver.
Qed.

(** *** The number of hits of a letter *)

Variable c : char.
Hypothesis c_not_star : c ≠ STAR.

Lemma pass2_absent_exhausted l st :
absent_exhausted c g st → absent_exhausted c g (foldl (pass2_step g) st l).
Proof using c_not_star.
intros Hst. apply (foldl_invariant (absent_exhausted c g)); [done|].
intros [fb sol] i _ IH. unfold pass2_step.
destruct (arr_get fb i) eqn:E; [done|].
destruct (indexOf sol (g !! i)) as [k|] eqn:Hk; simpl.
- intros j Hj. simpl. rewrite arr_get_set. case_decide; [done|]. intros Ha.
  pose proof (IH j Hj Ha) as H0. simpl in H0.
  pose proof (occurrences_set c sol k STAR (not_eq_sym c_not_star)). lia.
- intros j Hj. simpl. rewrite arr_get_set. case_decide as Hij; [|apply IH; done].
  subst j. intros _. rewrite Hj in Hk. by apply occurrences_zero.
Qed.

Lemma evaluateArrays_hits n m :
n ≤ m →
labeled c g (evaluateArrays g sol0 n) m
= (length (filter (λ x, x = c) (take n g)))
  `min` (length (filter (λ x, x = c) sol0)).
Proof using c_not_star.
intros Hnm.
pose proof (evaluateArrays_labeled c g sol0 n m c_not_star) as Hle.
assert (labeled c g (evaluateArrays g sol0 n) m
        ≤ length (filter (λ x, x = c) (take n g))) as Hle'.
{ rewrite count_take. unfold labeled. apply filter_seq_le.
  intros j _ [Hg Hh]. split; [|done].
  rewrite <- (evaluateArrays_length g sol0 n). apply arr_get_lt.
  destruct (arr_get (evaluateArrays g sol0 n) j); [by eexists|done]. }
destruct (decide (Exists (λ j, g !! j = Some c
    ∧ arr_get (evaluateArrays g sol0 n) j = Some absent) (seq 0 n)))
  as [Hex|Hall].
- (* some [c] was refused: the solution's are all consumed *)
  apply Exists_exists in Hex as (j & _ & Hg & Ha).
  assert (Hin : ∀ i, i ∈ seq 0 n → i < m).
  { intros i Hi. apply elem_of_seq in Hi. lia. }
  pose proof (pass2_balance c g m c_not_star (seq 0 n)
    (foldl (pass1_step g) ([], Some <$> sol0) (seq 0 n)) Hin) as H2.
  rewrite (pass1_balance c g m c_not_star) in H2; [|apply NoDup_seq|done|done].
  unfold balance in H2. simpl in H2.
  rewrite labeled_nil, occurrences_fmap_Some in H2.
  assert (occurrences c
    (foldl (pass2_step g) (foldl (pass1_step g) ([], Some <$> sol0) (seq 0 n))
           (seq 0 n)).2 = 0) as H0.
  { apply (pass2_absent_exhausted (seq 0 n)
             (foldl (pass1_step g) ([], Some <$> sol0) (seq 0 n))) with (j := j);
      [|done|done].
    intros j' _ Hj'. eapply pass1_only_correct in Hj'; [done|].
    intros j'' x. simpl. by rewrite arr_get_nil. }
  unfold evaluateArrays in *. simpl in *. lia.
- (* every [c] of the guess is a hit *)
  assert (labeled c g (evaluateArrays g sol0 n) m
          = length (filter (λ x, x = c) (take n g))) as Heq; [|lia].
  rewrite count_take. unfold labeled. apply filter_seq_length.
  intros j. split.
  + intros [_ [Hg Hh]]. split; [|done].
    rewrite <- (evaluateArrays_length g sol0 n). apply arr_get_lt.
    destruct (arr_get (evaluateArrays g sol0 n) j); [by eexists|done].
  + intros [Hj Hg]. split; [lia|]. split; [done|].
    destruct (evaluateArrays_labels g sol0 n j Hj) as [l Hl].
    rewrite Hl. destruct l; [done|done|].
    exfalso. apply Hall. apply Exists_exists. exists j.
    rewrite elem_of_seq. split; [lia|done].
Qed.
End Labels.

Lemma labeled_beyond c g fb m m' :
  length g ≤ m → length g ≤ m' → labeled c g fb m = labeled c g fb m'.
Proof.
  intros Hm Hm'. unfold labeled. apply filter_seq_length. intros j.
  split; intros [_ [Hg Hh]]; (split; [|done]);
    apply lookup_lt_Some in Hg; lia.
Qed.

Section EvaluatorLabels.
Context `{Env}.

(** X1. [evaluateGuess] labels a position [correct] exactly when it is a
  position of the solution at which the normalised guess and the
  normalised solution hold the same letter. *)
Theorem evaluateGuess_correct_positions (guess solution : jsstring) (i : nat) :
arr_get (evaluateGuess guess solution) i = Some correct
↔ i < length solution ∧ normalized guess !! i = normalized solution !! i.
Proof. apply evaluateArrays_correct. Qed.

(** X2. The feedback of [evaluateGuess] is all [correct], as [make_guess]
  and [checkGameEnd] test it, exactly when the normalised guess agrees
  with the normalised solution at every position of the solution; the
  solution itself is such a guess. *)
Theorem evaluateGuess_all_correct (guess solution : jsstring) :
(allCorrect (evaluateGuess guess solution) = true
 ↔ ∀ i, i < length solution → normalized guess !! i = normalized solution !! i)
∧ allCorrect (evaluateGuess solution solution) = true.
Proof.
split; [apply evaluateArrays_allCorrect|].
by apply evaluateArrays_allCorrect.
Qed.

(** X3. A position that [evaluateGuess] labels [present] holds a letter of
  the guess that the solution does not hold at that position and that
  occurs in the solution, or is the marker ['*']. *)
Theorem evaluateGuess_present_sound (guess solution : jsstring) (i : nat) :
arr_get (evaluateGuess guess solution) i = Some present →
∃ c, normalized guess !! i = Some c
     ∧ normalized solution !! i ≠ Some c
     ∧ (c ∈ normalized solution ∨ c = STAR).
Proof.
intros Hp. apply evaluateArrays_present in Hp as (c & Hc & Hne & Hin).
exists c. split_and!; [done| |done]. congruence.
Qed.

(** X4. A letter of the guess, other than ['*'], that does not occur in the
  solution is labelled [absent] at every position of the solution where
  the guess holds it. *)
Theorem evaluateGuess_foreign_letter (guess solution : jsstring) (i : nat) (c : char) :
i < length solution → normalized guess !! i = Some c →
c ≠ STAR → c ∉ normalized solution →
arr_get (evaluateGuess guess solution) i = Some absent.
Proof. apply evaluateArrays_not_in_solution. Qed.

(** X5. For every character [c] other than ['*'], the positions of the guess
  that hold [c] and are labelled [correct] or [present] are exactly as
  many as the smaller of two numbers: the occurrences of [c] among the
  letters of the guess that face a position of the solution, and the
  occurrences of [c] in the solution. *)
Theorem evaluateGuess_hit_count (guess solution : jsstring) (c : char) :
c ≠ STAR →
length (hitPositions c guess solution)
= (length (filter (λ x, x = c) (take (length solution) (normalized guess))))
  `min` (letterCount c solution).
Proof.
intros Hc. unfold hitPositions, letterCount, evaluateGuess.
change (length (filter _ (seq 0 (length (normalized guess)))))
  with (labeled c (normalized guess)
          (evaluateArrays (normalized guess) (normalized solution) (length solution))
          (length (normalized guess))).
rewrite (labeled_beyond c _ _ _ (length (normalized guess) `max` length solution))
  by lia.
apply evaluateArrays_hits; [done|lia].
Qed.
End EvaluatorLabels.

(** Solution "llama", guess "alley": the a at position 0 is [present]. *)
Lemma evaluateGuess_present_sound_alley :
  arr_get (evaluateGuess (H := sampleEnv) (word "alley") (word "llama")) 0
  = Some present
  ∧ ∃ c, normalized (H := sampleEnv) (word "alley") !! 0 = Some c
         ∧ normalized (H := sampleEnv) (word "llama") !! 0 ≠ Some c
         ∧ (c ∈ normalized (H := sampleEnv) (word "llama") ∨ c = STAR).
Proof.
  split; [reflexivity|].
  apply (@evaluateGuess_present_sound sampleEnv (word "alley") (word "llama") 0).
  reflexivity.
Defined.

(** Solution "llama", guess "alley": the e at position 3 is [absent]. *)
Lemma evaluateGuess_foreign_letter_alley :
  3 < length (word "llama")
  ∧ normalized (H := sampleEnv) (word "alley") !! 3 = Some 101%N
  ∧ 101%N ≠ STAR
  ∧ (101%N ∉ normalized (H := sampleEnv) (word "llama"))
  ∧ arr_get (evaluateGuess (H := sampleEnv) (word "alley") (word "llama")) 3
    = Some absent.
Proof.
  assert (Hnot : 101%N ∉ normalized (H := sampleEnv) (word "llama")).
  { apply (bool_decide_unpack _). by vm_compute. }
  assert (Hi : 3 < length (word "llama")) by (vm_compute; lia).
  split_and!; [exact Hi|reflexivity|discriminate|exact Hnot|].
  apply (@evaluateGuess_foreign_letter sampleEnv (word "alley") (word "llama") 3 101%N);
    [exact Hi|reflexivity|discriminate|exact Hnot].
Defined.

(** Solution "llama", guess "lllll": five l in the guess, two in the
    solution, two hits. *)
Lemma evaluateGuess_hit_count_lllll :
  108%N ≠ STAR
  ∧ length (hitPositions (H := sampleEnv) 108%N (word "lllll") (word "llama")) = 2
  ∧ length (hitPositions (H := sampleEnv) 108%N (word "lllll") (word "llama"))
    = (length (filter (λ x, x = 108%N)
                 (take (length (word "llama"))
                       (normalized (H := sampleEnv) (word "lllll")))))
      `min` (letterCount (H := sampleEnv) 108%N (word "llama")).
Proof.
  split; [discriminate|]. split; [reflexivity|].
  apply (@evaluateGuess_hit_count sampleEnv (word "lllll") (word "llama") 108%N).
  discriminate.
Defined.
(** ** Accents, the word repository and the end-of-game check *)

Lemma accentMap_image c : accentMap (default c (accentMap c)) = None.
Proof.
  unfold accentMap. repeat case_decide; simpl; try done;
    repeat (rewrite decide_False by (intros [?|?]; lia || done)); try done;
    repeat case_decide; try done; exfalso; naive_solver lia.
Qed.

Lemma normalizeAccentedChars_length t :
  length (normalizeAccentedChars t) = length t.
Proof. unfold normalizeAccentedChars. by rewrite length_fmap. Qed.

Lemma normalizeAccentedChars_twice t :
  normalizeAccentedChars (normalizeAccentedChars t) = normalizeAccentedChars t.
Proof.
  unfold normalizeAccentedChars. rewrite <- list_fmap_compose.
  apply list_fmap_ext. intros _ c _. simpl. by rewrite accentMap_image.
Qed.

Lemma normalized_accents `{Env} w : normalized (normalizeAccentedChars w) = normalized w.
Proof. unfold normalized. by rewrite normalizeAccentedChars_twice. Qed.

(** X6. [normalizeAccentedChars] keeps the length of the text, leaves no
    letter with a circumflex, changes nothing in a text that has none, and
    applying it twice is applying it once. *)
Theorem normalizeAccentedChars_idempotent (text : jsstring) :
  normalizeAccentedChars (normalizeAccentedChars text) = normalizeAccentedChars text
  ∧ length (normalizeAccentedChars text) = length text
  ∧ Forall (λ c, accentMap c = None) (normalizeAccentedChars text)
  ∧ (Forall (λ c, accentMap c = None) text ↔ normalizeAccentedChars text = text).
Proof.
  split_and!.
  - apply normalizeAccentedChars_twice.
  - apply normalizeAccentedChars_length.
  - unfold normalizeAccentedChars. apply Forall_fmap, Forall_forall.
    intros c _. apply accentMap_image.
  - unfold normalizeAccentedChars. split.
    + intros Hall. induction Hall as [|c t Hc _ IH]; [done|].
      csimpl. by rewrite Hc, IH.
    + induction text as [|c t IH]; [done|]. csimpl. intros [= Hc Ht].
      constructor; [|by apply IH].
      rewrite <- Hc. apply accentMap_image.
Qed.

(** X7. Validity and feedback do not see circumflexes: writing a word with
    or without them gives the same answer of [isValidWord], and the same
    feedback whether it is the guess or the solution that is rewritten. *)
Theorem accents_are_ignored `{Env} (guess solution : jsstring) :
  isValidWord (normalizeAccentedChars guess) = isValidWord guess
  ∧ evaluateGuess (normalizeAccentedChars guess) solution = evaluateGuess guess solution
  ∧ evaluateGuess guess (normalizeAccentedChars solution) = evaluateGuess guess solution.
Proof.
  unfold isValidWord, evaluateGuess.
  by rewrite !normalized_accents, !normalizeAccentedChars_length.
Qed.

Lemma isValidWord_listed `{Env} (w : jsstring) (words : list jsstring) :
  WORD_LISTS (Z.of_nat (length w)) = Some words → w ∈ words → isValidWord w = true.
Proof.
  intros Hl Hin. unfold isValidWord. rewrite Hl.
  apply bool_decide_eq_true, Exists_exists. by exists w.
Qed.

(** X8. The word lists holding words of their own length, a word drawn by
    [getRandomWord] for a length has that length and is a word that
    [isValidWord] accepts: the solution of a game can be guessed. *)
Theorem drawn_word_is_valid `{Env} (n : Z) (rnd : nat) (w : jsstring) :
  wordsSized → getRandomWord n rnd = Some w →
  Z.of_nat (length w) = n ∧ isValidWord w = true.
Proof.
  intros Hsized Hw.
  destruct (getRandomWord_Some n rnd w Hw) as (words & Hl & Hne).
  destruct (getRandomWord_listed n rnd words Hl Hne) as (w' & Hw' & Hin).
  assert (w' = w) as -> by congruence.
  pose proof (Hsized n words w Hl Hin) as Hlen.
  split; [done|]. apply (isValidWord_listed w words); [by rewrite Hlen|done].
Qed.

(** X9. [isValidWord] refuses every word whose length is not 5, 6 or 7, and
    a word that it accepts agrees, after normalisation, with a word of the
    list for its length. *)
Theorem isValidWord_only_listed `{Env} (word : jsstring) :
  isValidWord word = true →
  (length word = 5 ∨ length word = 6 ∨ length word = 7)
  ∧ ∃ words w, WORD_LISTS (Z.of_nat (length word)) = Some words
               ∧ w ∈ words ∧ normalized w = normalized word.
Proof.
  unfold isValidWord. destruct (WORD_LISTS _) as [words|] eqn:Hl; [|done].
  intros (w & Hin & Hw)%bool_decide_eq_true%Exists_exists. split.
  - unfold WORD_LISTS in Hl. repeat case_decide; try done; lia.
  - by exists words, w.
Qed.

(** ** Room creation without words *)

(** X10. [create_room] fails exactly when the list for the validated word
    length is empty; the error escapes before anything is written, so the
    server state is the one before the call. *)
Theorem create_room_throws `{Env} (sock playerName : string) (maxP : option Qc)
    (len : option Z) (limit : TimeLimitArg) (room : string) (rnd : nat) (now : Z)
    (s : Server) :
  (create_room sock playerName maxP len limit room rnd now s = Thrown s
   ↔ WORD_LISTS (validWordLength len) = Some [])
  ∧ ∀ s', create_room sock playerName maxP len limit room rnd now s = Thrown s' → s' = s.
Proof.
  unfold create_room, getRandomWord.
  assert (∃ words, WORD_LISTS (validWordLength len) = Some words) as [words Hl].
  { unfold WORD_LISTS.
    destruct (validWordLength_cases len) as [-> | [-> | ->] ]; simpl; eauto. }
  rewrite Hl. destruct words as [|w words].
  - rewrite decide_False by (csimpl; lia). split; [done|]. by intros s' [= <-].
  - rewrite decide_True by (csimpl; lia).
    destruct (lookup_lt_is_Some_2 (w :: words) (rnd `mod` length (w :: words)))
      as [w' Hw'].
    { apply Nat.mod_upper_bound. csimpl. lia. }
    rewrite Hw'. split; [split; done|done].
Qed.

(** ** The end-of-game check *)

Lemma find_Some_first {A} (f : A → bool) (l : list A) (x : A) :
  List.find f l = Some x → x ∈ l ∧ f x = true.
Proof.
  induction l as [|y l IH]; [done|]. csimpl.
  destruct (f y) eqn:E.
  - intros [= ->]. split; [left|done].
  - intros [? ?]%IH. split; [by right|done].
Qed.

Lemma find_None_all {A} (f : A → bool) (l : list A) :
  List.find f l = None ↔ Forall (λ x, f x = false) l.
Proof.
  induction l as [|y l IH]; [done|]. csimpl. rewrite Forall_cons.
  destruct (f y) eqn:E; [split; [done|by intros [? _] ]|].
  rewrite IH. tauto.
Qed.

Lemma forallb_canAct ps :
  forallb (λ p, bool_decide (6 ≤ length (guesses p)) || isTimedOut p) ps = false
  ↔ Exists canAct ps.
Proof.
  induction ps as [|p ps IH]; csimpl.
  - split; [done|]. by intros ?%Exists_nil.
  - rewrite Exists_cons, andb_false_iff, IH. unfold canAct.
    rewrite orb_false_iff, bool_decide_eq_false. naive_solver lia.
Qed.

(** Without a winning guess, the verdict only depends on who can still act. *)
Lemma checkGameEnd_noWinner g :
  noWinner g →
  winnerId (checkGameEnd g) = None
  ∧ (isEnd (checkGameEnd g) = false ↔ Exists canAct (players g)).
Proof.
  intros Hno. unfold checkGameEnd. rewrite find_noWinner by done.
  case_decide as Hall.
  - csimpl. split; [done|]. split; [done|]. intros Hex.
    apply filter_length_all in Hall.
    apply Exists_exists in Hex as (p & Hp & _ & Hto).
    rewrite Forall_forall in Hall. specialize (Hall p Hp). congruence.
  - destruct (forallb _ (players g)) eqn:Hf; csimpl.
    + split; [done|]. split; [done|]. intros Hex%forallb_canAct. congruence.
    + split; [done|]. split; [|done]. intros _. by apply forallb_canAct.
Qed.

(** X11. [checkGameEnd] reports that the game goes on exactly when no
    player's latest guess is all [correct] and some player has guesses and
    time left. It names no winner exactly when no latest guess is all
    [correct], and a winner that it names is a player of the game with such
    a guess, the game being reported as ended. *)
Theorem checkGameEnd_verdict (g : GameState) :
  (isEnd (checkGameEnd g) = false ↔ noWinner g ∧ Exists canAct (players g))
  ∧ (winnerId (checkGameEnd g) = None ↔ noWinner g)
  ∧ (∀ w, winnerId (checkGameEnd g) = Some w →
          isEnd (checkGameEnd g) = true
          ∧ ∃ p, p ∈ players g ∧ id p = w ∧ lastGuessWins p = true).
Proof.
  destruct (List.find lastGuessWins (players g)) as [p|] eqn:Hfind.
  - assert (Hend : checkGameEnd g = {| isEnd := true; winnerId := Some (id p) |}).
    { unfold checkGameEnd. by rewrite Hfind. }
    apply find_Some_first in Hfind as [Hin Hwin]. rewrite Hend. csimpl.
    assert (Hsome : ¬ noWinner g).
    { intros Hno. unfold noWinner in Hno. rewrite Forall_forall in Hno.
      specialize (Hno p Hin). congruence. }
    split_and!.
    + split; [done|]. by intros [? _].
    + split; [done|]. by intros ?.
    + intros w [= <-]. split; [done|]. by exists p.
  - apply find_None_all in Hfind.
    destruct (checkGameEnd_noWinner g Hfind) as [Hw Hact]. split_and!.
    + rewrite Hact. by split; [|intros [_ ?] ].
    + by split.
    + intros w Hsome. congruence.
Qed.

Lemma sampleEnv_wordsSized : wordsSized (H := sampleEnv).
Proof.
  intros n words w Hl Hin. unfold WORD_LISTS in Hl.
  repeat case_decide; simplify_eq; cbn in Hin;
    rewrite ?elem_of_cons, elem_of_nil in Hin; intuition subst; reflexivity.
Qed.

(** The second word of the five-letter list. *)
Lemma drawn_word_is_valid_kabak :
  wordsSized (H := sampleEnv)
  ∧ getRandomWord (H := sampleEnv) 5 1 = Some (word "kabak")
  ∧ Z.of_nat (length (word "kabak")) = 5%Z
  ∧ isValidWord (H := sampleEnv) (word "kabak") = true.
Proof.
  split; [exact sampleEnv_wordsSized|]. split; [reflexivity|].
  apply (@drawn_word_is_valid sampleEnv 5%Z 1 (word "kabak"));
    [exact sampleEnv_wordsSized|reflexivity].
Defined.

(** "KAPAK" is accepted: it has five letters and normalises to "kapak". *)
Lemma isValidWord_only_listed_kapak :
  isValidWord (H := sampleEnv) (word "KAPAK") = true
  ∧ (length (word "KAPAK") = 5 ∨ length (word "KAPAK") = 6
     ∨ length (word "KAPAK") = 7)
  ∧ ∃ words w,
      WORD_LISTS (H := sampleEnv) (Z.of_nat (length (word "KAPAK"))) = Some words
      ∧ w ∈ words
      ∧ normalized (H := sampleEnv) w = normalized (H := sampleEnv) (word "KAPAK").
Proof.
  split; [reflexivity|].
  apply (@isValidWord_only_listed sampleEnv (word "KAPAK")). reflexivity.
Defined.
(** ** Configuration, registry keys and running clocks *)

Lemma findPlayer_updatePlayer_ne playerId sock f ps :
  playerId ≠ sock → (∀ p, id (f p) = id p) →
  findPlayer playerId (updatePlayer sock f ps) = findPlayer playerId ps.
Proof.
  intros Hne Hf. unfold findPlayer. induction ps as [|p ps IH]; [done|]. csimpl.
  case_bool_decide as Hid; csimpl.
  - rewrite Hf. by rewrite !bool_decide_eq_false_2 by congruence.
  - by rewrite IH.
Qed.

Lemma findPlayer_removePlayer_ne playerId sock ps :
  playerId ≠ sock →
  findPlayer playerId (removePlayer sock ps) = findPlayer playerId ps.
Proof.
  intros Hne. unfold findPlayer. induction ps as [|p ps IH]; [done|]. csimpl.
  case_bool_decide as Hid; csimpl.
  - by rewrite bool_decide_eq_false_2 by congruence.
  - by rewrite IH.
Qed.

Lemma findPlayer_app playerId ps qs :
  findPlayer playerId (ps ++ qs)
  = match findPlayer playerId ps with
    | Some p => Some p
    | None => findPlayer playerId qs
    end.
Proof.
  unfold findPlayer. induction ps as [|p ps IH]; [done|]. csimpl.
  by case_bool_decide.
Qed.

Lemma findPlayer_fmap playerId f ps :
  (∀ p, id (f p) = id p) →
  findPlayer playerId (f <$> ps) = f <$> findPlayer playerId ps.
Proof.
  intros Hf. unfold findPlayer. induction ps as [|p ps IH]; [done|]. csimpl.
  rewrite Hf. by case_bool_decide.
Qed.

Lemma sameClock_refl playerId g : sameClock playerId g g.
Proof. intros p Hp. by exists p. Qed.

Lemma sameClock_players playerId g g' :
  players g' = players g → sameClock playerId g g'.
Proof. intros Heq p Hp. exists p. by rewrite Heq. Qed.

Lemma sameClock_update playerId sock f g :
  (∀ p, id (f p) = id p) →
  (playerId ≠ sock
   ∨ ∀ p, isTimedOut (f p) = isTimedOut p ∧ timeRemaining (f p) = timeRemaining p) →
  sameClock playerId g (with_players (updatePlayer sock f (players g)) g).
Proof.
  intros Hf Hcase p Hp. csimpl.
  destruct (decide (playerId = sock)) as [->|Hne].
  - destruct Hcase as [?|Hsame]; [done|].
    rewrite findPlayer_updatePlayer, Hp by done. csimpl.
    exists (f p). split; [done|]. apply Hsame.
  - rewrite findPlayer_updatePlayer_ne by done. by exists p.
Qed.

Lemma sameClock_remove playerId sock g :
  playerId ≠ sock →
  sameClock playerId g (with_players (removePlayer sock (players g)) g).
Proof.
  intros Hne p Hp. csimpl. rewrite findPlayer_removePlayer_ne by done. by exists p.
Qed.

Lemma running_same s s' room playerId r g g' :
  running s room playerId r → heap s !! r = Some g → heap s' !! r = Some g' →
  roomId g' = roomId g → timeLimit g' = timeLimit g → sameClock playerId g g' →
  running s' room playerId r.
Proof.
  intros (g0 & p & limit & Hg0 & Hroom & Hlim & Hf & Hto & Htr) Hg Hg' Hr Hl Hsame.
  assert (g0 = g) as -> by congruence.
  destruct (Hsame p Hf) as (p' & Hf' & Hto' & Htr').
  exists g', p', limit. split_and!; [done|congruence|congruence|done|congruence|lia..].
Qed.

Lemma running_frame s s' room playerId r :
  running s room playerId r → heap s' !! r = heap s !! r → running s' room playerId r.
Proof.
  intros (g & p & limit & Hg & Hrest) Heq. exists g, p, limit.
  by rewrite Heq.
Qed.

Lemma Configured_same g g' :
  maxPlayers g' = maxPlayers g → wordLength g' = wordLength g →
  timeLimit g' = timeLimit g → status g' = status g →
  length (players g') = length (players g) →
  rematchRequest g' = rematchRequest g →
  Configured g → Configured g'.
Proof.
  intros H1 H2 H3 H4 H5 H6 [C1 C2 C3 C4 C5 C6].
  split; rewrite ?H1, ?H2, ?H3, ?H4, ?H5, ?H6; done.
Qed.

Lemma Configured_timeless g g' :
  timeless g' = timeless g → Configured g → Configured g'.
Proof.
  intros Htl. apply Configured_same.
  - by apply (f_equal maxPlayers) in Htl.
  - by apply (f_equal wordLength) in Htl.
  - by apply (f_equal timeLimit) in Htl.
  - by apply (f_equal status) in Htl.
  - apply timeless_players in Htl. apply (f_equal length) in Htl.
    by rewrite !length_fmap in Htl.
  - by apply (f_equal rematchRequest) in Htl.
Qed.

Lemma Configured_active st g :
  st ≠ waiting → status g ≠ waiting → Configured g → Configured (with_status st g).
Proof.
  intros Hst Hg [C1 C2 C3 C4 C5 C6]. split; csimpl; try done.
  intros _. apply C6. by left.
Qed.

Lemma Configured_with_rematchRequest rq g :
  Configured g → (rq ≠ None → ∃ n : nat, maxPlayers g = Qc_of_nat n) →
  Configured (with_rematchRequest rq g).
Proof.
  intros [C1 C2 C3 C4 C5 C6] Hwhole. split; csimpl; try done.
  intros [?|?]; [apply C6; by left|by apply Hwhole].
Qed.

Lemma timeless_roomId g g' : timeless g = timeless g' → roomId g = roomId g'.
Proof. intros Heq. by apply (f_equal roomId) in Heq. Qed.

(** The step pattern of the handlers: one game state is rewritten. *)
Lemma Wired_touches s s' r g g' :
  Wired s → touches r s s' → heap s !! r = Some g → heap s' !! r = Some g' →
  Configured g' → roomId g' = roomId g →
  (∀ room playerId, timerRef s' room playerId = Some r → running s' room playerId r) →
  (∀ cd, cd ∈ countdowns s' → cd_state cd = r →
         cd ∈ countdowns s ∨ cd_room cd = roomId g') →
  Wired s'.
Proof.
  intros [W1 W2 W3 W4] [T1 T2 T3 T4 T5] Hg Hg' Hconf Hroom Htimers Hcds. split.
  - intros r' g0 Hr'. destruct (decide (r' = r)) as [->|Hne]; [congruence|].
    rewrite T1 in Hr' by done. eauto.
  - intros k r' Hk. apply (elem_of_sublist _ _ _ Hk) in T3.
    destruct (W2 _ _ T3) as (g0 & Hg0 & Hk0).
    destruct (decide (r' = r)) as [->|Hne].
    + exists g'. split; [done|]. congruence.
    + exists g0. by rewrite T1.
  - intros room playerId r' Ht.
    destruct (decide (r' = r)) as [->|Hne]; [by apply Htimers|].
    destruct (T4 _ _ _ Ht) as [?|Ho]; [done|].
    eapply running_frame; [by apply W3|by apply T1].
  - intros cd Hcd.
    destruct (decide (cd_state cd = r)) as [Heq|Hne].
    + rewrite Heq. exists g'. split; [done|].
      destruct (Hcds cd Hcd Heq) as [Ho|Hn]; [|done].
      destruct (W4 cd Ho) as (g0 & Hg0 & Hk0). congruence.
    + destruct (T5 _ Hcd) as [?|Ho]; [done|]. rewrite T1 by done. auto.
Qed.

(** The case in which no timer and no countdown is added. *)
Lemma Wired_rewrite s s' r g g' :
  Wired s → touches r s s' → heap s !! r = Some g → heap s' !! r = Some g' →
  Configured g' → roomId g' = roomId g → timeLimit g' = timeLimit g →
  (∀ room playerId, timerRef s' room playerId = Some r →
                    timerRef s room playerId = Some r ∧ sameClock playerId g g') →
  (∀ cd, cd ∈ countdowns s' → cd ∈ countdowns s) →
  Wired s'.
Proof.
  intros HW Ht Hg Hg' Hconf Hroom Hlim Htimers Hcds.
  eapply (Wired_touches s s' r g g'); try done.
  - intros room playerId Hti. destruct (Htimers _ _ Hti) as [Ho Hsame].
    eapply running_same; [by apply (wired_timers s HW)|done..].
  - intros cd Hcd _. left. by apply Hcds.
Qed.

Lemma Wired_shrink s s' :
  Wired s → heap s' = heap s → sublist (gameRooms s') (gameRooms s) →
  (∀ room playerId r, timerRef s' room playerId = Some r →
                      timerRef s room playerId = Some r) →
  (∀ cd, cd ∈ countdowns s' → cd ∈ countdowns s) →
  Wired s'.
Proof.
  intros [W1 W2 W3 W4] Hh Hr Ht Hc. split; rewrite ?Hh; auto.
  - intros k r Hk. eapply W2, elem_of_sublist; done.
  - intros room playerId r Hti. eapply running_frame; [by apply W3, Ht|by rewrite Hh].
Qed.

Lemma Wired_initial : Wired initialServer.
Proof.
  split; csimpl.
  - intros r g Hr. by rewrite lookup_nil in Hr.
  - intros k r Hk. by apply elem_of_nil in Hk.
  - intros room playerId r. unfold timerRef. csimpl. by rewrite lookup_empty.
  - intros cd Hcd. by apply elem_of_nil in Hcd.
Qed.

(** [startPlayerTimer] on the state of its own room keeps every clock of
    that state in order. *)
Lemma startPlayerTimer_running room playerId r s g :
  heap s !! r = Some g → roomId g = room → Configured g →
  (∀ room' playerId', timerRef s room' playerId' = Some r →
                      running s room' playerId' r) →
  ∀ room' playerId',
    timerRef (startPlayerTimer room playerId r s) room' playerId' = Some r →
    running (startPlayerTimer room playerId r s) room' playerId' r.
Proof.
  intros Hg Hroom Hconf Hold.
  destruct (findPlayer playerId (players g)) as [p|] eqn:Hf.
  2:{ rewrite (startPlayerTimer_skip _ _ _ _ g) by auto. done. }
  destruct (isTimedOut p) eqn:Hto.
  { rewrite (startPlayerTimer_skip _ _ _ _ g) by eauto. done. }
  destruct (startPlayerTimer_effect room playerId r s g p Hg Hf Hto)
    as (Hh & _ & _ & _ & Hti).
  set (g1 := with_players _ g) in Hh.
  assert (Hg1 : heap (startPlayerTimer room playerId r s) !! r = Some g1).
  { rewrite Hh. apply list_lookup_insert_eq. by eapply lookup_lt_Some. }
  intros room' playerId'. rewrite Hti. case_decide as Hnew.
  - intros _. destruct Hnew as (Hlim & <- & <-).
    destruct (timeLimit g) as [limit|] eqn:Hl; [|done].
    exists g1, (with_timeRemaining limit p), limit. split_and!; try done.
    + unfold g1. csimpl. by rewrite findPlayer_updatePlayer, Hf.
    + csimpl. destruct (conf_timeLimit g Hconf limit Hl) as [->|[->|[->|[->| ->]]]]; lia.
  - intros Ho. pose proof (Hold _ _ Ho) as Hrun.
    eapply (running_same s _ room' playerId' r g g1); try done.
    apply sameClock_update; [done|]. left. intros <-.
    destruct Hrun as (g0 & _ & limit & Hg0 & Hr0 & Hl0 & _).
    assert (g0 = g) as -> by congruence.
    apply Hnew. split_and!; [congruence|congruence|done].
Qed.

Lemma startTimers_running room r ids s g :
  heap s !! r = Some g → roomId g = room → Configured g →
  (∀ room' playerId', timerRef s room' playerId' = Some r →
                      running s room' playerId' r) →
  let s' := foldl (λ s' playerId, startPlayerTimer room playerId r s') s ids in
  ∀ room' playerId', timerRef s' room' playerId' = Some r →
                     running s' room' playerId' r.
Proof.
  revert s g. induction ids as [|i ids IH]; intros s g Hg Hroom Hconf Hold; csimpl;
    [done|].
  destruct (startPlayerTimer_timeless room i r s g Hg) as (g1 & Hg1 & Htl).
  apply (IH _ g1); [done| | |].
  - by rewrite (timeless_roomId _ _ Htl).
  - by eapply Configured_timeless.
  - by eapply startPlayerTimer_running.
Qed.

Lemma startAllTimers_Wired room r s g :
  Wired s → heap s !! r = Some g → roomId g = room → Wired (startAllTimers room r s).
Proof.
  intros HW Hg Hroom.
  destruct (startAllTimers_timeless room r s g Hg) as (Ht & g' & Hg' & Htl).
  eapply (Wired_touches s _ r g g'); try done.
  - eapply Configured_timeless; [done|]. by apply (wired_states s HW r).
  - by rewrite (timeless_roomId _ _ Htl).
  - unfold startAllTimers. rewrite Hg.
    apply (startTimers_running room r _ s g); try done.
    + by apply (wired_states s HW r).
    + intros room' playerId'. apply (wired_timers s HW).
  - intros cd Hcd _. left. destruct Ht as [_ _ _ _ T5].
    destruct (T5 cd Hcd) as [Heq|?]; [|done].
    (* countdowns are not changed by the timers *)
    revert Hcd. unfold startAllTimers. rewrite Hg.
    clear. generalize (id <$> players g). intros ids. revert s.
    induction ids as [|i ids IH]; intros s; csimpl; [done|].
    intros Hcd%IH. revert Hcd. unfold startPlayerTimer.
    repeat case_match; csimpl; try done.
    unfold clearPlayerTimer. repeat case_match; done.
Qed.

Lemma validTimeLimit_cases limit t :
  validTimeLimit limit = Some t →
  t = 30%Z ∨ t = 35%Z ∨ t = 60%Z ∨ t = 75%Z ∨ t = 90%Z.
Proof.
  unfold validTimeLimit. destruct limit as [| |t0]; [naive_solver..|].
  case_bool_decide as Hin; [|naive_solver].
  rewrite !elem_of_cons, elem_of_nil in Hin. naive_solver.
Qed.

Lemma timerRef_setState r g s room playerId :
  timerRef (setState r g s) room playerId = timerRef s room playerId.
Proof. done. Qed.



Lemma startPlayerTimer_countdowns room playerId r s :
  countdowns (startPlayerTimer room playerId r s) = countdowns s.
Proof.
  unfold startPlayerTimer. repeat case_match; csimpl; try done.
  unfold clearPlayerTimer. by repeat case_match.
Qed.

Lemma startPlayerTimer_Wired room playerId r s g :
  Wired s → heap s !! r = Some g → roomId g = room →
  Wired (startPlayerTimer room playerId r s).
Proof.
  intros HW Hg Hroom.
  destruct (startPlayerTimer_timeless room playerId r s g Hg) as (g' & Hg' & Htl).
  eapply (Wired_touches s _ r g g'); try done.
  - apply touches_startPlayerTimer.
  - eapply Configured_timeless; [done|]. by apply (wired_states s HW r).
  - by rewrite (timeless_roomId _ _ Htl).
  - apply (startPlayerTimer_running room playerId r s g); try done.
    + by apply (wired_states s HW r).
    + intros room' playerId'. apply (wired_timers s HW).
  - intros cd Hcd _. left. by rewrite startPlayerTimer_countdowns in Hcd.
Qed.

Section Wiring.
Context `{Env}.

Lemma finishGame_Wired room r gameEnd g0 g s :
Wired s → heap s !! r = Some g0 → Configured g → status g ≠ waiting →
roomId g = roomId g0 → timeLimit g = timeLimit g0 →
(∀ room' playerId, timerRef s room' playerId = Some r → sameClock playerId g0 g) →
Wired (finishGame room r gameEnd g s).1.
Proof.
intros HW Hg0 Hconf Hact Hroom Hlim Hsame. unfold finishGame. csimpl.
eapply (Wired_rewrite s _ r g0 (with_status finished g)); try done.
- eapply touches_trans; [apply touches_setState|].
  eapply touches_trans; [apply touches_clearAllRoomTimers|].
  apply touches_set_cleanups.
- csimpl. apply list_lookup_insert_eq. by eapply lookup_lt_Some.
- by apply Configured_active.
- intros room' playerId.
  change (timerRef (set_cleanups ?c ?x)) with (timerRef x).
  rewrite timerRef_clearAllRoomTimers, timerRef_setState.
  case_decide; [done|]. intros Ht. split; [done|].
  intros p Hp. destruct (Hsame _ _ Ht p Hp) as (p' & ? & ? & ?). by exists p'.
Qed.

Lemma create_room_Wired sock playerName maxP len limit room rnd now s :
Wired s → Wired (stateOf (create_room sock playerName maxP len limit room rnd now s)).
Proof.
intros [W1 W2 W3 W4]. unfold create_room.
destruct (getRandomWord (validWordLength len) rnd) as [w|] eqn:Hrand; [|done].
csimpl.
assert (Hfresh : ∀ r g (x : GameState), heap s !! r = Some g →
                                        (heap s ++ [x]) !! r = Some g).
{ intros r g x Hr. rewrite lookup_app_l; [done|]. by eapply lookup_lt_Some. }
split; csimpl.
- intros r g [Hr|[_ Hr]]%lookup_app_Some; [eauto|].
  apply list_lookup_singleton_Some in Hr as [_ <-].
  split; csimpl.
  + apply validMaxPlayers_range.
  + apply validWordLength_cases.
  + apply validTimeLimit_cases.
  + destruct (validMaxPlayers_range maxP). qc_order.
  + intros _. destruct (validMaxPlayers_range maxP). qc_order.
  + by intros [?|?].
- intros k r [[= -> ->]|Hin]%rooms_set_elem_of.
  + eexists. rewrite lookup_app_r, Nat.sub_diag by lia. csimpl. done.
  + destruct (W2 _ _ Hin) as (g & Hg & Hk). eauto.
- intros room' playerId r Ht.
  destruct (W3 _ _ _ Ht) as (g & p & l & Hg & Hrest).
  exists g, p, l. split; [|done]. csimpl. by apply Hfresh.
- intros cd Hcd. destruct (W4 _ Hcd) as (g & Hg & Hk). eauto.
Qed.

Lemma join_room_Wired sock room playerName s :
Inv s → Wired s → Wired (stateOf (join_room sock room playerName s)).
Proof.
intros HI HW. unfold join_room.
destruct (rooms_get room (gameRooms s)) as [r|] eqn:Hr; [|done]. csimpl.
destruct (heap s !! r) as [g|] eqn:Hg; [|done]. csimpl.
destruct (findPlayer sock (players g)) as [p|] eqn:Hf; [done|].
case_decide as Hfull; [done|]. case_decide as Hst; [done|].
assert (Hw : status g = waiting) by (destruct (status g); done).
pose proof (wired_states s HW r g Hg) as Hconf.
set (g1 := with_players _ g) in *.
assert (Hlt : r < length (heap s)) by by eapply lookup_lt_Some.
assert (Hquiet : ∀ room' playerId, timerRef s room' playerId ≠ Some r).
{ intros room' playerId Ht.
  destruct (inv_timers s HI _ _ _ Ht) as (g0 & Hg0 & Hs0). congruence. }
assert (Hroom : roomId g = room).
{ apply rooms_get_Some in Hr. destruct (wired_rooms s HW _ _ Hr) as (g0 & Hg0 & Hk).
  congruence. }
assert (Hconf1 : ∀ st, (st = waiting →
                        Qc_of_nat (length (players g1)) ≠ maxPlayers g) →
                       (st ≠ waiting → ∃ n : nat, maxPlayers g = Qc_of_nat n) →
                       Configured (with_status st g1)).
{ intros st Hcase Hwhole. destruct Hconf as [C1 C2 C3 C4 C5 C6].
  split; csimpl; try done.
  - rewrite length_app, Qc_of_nat_add_1. csimpl. qc_order.
  - intros [?|?]; [by apply Hwhole|]. by apply C6; right. }
case_decide as Hmax.
- set (s1 := setState r (with_status playing g1) (setState r g1 s)).
  assert (Hg1 : heap s1 !! r = Some (with_status playing g1)).
  { apply setState_lookup. csimpl. by rewrite length_insert. }
  assert (HW1 : Wired s1).
  { eapply (Wired_rewrite s _ r g (with_status playing g1)); try done.
    - eapply touches_trans; apply touches_setState.
    - apply Hconf1; [done|]. intros _. exists (length (players g1)).
      symmetry. exact Hmax.
    - intros room' playerId Ht. by apply Hquiet in Ht. }
  pose proof (startAllTimers_Wired room r s1 _ HW1 Hg1 Hroom) as HW2.
  by destruct (heap (startAllTimers room r s1) !! r).
- csimpl. eapply (Wired_rewrite s _ r g g1); try done.
  + apply touches_setState.
  + by apply setState_lookup.
  + change g1 with (with_status (status g) g1). apply Hconf1.
    * intros _. exact Hmax.
    * intros Hne. by rewrite Hw in Hne.
  + intros room' playerId Ht. by apply Hquiet in Ht.
Qed.

Lemma make_guess_Wired sock guess s :
Wired s → Wired (stateOf (make_guess sock guess s)).
Proof.
intros HW. unfold make_guess.
destruct (callerState s sock) as [[[userRoom r] g]|] eqn:Hc; [|done].
apply callerState_member in Hc as (Hin & Hg & Hp).
case_decide as Hst; [done|]. case_decide; [done|].
destruct (negb (isValidWord guess)); [done|].
destruct (findPlayer sock (players g)) as [p|] eqn:Hf; [|done].
case_decide as Hlen; [done|]. destruct (isTimedOut p) eqn:Hto; [done|].
set (entry := {| guess := toLowerCase guess; feedback := _ |}).
set (g1 := with_players _ g).
assert (Hlt : r < length (heap s)) by by eapply lookup_lt_Some.
pose proof (wired_states s HW r g Hg) as Hconf.
assert (Hroom : roomId g = userRoom).
{ destruct (wired_rooms s HW _ _ Hin) as (g0 & Hg0 & Hk). congruence. }
assert (Hg1 : heap (setState r g1 s) !! r = Some g1) by by apply setState_lookup.
assert (HW1 : Wired (setState r g1 s)).
{ eapply (Wired_rewrite s _ r g g1); try done.
  - apply touches_setState.
  - eapply Configured_same; [..|exact Hconf]; try done.
    unfold g1. csimpl. apply updatePlayer_length.
  - intros room' playerId Ht. split; [done|].
    apply sameClock_update; [done|]. by right. }
set (s2 := if allCorrect _ then setState r g1 s
           else startPlayerTimer userRoom sock r (setState r g1 s)).
assert (H2 : Wired s2 ∧ ∃ g2, heap s2 !! r = Some g2 ∧ timeless g2 = timeless g1).
{ unfold s2. destruct (allCorrect _).
  - split; [done|]. by exists g1.
  - split; [by eapply startPlayerTimer_Wired|].
    by apply startPlayerTimer_timeless. }
destruct H2 as (HW2 & g2 & Hg2 & Htl). rewrite Hg2.
destruct (isEnd (checkGameEnd g2)) eqn:Hend.
- pose proof (finishGame_Wired userRoom r (checkGameEnd g2) g2 g2 s2 HW2 Hg2) as HW3.
  destruct (finishGame userRoom r (checkGameEnd g2) g2 s2) as [s3 out]. csimpl in *.
  apply HW3; try done.
  + by apply (wired_states s2 HW2 r).
  + rewrite (timeless_status _ _ Htl). change (status g1) with (status g).
    destruct (status g); done.
  + intros. apply sameClock_refl.
- done.
Qed.

Lemma request_rematch_Wired sock s :
Wired s → Wired (stateOf (request_rematch sock s)).
Proof.
intros HW. unfold request_rematch.
destruct (callerState s sock) as [[[userRoom r] g]|] eqn:Hc; [|done].
apply callerState_member in Hc as (Hin & Hg & Hp).
case_decide as Hst; [done|]. case_decide as Hall; [done|]. csimpl.
match goal with |- Wired (setState _ ?g2 _) =>
  eapply (Wired_rewrite s _ r g g2) end; try done.
- apply touches_setState.
- apply setState_lookup. by eapply lookup_lt_Some.
- apply Configured_with_rematchRequest; [by apply (wired_states s HW r g)|].
  intros _. exists (length (players g)).
  by destruct (decide (Qc_of_nat (length (players g)) = maxPlayers g)).
- intros room' playerId Ht. split; [done|]. by apply sameClock_players.
Qed.

Lemma decline_rematch_Wired sock s :
Wired s → Wired (stateOf (decline_rematch sock s)).
Proof.
intros HW. unfold decline_rematch.
destruct (callerState s sock) as [[[userRoom r] g]|] eqn:Hc; [|done].
apply callerState_member in Hc as (Hin & Hg & Hp).
destruct (rematchRequest g) as [rq|] eqn:Hrq; [|done].
destruct (negb (requested rq)); [done|]. csimpl.
match goal with |- Wired (setState _ ?g2 _) =>
  eapply (Wired_rewrite s _ r g g2) end; try done.
- apply touches_setState.
- apply setState_lookup. by eapply lookup_lt_Some.
- by apply Configured_with_rematchRequest; [apply (wired_states s HW r g)|].
- intros room' playerId Ht. split; [done|]. by apply sameClock_players.
Qed.

Lemma accept_rematch_Wired sock rnd now s :
Wired s → Wired (stateOf (accept_rematch sock rnd now s)).
Proof.
intros HW. unfold accept_rematch.
destruct (callerState s sock) as [[[userRoom r] g]|] eqn:Hc; [|done].
apply callerState_member in Hc as (Hin & Hg & Hp).
destruct (rematchRequest g) as [rq|] eqn:Hrq; [|done].
destruct (negb (requested rq)); [done|]. case_decide; [done|].
assert (Hlt : r < length (heap s)) by by eapply lookup_lt_Some.
pose proof (wired_states s HW r g Hg) as Hconf.
assert (Hroom : roomId g = userRoom).
{ destruct (wired_rooms s HW _ _ Hin) as (g0 & Hg0 & Hk). congruence. }
destruct (getRandomWord _ rnd) as [w|]; csimpl.
- match goal with |- Wired (set_countdowns _ (setState _ ?g2 _)) =>
    eapply (Wired_touches s _ r g g2) end; try done.
  + eapply touches_trans; [apply touches_setState|].
    split; csimpl; auto.
    intros cd [Hcd|Hcd]%elem_of_app; [by right|].
    apply list_elem_of_singleton in Hcd as ->. by left.
  + csimpl. by apply list_lookup_insert_eq.
  + destruct Hconf as [C1 C2 C3 C4 C5 C6].
    split; csimpl; rewrite ?length_fmap; try done.
    intros _. apply C6. right. by rewrite Hrq.
  + intros room' playerId Ht.
    destruct (wired_timers s HW _ _ _ Ht) as (g0 & p & limit & Hg0 & Hr0 & Hl0 & Hf0 & _).
    assert (g0 = g) as -> by congruence.
    eexists _, (resetPlayer (timeLimit g) p), limit. split_and!.
    * csimpl. by apply list_lookup_insert_eq.
    * done.
    * done.
    * csimpl. by rewrite findPlayer_fmap, Hf0.
    * done.
    * csimpl. rewrite Hl0. csimpl.
      destruct (conf_timeLimit g Hconf limit Hl0) as [->|[->|[->|[->| ->]]]]; done.
    * csimpl. rewrite Hl0. csimpl.
      destruct (conf_timeLimit g Hconf limit Hl0) as [->|[->|[->|[->| ->]]]]; done.
  + csimpl. intros cd [Hcd|Hcd]%elem_of_app _; [by left|].
    apply list_elem_of_singleton in Hcd as ->. by right.
- match goal with |- Wired (setState _ ?g2 _) =>
    eapply (Wired_rewrite s _ r g g2) end; try done.
  + apply touches_setState.
  + by apply setState_lookup.
  + apply Configured_with_rematchRequest; [done|].
    intros _. apply (conf_started g Hconf). right. by rewrite Hrq.
  + intros room' playerId Ht. split; [done|]. by apply sameClock_players.
Qed.

Lemma disconnect_Wired sock s : Wired s → Wired (stateOf (disconnect sock s)).
Proof.
intros HW. unfold disconnect.
destruct (roomOf s sock) as [[room r]|] eqn:Hr; [|done]. csimpl.
apply roomOf_Some in Hr as (Hin & g & Hg & Hp). rewrite Hg. csimpl.
set (g1 := with_players _ g) in *.
assert (Hlt : r < length (heap s)) by by eapply lookup_lt_Some.
pose proof (wired_states s HW r g Hg) as Hconf.
assert (Hroom : roomId g = room).
{ destruct (wired_rooms s HW _ _ Hin) as (g0 & Hg0 & Hk). congruence. }
assert (Hconf1 : Configured g1).
{ pose proof (sublist_length _ _ (removePlayer_sublist sock (players g))) as Hle.
  destruct Hconf as [C1 C2 C3 C4 C5 C6]. split; csimpl; try done.
  - apply Qc_of_nat_le in Hle. qc_order.
  - intros Hw Heq. specialize (C5 Hw).
    destruct (decide (length (removePlayer sock (players g)) = length (players g)))
      as [Hsame|Hless].
    + apply C5. by rewrite <- Hsame.
    + assert (Hlt' : length (removePlayer sock (players g)) + 1 ≤ length (players g))
        by lia.
      apply Qc_of_nat_le in Hlt'. rewrite Qc_of_nat_add_1 in Hlt'. qc_order. }
assert (Hkey : ∀ room' playerId, timerRef s room' playerId = Some r → room' = room).
{ intros room' playerId Ht.
  destruct (wired_timers s HW _ _ _ Ht) as (g0 & _ & _ & Hg0 & Hr0 & _). congruence. }
case_decide as Hlen; csimpl.
- eapply (Wired_rewrite s _ r g g1); try done.
  + eapply touches_trans; [apply touches_setState|].
    eapply touches_trans; [apply touches_clearAllRoomTimers|].
    apply touches_set_gameRooms. csimpl. apply sublist_filter.
  + csimpl. by apply list_lookup_insert_eq.
  + intros room' playerId.
    change (timerRef (set_gameRooms ?m ?x)) with (timerRef x).
    rewrite timerRef_clearAllRoomTimers, timerRef_setState.
    case_decide as Hne; [done|]. intros Ht. by apply Hkey in Ht.
- eapply (Wired_rewrite s _ r g g1); try done.
  + eapply touches_trans; [apply touches_setState|apply touches_clearPlayerTimer].
  + unfold clearPlayerTimer. repeat case_match; by apply setState_lookup.
  + intros room' playerId. rewrite timerRef_clearPlayerTimer, timerRef_setState.
    case_decide as Hne; [done|]. intros Ht. split; [done|].
    apply sameClock_remove. intros ->. apply Hne. split; [|done].
    symmetry. by eapply Hkey.
  + unfold clearPlayerTimer. by repeat case_match.
Qed.

Lemma handlePlayerTimeout_Wired room playerId r s g :
Wired s → heap s !! r = Some g → status g ≠ waiting →
timerRef s (roomId g) playerId = None →
Wired (handlePlayerTimeout room playerId r s).1.
Proof.
intros HW Hg Hact Hnone. unfold handlePlayerTimeout. rewrite Hg.
destruct (findPlayer playerId (players g)) as [p|] eqn:Hf; [|done].
set (g1 := with_players _ g).
pose proof (wired_states s HW r g Hg) as Hconf.
assert (Hconf1 : Configured g1).
{ eapply Configured_same; [..|exact Hconf]; try done.
  unfold g1. csimpl. apply updatePlayer_length. }
assert (Hsame : ∀ room' playerId', timerRef s room' playerId' = Some r →
                                   sameClock playerId' g g1).
{ intros room' playerId' Ht. apply sameClock_update; [done|]. left. intros ->.
  destruct (wired_timers s HW _ _ _ Ht) as (g0 & _ & _ & Hg0 & Hr0 & _).
  assert (g0 = g) as -> by congruence. congruence. }
destruct (isEnd (checkGameEnd g1)) eqn:Hend.
- pose proof (finishGame_Wired room r (checkGameEnd g1) g g1 s HW Hg Hconf1) as HW3.
  destruct (finishGame room r (checkGameEnd g1) g1 s) as [s3 out]. csimpl in *.
  by apply HW3.
- csimpl. eapply (Wired_rewrite s _ r g g1); try done.
  + apply touches_setState.
  + apply setState_lookup. by eapply lookup_lt_Some.
  + intros room' playerId' Ht. rewrite timerRef_setState in Ht. split; [done|].
    by eapply Hsame.
Qed.

Lemma timerTick_Wired room playerId s :
Inv s → Wired s → Wired (timerTick room playerId s).1.
Proof.
intros HI HW. unfold timerTick.
destruct (timerRef s room playerId) as [r|] eqn:Ht; [|done].
assert (Hact : ∀ g0, heap s !! r = Some g0 → status g0 ≠ waiting).
{ intros g0 Hg0. destruct (inv_timers s HI _ _ _ Ht) as (g' & Hg' & Hst).
  congruence. }
destruct (wired_timers s HW _ _ _ Ht) as (g & p & limit & Hg & Hroom & Hlim & Hf & Hto & Htr).
rewrite Hg, Hf.
set (g1 := with_players _ g).
assert (Hlt : r < length (heap s)) by by eapply lookup_lt_Some.
pose proof (wired_states s HW r g Hg) as Hconf.
assert (Hconf1 : Configured g1).
{ eapply Configured_same; [..|exact Hconf]; try done.
  unfold g1. csimpl. apply updatePlayer_length. }
assert (Hkey : ∀ room' playerId', timerRef s room' playerId' = Some r → room' = room).
{ intros room' playerId' Ht'.
  destruct (wired_timers s HW _ _ _ Ht') as (g0 & _ & _ & Hg0 & Hr0 & _). congruence. }
case_decide as Hlow.
- set (s1 := clearPlayerTimer room playerId (setState r g1 s)).
  assert (Hg1 : heap s1 !! r = Some g1).
  { unfold s1, clearPlayerTimer. repeat case_match; by apply setState_lookup. }
  assert (HW1 : Wired s1).
  { eapply (Wired_rewrite s _ r g g1); try done.
    - eapply touches_trans; [apply touches_setState|apply touches_clearPlayerTimer].
    - intros room' playerId'. unfold s1.
      rewrite timerRef_clearPlayerTimer, timerRef_setState.
      case_decide as Hne; [done|]. intros Ht'. split; [done|].
      apply sameClock_update; [done|]. left. intros ->. apply Hne. split; [|done].
      symmetry. by eapply Hkey.
    - unfold s1, clearPlayerTimer. by repeat case_match. }
  pose proof (handlePlayerTimeout_Wired room playerId r s1 g1 HW1 Hg1) as HW2.
  destruct (handlePlayerTimeout room playerId r s1) as [s' out]. csimpl in *.
  apply HW2; [by apply (Hact g)|]. unfold s1. rewrite timerRef_clearPlayerTimer.
  rewrite decide_True; [done|]. split; [|done]. by rewrite <- Hroom.
- csimpl. eapply (Wired_touches s _ r g g1); try done.
  + apply touches_setState.
  + by apply setState_lookup.
  + intros room' playerId'. rewrite timerRef_setState. intros Ht'.
    destruct (decide (playerId' = playerId)) as [->|Hne].
    * pose proof (Hkey _ _ Ht') as ->.
      exists g1, (with_timeRemaining (timeRemaining p - 1) p), limit.
      split_and!; try done.
      -- by apply setState_lookup.
      -- unfold g1. csimpl. by rewrite findPlayer_updatePlayer, Hf.
      -- csimpl. lia.
      -- csimpl. lia.
    * eapply (running_same s _ room' playerId' r g g1); try done.
      -- by apply (wired_timers s HW).
      -- by apply setState_lookup.
      -- apply sameClock_update; [done|]. by left.
  + intros cd Hcd _. by left.
Qed.

Lemma countdownTick_Wired k s : Wired s → Wired (stateOf (countdownTick k s)).
Proof.
intros HW. unfold countdownTick.
destruct (countdowns s !! k) as [cd|] eqn:Hk; [|done].
destruct (wired_countdowns s HW cd) as (g & Hg & Hroom);
  [by eapply list_elem_of_lookup_2|].
case_decide.
- set (s1 := set_countdowns _ s).
  assert (HW1 : Wired s1).
  { eapply Wired_shrink; [exact HW|done..|].
    intros cd'. csimpl. apply list_elem_of_delete_inv. }
  pose proof (startAllTimers_Wired (cd_room cd) (cd_state cd) s1 g HW1 Hg Hroom) as HW2.
  by destruct (heap (startAllTimers (cd_room cd) (cd_state cd) s1) !! cd_state cd).
- csimpl. split; try apply HW. csimpl.
  intros cd' Hcd'.
  apply list_elem_of_lookup in Hcd' as [i Hi].
  destruct (decide (i = k)) as [->|Hne].
  + rewrite list_lookup_insert_eq in Hi by by eapply lookup_lt_Some.
    injection Hi as <-. csimpl. eauto.
  + rewrite list_lookup_insert_ne in Hi by done.
    eapply (wired_countdowns s HW), list_elem_of_lookup_2. done.
Qed.

Lemma cleanupFire_Wired k s : Wired s → Wired (stateOf (cleanupFire k s)).
Proof.
intros HW. unfold cleanupFire.
destruct (cleanups s !! k) as [room|]; [|done]. csimpl.
eapply Wired_shrink; [exact HW|done| |done..]. csimpl. apply sublist_filter.
Qed.

Lemma step_Wired s a : Inv s → Wired s → Wired (stateOf (step s a)).
Proof.
intros HI HW.
destruct a as [sock playerName maxP len limit room rnd now|sock room playerName
    |sock word0|sock|sock rnd now|sock|sock|room playerId|k|k]; csimpl.
- by apply create_room_Wired.
- by apply join_room_Wired.
- by apply make_guess_Wired.
- by apply request_rematch_Wired.
- by apply accept_rematch_Wired.
- by apply decline_rematch_Wired.
- by apply disconnect_Wired.
- pose proof (timerTick_Wired room playerId s HI HW) as Ht.
  by destruct (timerTick room playerId s).
- by apply countdownTick_Wired.
- by apply cleanupFire_Wired.
Qed.

Lemma reachable_Wired s : reachable s → Wired s.
Proof.
induction 1 as [|s a Hs IH]; [apply Wired_initial|].
apply step_Wired; [by apply reachable_Inv|done].
Qed.
End Wiring.
(** ** Accepted guesses *)

Lemma lastGuessWins_append p e :
  lastGuessWins (with_guesses (guesses p ++ [e]) p) = allCorrect (feedback e).
Proof. unfold lastGuessWins. csimpl. by rewrite last_snoc. Qed.

Lemma find_lastGuessWins_update sock f ps p :
  Forall (λ q, lastGuessWins q = false) ps → findPlayer sock ps = Some p →
  List.find lastGuessWins (updatePlayer sock f ps)
  = if lastGuessWins (f p) then Some (f p) else None.
Proof.
  unfold findPlayer. induction ps as [|q ps IH]; [done|].
  intros [Hq Hps]%Forall_cons. csimpl. case_bool_decide as Hid; csimpl.
  - intros [= ->]. destruct (lastGuessWins (f p)); [done|].
    by apply find_None_all.
  - intros Hf. rewrite Hq. by apply IH.
Qed.

Section Guesses.
Context `{Env}.

(** The state that [make_guess] builds for an accepted guess, before the
  clock is restarted. *)
Lemma make_guess_accepted sock guess s userRoom r g p :
callerState s sock = Some (userRoom, r, g) → status g = playing →
Z.of_nat (length guess) = wordLength g → isValidWord guess = true →
findPlayer sock (players g) = Some p → length (guesses p) < 6 →
isTimedOut p = false →
let entry := {| guess := toLowerCase guess;
                feedback := evaluateGuess guess (solution g) |} in
let g1 := with_players
            (updatePlayer sock (λ q, with_guesses (guesses q ++ [entry]) q)
                          (players g)) g in
let s1 := setState r g1 s in
let s2 := if allCorrect (evaluateGuess guess (solution g)) then s1
          else startPlayerTimer userRoom sock r s1 in
make_guess sock guess s
= match heap s2 !! r with
  | None => Done s2 []
  | Some g2 =>
      if isEnd (checkGameEnd g2)
      then Done (set_cleanups (cleanups s2 ++ [userRoom])
                   (clearAllRoomTimers userRoom
                      (setState r (with_status finished g2) s2)))
                [gameOverEmit userRoom (checkGameEnd g2) (with_status finished g2)]
      else Done s2 [stateEmit (ToRoom userRoom) update_state g2]
  end.
Proof.
intros Hc Hst Hlen Hvalid Hf Hsix Hto entry g1 s1 s2.
unfold make_guess. rewrite Hc.
rewrite decide_False by (by intros ?).
rewrite decide_False by (by intros ?).
rewrite Hvalid, Hf. csimpl.
rewrite decide_False by lia. rewrite Hto.
fold entry. fold g1. fold s1. fold s2.
destruct (heap s2 !! r) as [g2|]; [|done].
by destruct (isEnd (checkGameEnd g2)).
Qed.

(** X12. In a reachable state, a guess that passes every check of
  [make_guess] and whose feedback is all [correct] ends the game at once: the guess is
  appended to the caller's history, the status becomes [finished], the
  room's timers are dropped, the room's deletion is scheduled, and the
  room is sent one [game_over] that names the caller as winner. *)
Theorem winning_guess_ends_game (s : Server) (sock : string) (guess : jsstring)
  (userRoom : string) (r : nat) (g : GameState) (p : PlayerState) :
reachable s →
callerState s sock = Some (userRoom, r, g) → status g = playing →
Z.of_nat (length guess) = wordLength g → isValidWord guess = true →
findPlayer sock (players g) = Some p → length (guesses p) < 6 →
isTimedOut p = false →
allCorrect (evaluateGuess guess (solution g)) = true →
∃ s' g',
  make_guess sock guess s
  = Done s' [gameOverEmit userRoom {| isEnd := true; winnerId := Some sock |} g']
  ∧ heap s' !! r = Some g'
  ∧ status g' = finished ∧ solution g' = solution g
  ∧ players g'
    = updatePlayer sock
        (λ q, with_guesses
                (guesses q ++ [{| guess := toLowerCase guess;
                                  feedback := evaluateGuess guess (solution g) |}]) q)
        (players g)
  ∧ gameTimers s' !! userRoom = None
  ∧ cleanups s' = cleanups s ++ [userRoom]
  ∧ gameRooms s' = gameRooms s.
Proof.
intros Hreach Hc Hst Hlen Hvalid Hf Hsix Hto Hwin.
rewrite (make_guess_accepted sock guess s userRoom r g p) by done.
rewrite Hwin.
pose proof (callerState_member _ _ _ _ _ Hc) as (_ & Hg & _).
assert (Hlt : r < length (heap s)) by by eapply lookup_lt_Some.
rewrite setState_lookup by done.
destruct (inv_states s (reachable_Inv s Hreach) r g Hg) as [_ Hno].
specialize (Hno Hst).
set (entry := {| guess := toLowerCase guess; feedback := _ |}).
set (g1 := with_players _ g).
assert (Hend : checkGameEnd g1 = {| isEnd := true; winnerId := Some sock |}).
{ unfold checkGameEnd, g1. csimpl.
  rewrite (find_lastGuessWins_update sock _ _ p Hno Hf).
  rewrite lastGuessWins_append. csimpl. rewrite Hwin. csimpl.
  by apply findPlayer_Some in Hf as [_ ->]. }
rewrite Hend. csimpl.
eexists _, _. split; [reflexivity|]. csimpl. split_and!; try done.
- apply list_lookup_insert_eq. by rewrite length_insert.
- apply lookup_delete_eq.
Qed.

(** X13. In a reachable state, a guess that passes every check of
  [make_guess] and whose feedback is not all [correct] is appended to the caller's
  history, and the caller's clock is set back to the time limit (to -1
  without a limit); the other players are as they were. The game then goes
  on exactly when some player still has guesses and time left: the room is
  sent [update_state] and, with a time limit, the caller's timer is live
  again; otherwise the game is [finished] without a winner, the room is
  sent [game_over], its timers are dropped and its deletion is scheduled. *)
Theorem wrong_guess_restarts_clock (s : Server) (sock : string) (guess : jsstring)
  (userRoom : string) (r : nat) (g : GameState) (p : PlayerState) :
reachable s →
callerState s sock = Some (userRoom, r, g) → status g = playing →
Z.of_nat (length guess) = wordLength g → isValidWord guess = true →
findPlayer sock (players g) = Some p → length (guesses p) < 6 →
isTimedOut p = false →
allCorrect (evaluateGuess guess (solution g)) = false →
∃ s' out g' p',
  make_guess sock guess s = Done s' out
  ∧ heap s' !! r = Some g'
  ∧ findPlayer sock (players g') = Some p'
  ∧ guesses p' = guesses p ++ [{| guess := toLowerCase guess;
                                  feedback := evaluateGuess guess (solution g) |}]
  ∧ timeRemaining p' = default (-1)%Z (timeLimit g)
  ∧ isTimedOut p' = false
  ∧ (∀ q, q ≠ sock → findPlayer q (players g') = findPlayer q (players g))
  ∧ ((Exists canAct (players g') ∧ status g' = playing
      ∧ out = [stateEmit (ToRoom userRoom) update_state g']
      ∧ (timeLimit g ≠ None → timerRef s' userRoom sock = Some r)
      ∧ cleanups s' = cleanups s)
     ∨ (¬ Exists canAct (players g') ∧ status g' = finished
        ∧ out = [gameOverEmit userRoom {| isEnd := true; winnerId := None |} g']
        ∧ gameTimers s' !! userRoom = None
        ∧ cleanups s' = cleanups s ++ [userRoom])).
Proof.
intros Hreach Hc Hst Hlen Hvalid Hf Hsix Hto Hwrong.
rewrite (make_guess_accepted sock guess s userRoom r g p) by done.
rewrite Hwrong.
pose proof (callerState_member _ _ _ _ _ Hc) as (_ & Hg & _).
assert (Hlt : r < length (heap s)) by by eapply lookup_lt_Some.
destruct (inv_states s (reachable_Inv s Hreach) r g Hg) as [_ Hno].
specialize (Hno Hst).
set (entry := {| guess := toLowerCase guess; feedback := _ |}).
set (g1 := with_players _ g).
set (p1 := with_guesses (guesses p ++ [entry]) p).
assert (Hg1 : heap (setState r g1 s) !! r = Some g1) by by apply setState_lookup.
assert (Hf1 : findPlayer sock (players g1) = Some p1).
{ unfold g1. csimpl. by rewrite findPlayer_updatePlayer, Hf. }
destruct (startPlayerTimer_effect userRoom sock r (setState r g1 s) g1 p1 Hg1 Hf1 Hto)
  as (Hh & Hrooms & _ & Hcl & Hti).
set (s2 := startPlayerTimer userRoom sock r (setState r g1 s)) in *.
set (t := default (-1)%Z (timeLimit g1)) in *.
set (g2 := with_players (updatePlayer sock (with_timeRemaining t) (players g1)) g1) in *.
assert (Hg2 : heap s2 !! r = Some g2).
{ rewrite Hh. apply list_lookup_insert_eq. csimpl. by rewrite length_insert. }
rewrite Hg2.
assert (Hf2 : findPlayer sock (players g2) = Some (with_timeRemaining t p1)).
{ change (players g2) with (updatePlayer sock (with_timeRemaining t) (players g1)).
  rewrite findPlayer_updatePlayer by done. by rewrite Hf1. }
assert (Hothers : ∀ q, q ≠ sock → findPlayer q (players g2) = findPlayer q (players g)).
{ intros q Hq. unfold g2, g1. csimpl. by rewrite !findPlayer_updatePlayer_ne. }
assert (Hno2 : noWinner g2).
{ unfold noWinner, g2, g1. csimpl.
  apply updatePlayer_Forall.
  - apply updatePlayer_Forall; [done|]. intros q Hq Hid _.
    rewrite lastGuessWins_append. exact Hwrong.
  - by intros q _ _ Hq. }
destruct (checkGameEnd_noWinner g2 Hno2) as [Hw Hact].
destruct (checkGameEnd g2) as [e w] eqn:Hend. csimpl in *. subst w.
destruct e.
- eexists _, _, (with_status finished g2), _. split; [reflexivity|].
  csimpl. split_and!; try done.
  + apply list_lookup_insert_eq. rewrite Hh. by rewrite !length_insert.
  + right. split_and!; try done.
    * intros Hex. apply Hact in Hex. done.
    * apply lookup_delete_eq.
    * by rewrite Hcl.
- eexists _, _, g2, _. split; [reflexivity|]. split_and!; try done.
  left. split_and!; try done.
  + by apply Hact.
  + intros Hlim. rewrite Hti. by rewrite decide_True.
Qed.
End Guesses.

(** A has a 30 second limit and guesses the solution "kapak". *)
Lemma winning_guess_ends_game_sample :
  let s := run (H := sampleEnv)
             [CreateRoom "A" "Ayse" (Some (Qc_of_Z 2)) (Some 5%Z) (tl_number 30)
                          "ROOM01" 0 1000%Z;
              JoinRoom "B" "ROOM01" "Berk"] initialServer in
  reachable (H := sampleEnv) s
  ∧ allCorrect (evaluateGuess (H := sampleEnv) (word "kapak") (word "kapak")) = true
  ∧ ∃ s' g',
      make_guess (H := sampleEnv) "A" (word "kapak") s
      = Done s' [gameOverEmit "ROOM01" {| isEnd := true; winnerId := Some "A" |} g']
      ∧ heap s' !! 0 = Some g' ∧ status g' = finished
      ∧ gameTimers s' !! "ROOM01" = None
      ∧ cleanups s' = cleanups s ++ ["ROOM01"].
Proof.
  intros s.
  assert (Hreach : reachable (H := sampleEnv) s)
    by (apply reachable_run; constructor).
  split; [exact Hreach|]. split; [vm_compute; reflexivity|].
  destruct (callerState s "A") as [[[userRoom r] g]|] eqn:Hc; [|by vm_compute in Hc].
  destruct (findPlayer "A" (players g)) as [p|] eqn:Hf.
  2:{ vm_compute in Hc. injection Hc as <- <- <-. by vm_compute in Hf. }
  assert (Hroom : userRoom = "ROOM01" ∧ r = 0)
    by (vm_compute in Hc; by injection Hc as <- <- _).
  destruct Hroom as [-> ->].
  assert (Hst : status g = playing)
    by (vm_compute in Hc; by injection Hc as <-).
  assert (Hwl : Z.of_nat (length (word "kapak")) = wordLength g)
    by (vm_compute in Hc; by injection Hc as <-).
  assert (Hvalid : isValidWord (H := sampleEnv) (word "kapak") = true)
    by (vm_compute; reflexivity).
  assert (Hp : length (guesses p) < 6 ∧ isTimedOut p = false).
  { vm_compute in Hc. injection Hc as <-. vm_compute in Hf. injection Hf as <-.
    split; [vm_compute; lia|reflexivity]. }
  destruct Hp as [Hsix Hto].
  assert (Hwin : allCorrect (evaluateGuess (H := sampleEnv) (word "kapak") (solution g)) = true).
  { vm_compute in Hc. injection Hc as <-. vm_compute. reflexivity. }
  destruct (@winning_guess_ends_game sampleEnv s "A" (word "kapak") "ROOM01" 0 g p
              Hreach Hc Hst Hwl Hvalid Hf Hsix Hto Hwin)
    as (s' & g' & Hm & Hg' & Hfin & _ & _ & Ht & Hcl & _).
  exists s', g'. split_and!; [exact Hm|exact Hg'|exact Hfin|exact Ht|exact Hcl].
Defined.

(** A has a 30 second limit and guesses "kabak" against "kapak". *)
Lemma wrong_guess_restarts_clock_sample :
  let s := run (H := sampleEnv)
             ([CreateRoom "A" "Ayse" (Some (Qc_of_Z 2)) (Some 5%Z) (tl_number 30)
                           "ROOM01" 0 1000%Z;
               JoinRoom "B" "ROOM01" "Berk"]
              ++ replicate 7 (TimerTick "ROOM01" "A")) initialServer in
  reachable (H := sampleEnv) s
  ∧ ∃ g p,
      callerState s "A" = Some ("ROOM01", 0, g)
      ∧ findPlayer "A" (players g) = Some p ∧ timeRemaining p = 23%Z
      ∧ ∃ s' out g' p',
          make_guess (H := sampleEnv) "A" (word "kabak") s = Done s' out
          ∧ heap s' !! 0 = Some g'
          ∧ findPlayer "A" (players g') = Some p'
          ∧ length (guesses p') = 1
          ∧ timeRemaining p' = 30%Z
          ∧ status g' = playing
          ∧ timerRef s' "ROOM01" "A" = Some 0.
Proof.
  intros s.
  assert (Hreach : reachable (H := sampleEnv) s)
    by (apply reachable_run; constructor).
  split; [exact Hreach|].
  destruct (callerState s "A") as [[[userRoom r] g]|] eqn:Hc; [|by vm_compute in Hc].
  destruct (findPlayer "A" (players g)) as [p|] eqn:Hf.
  2:{ vm_compute in Hc. injection Hc as <- <- <-. by vm_compute in Hf. }
  assert (Hroom : userRoom = "ROOM01" ∧ r = 0)
    by (vm_compute in Hc; by injection Hc as <- <- _).
  destruct Hroom as [-> ->].
  assert (Hst : status g = playing)
    by (vm_compute in Hc; by injection Hc as <-).
  assert (Hwl : Z.of_nat (length (word "kabak")) = wordLength g)
    by (vm_compute in Hc; by injection Hc as <-).
  assert (Hlim : timeLimit g = Some 30%Z)
    by (vm_compute in Hc; by injection Hc as <-).
  assert (Hvalid : isValidWord (H := sampleEnv) (word "kabak") = true)
    by (vm_compute; reflexivity).
  assert (Hp : guesses p = [] ∧ isTimedOut p = false ∧ timeRemaining p = 23%Z).
  { vm_compute in Hc. injection Hc as <-. vm_compute in Hf. by injection Hf as <-. }
  destruct Hp as (Hnone & Hto & Htr).
  assert (Hsix : length (guesses p) < 6) by (rewrite Hnone; csimpl; lia).
  assert (Hwrong : allCorrect (evaluateGuess (H := sampleEnv) (word "kabak") (solution g)) = false).
  { vm_compute in Hc. injection Hc as <-. vm_compute. reflexivity. }
  exists g, p. split_and!; [reflexivity|exact Hf|exact Htr|].
  destruct (@wrong_guess_restarts_clock sampleEnv s "A" (word "kabak") "ROOM01" 0 g p
              Hreach Hc Hst Hwl Hvalid Hf Hsix Hto Hwrong)
    as (s' & out & g' & p' & Hm & Hg' & Hf' & Hgs & Htr' & _ & Hothers & Hcase).
  exists s', out, g', p'.
  assert (Hact : Exists canAct (players g')).
  { apply Exists_exists. destruct (findPlayer "B" (players g')) as [q|] eqn:Hq.
    - exists q. split; [by apply findPlayer_Some in Hq as [? _]|].
      rewrite (Hothers "B") in Hq by done.
      vm_compute in Hc. injection Hc as <-. vm_compute in Hq. injection Hq as <-.
      split; [vm_compute; lia|reflexivity].
    - rewrite (Hothers "B") in Hq by done.
      vm_compute in Hc. injection Hc as <-. by vm_compute in Hq. }
  destruct Hcase as [(_ & Hpl & _ & Hti & _)|(Hnot & _)]; [|by destruct Hnot].
  split_and!; [exact Hm|exact Hg'|exact Hf'| | |exact Hpl|].
  - rewrite Hgs, Hnone. reflexivity.
  - rewrite Htr', Hlim. reflexivity.
  - apply Hti. by rewrite Hlim.
Defined.
(** ** Reachable configurations *)

Section Reachable.
Context `{Env}.

(** X14. In every reachable state, every game state ever created has
  [maxPlayers] between 2 and 5 (the clamped argument, which may be a
  fraction), [wordLength] 5, 6 or 7, and [timeLimit] null or one of 30, 35,
  60, 75, 90; its players are fewer than [maxPlayers] + 1. When
  [maxPlayers] is a whole number, the players are never more than
  [maxPlayers], and fewer while the game is [waiting]. When it is not, the
  game is [waiting]: it never starts. *)
Theorem room_configuration_invariant (s : Server) (r : nat) (g : GameState) :
reachable s → heap s !! r = Some g →
((Qc_of_Z 2 ≤ maxPlayers g)%Qc ∧ (maxPlayers g ≤ Qc_of_Z 5)%Qc)
∧ (wordLength g = 5 ∨ wordLength g = 6 ∨ wordLength g = 7)%Z
∧ (timeLimit g = None
   ∨ ∃ t, timeLimit g = Some t ∧ (t = 30 ∨ t = 35 ∨ t = 60 ∨ t = 75 ∨ t = 90)%Z)
∧ (Qc_of_nat (length (players g)) < maxPlayers g + Qc_of_Z 1)%Qc
∧ (∀ n : nat, maxPlayers g = Qc_of_nat n →
     length (players g) ≤ n ∧ (status g = waiting → length (players g) < n))
∧ ((∀ n : nat, maxPlayers g ≠ Qc_of_nat n) → status g = waiting).
Proof.
intros Hreach Hg.
destruct (wired_states s (reachable_Wired s Hreach) r g Hg)
  as [C1 C2 C3 C4 C5 C6].
split_and!; [apply C1|apply C1|exact C2| |exact C4| |].
- destruct (timeLimit g) as [t|] eqn:Hl; [right|by left].
  exists t. split; [done|]. by apply C3.
- intros n Hn. rewrite Hn in C4, C5.
  assert (Hle : length (players g) ≤ n).
  { rewrite <- Qc_of_nat_S in C4. apply Qc_of_nat_lt in C4. lia. }
  split; [done|]. intros Hw. specialize (C5 Hw).
  destruct (decide (length (players g) = n)) as [Heq|Hne]; [|lia].
  exfalso. apply C5. by rewrite Heq.
- intros Hfrac. destruct (decide (status g = waiting)) as [|Hact]; [done|].
  destruct C6 as [n Hn]; [by left|]. by apply Hfrac in Hn.
Qed.

(** X15. In every reachable state, a key of the registry leads to a game
  state whose [roomId] is that key, and a running rematch countdown holds
  the room id of the game state it captured. *)
Theorem registry_keys_are_room_ids (s : Server) :
reachable s →
(∀ k r, (k, r) ∈ gameRooms s → ∃ g, heap s !! r = Some g ∧ roomId g = k)
∧ (∀ cd, cd ∈ countdowns s →
         ∃ g, heap s !! cd_state cd = Some g ∧ roomId g = cd_room cd
              ∧ status g ≠ waiting).
Proof.
intros Hreach. pose proof (reachable_Wired s Hreach) as HW.
pose proof (reachable_Inv s Hreach) as HI. split.
- apply (wired_rooms s HW).
- intros cd Hcd. destruct (wired_countdowns s HW cd Hcd) as (g & Hg & Hroom).
  destruct (inv_countdowns s HI cd Hcd) as (g' & Hg' & Hst).
  exists g. split_and!; [done..|congruence].
Qed.

(** X16. In every reachable state, a live timer of [(room, playerId)] was
  captured on a game state that carries that room id, is not [waiting]
  and has a time limit; the player is still in that state, is not timed
  out, and has between one second and the limit left. *)
Theorem live_timer_is_running (s : Server) (room playerId : string) (r : nat) :
reachable s → timerRef s room playerId = Some r →
∃ g p limit,
  heap s !! r = Some g ∧ roomId g = room ∧ status g ≠ waiting
  ∧ timeLimit g = Some limit
  ∧ findPlayer playerId (players g) = Some p ∧ isTimedOut p = false
  ∧ (1 ≤ timeRemaining p ≤ limit)%Z.
Proof.
intros Hreach Ht.
destruct (wired_timers s (reachable_Wired s Hreach) _ _ _ Ht)
  as (g & p & limit & Hg & Hroom & Hlim & Hf & Hto & Htr).
destruct (inv_timers s (reachable_Inv s Hreach) _ _ _ Ht) as (g' & Hg' & Hst).
exists g, p, limit. split_and!; [done|done|congruence|done|done|done|lia|lia].
Qed.

(** ** One tick of a player's clock *)

(** X17. In a reachable state, a tick of a live timer takes one second from
  that player's clock and reports the new value to that player alone.
  While a second or more is left nothing else changes and the timer stays
  live. When the clock reaches zero the timer is cancelled, the player is
  flagged as timed out with zero seconds left, and is told so. *)
Theorem timerTick_counts_down (s : Server) (room playerId : string) (r : nat) :
reachable s → timerRef s room playerId = Some r →
∃ g p,
  heap s !! r = Some g ∧ findPlayer playerId (players g) = Some p
  ∧ let update := {| target := ToRoom playerId; event := timer_update;
                     payload := JObj [("playerId", JStr playerId);
                                      ("timeRemaining",
                                       JInt (timeRemaining p - 1))] |} in
    let s' := (timerTick room playerId s).1 in
    let out := (timerTick room playerId s).2 in
    ((1 < timeRemaining p)%Z →
     s' = setState r (with_players
            (updatePlayer playerId (with_timeRemaining (timeRemaining p - 1))
                          (players g)) g) s
     ∧ out = [update]
     ∧ timerRef s' room playerId = Some r)
    ∧ (timeRemaining p = 1%Z →
       ∃ g' p',
         heap s' !! r = Some g'
         ∧ findPlayer playerId (players g') = Some p'
         ∧ isTimedOut p' = true ∧ timeRemaining p' = 0%Z
         ∧ guesses p' = guesses p
         ∧ timerRef s' room playerId = None
         ∧ ∃ rest, out = update :: timeoutNotice playerId :: rest).
Proof.
intros Hreach Ht.
destruct (wired_timers s (reachable_Wired s Hreach) _ _ _ Ht)
  as (g & p & limit & Hg & Hroom & Hlim & Hf & Hto & Htr).
exists g, p. split; [done|]. split; [done|]. csimpl. split.
- intros Hmore. unfold timerTick. rewrite Ht, Hg, Hf.
  rewrite decide_False by lia. done.
- intros Hone.
  rewrite (timerTick_expires room playerId r s g p Ht Hg Hf) by lia. csimpl.
  set (g1 := with_players _ g).
  assert (Hlt : r < length (heap s)) by by eapply lookup_lt_Some.
  set (s1 := clearPlayerTimer room playerId (setState r g1 s)).
  assert (Hlen1 : length (heap s1) = length (heap s)).
  { unfold s1, clearPlayerTimer. repeat case_match; csimpl; by rewrite length_insert. }
  assert (Hg1 : heap s1 !! r = Some g1).
  { unfold s1, clearPlayerTimer. repeat case_match; by apply setState_lookup. }
  assert (Hf1 : findPlayer playerId (players g1)
                = Some (with_timeRemaining (timeRemaining p - 1) p)).
  { unfold g1. csimpl. by rewrite findPlayer_updatePlayer, Hf. }
  assert (Hnone : timerRef s1 room playerId = None).
  { unfold s1. rewrite timerRef_clearPlayerTimer. by rewrite decide_True. }
  rewrite (handlePlayerTimeout_found room playerId r s1 g1 _ Hg1 Hf1).
  set (g2 := with_players (updatePlayer playerId (with_isTimedOut true) (players g1)) g1).
  assert (Hf2 : findPlayer playerId (players g2)
                = Some (with_isTimedOut true
                          (with_timeRemaining (timeRemaining p - 1) p))).
  { change (players g2)
      with (updatePlayer playerId (with_isTimedOut true) (players g1)).
    rewrite findPlayer_updatePlayer by done. by rewrite Hf1. }
  destruct (isEnd (checkGameEnd g2)) eqn:Hend; csimpl.
  + eexists (with_status finished g2), _. split_and!.
    * apply list_lookup_insert_eq. by rewrite Hlen1.
    * exact Hf2.
    * done.
    * csimpl. lia.
    * done.
    * change (timerRef (set_cleanups ?c ?x)) with (timerRef x).
      rewrite timerRef_clearAllRoomTimers. case_decide; [done|].
      by rewrite timerRef_setState.
    * by eexists.
  + eexists g2, _. split_and!.
    * apply list_lookup_insert_eq. by rewrite Hlen1.
    * exact Hf2.
    * done.
    * csimpl. lia.
    * done.
    * by rewrite timerRef_setState.
    * by eexists.
Qed.
End Reachable.

(** A room created for three and a half players: the fourth player is let
    in, and the game does not start. *)
Lemma room_configuration_invariant_sample :
  let s := run (H := sampleEnv)
             [CreateRoom "A" "Ayse" (Some (Q2Qc (7 # 2))) (Some 4%Z) (tl_number 45)
                         "ROOM01" 0 1000%Z;
              JoinRoom "B" "ROOM01" "Berk"; JoinRoom "C" "ROOM01" "Cem";
              JoinRoom "D" "ROOM01" "Derya"] initialServer in
  reachable (H := sampleEnv) s
  ∧ ∃ g, heap s !! 0 = Some g
         ∧ maxPlayers g = Q2Qc (7 # 2) ∧ length (players g) = 4
         ∧ ((Qc_of_Z 2 ≤ maxPlayers g)%Qc ∧ (maxPlayers g ≤ Qc_of_Z 5)%Qc)
         ∧ (wordLength g = 5 ∨ wordLength g = 6 ∨ wordLength g = 7)%Z
         ∧ (timeLimit g = None
            ∨ ∃ t, timeLimit g = Some t
                   ∧ (t = 30 ∨ t = 35 ∨ t = 60 ∨ t = 75 ∨ t = 90)%Z)
         ∧ (Qc_of_nat (length (players g)) < maxPlayers g + Qc_of_Z 1)%Qc
         ∧ (∀ n : nat, maxPlayers g = Qc_of_nat n →
              length (players g) ≤ n
              ∧ (status g = waiting → length (players g) < n))
         ∧ ((∀ n : nat, maxPlayers g ≠ Qc_of_nat n) → status g = waiting).
Proof.
  intros s.
  assert (Hreach : reachable (H := sampleEnv) s)
    by (apply reachable_run; constructor).
  split; [exact Hreach|].
  destruct (heap s !! 0) as [g|] eqn:Hg; [|by vm_compute in Hg].
  assert (Hfacts : maxPlayers g = Q2Qc (7 # 2) ∧ length (players g) = 4).
  { vm_compute in Hg. injection Hg as <-. by split. }
  exists g. split; [reflexivity|]. split; [apply Hfacts|]. split; [apply Hfacts|].
  exact (@room_configuration_invariant sampleEnv s 0 g Hreach Hg).
Defined.

Lemma registry_keys_are_room_ids_sample :
  let s := run (H := sampleEnv)
             [CreateRoom "A" "Ayse" (Some (Qc_of_Z 2)) (Some 5%Z) (tl_number 30)
                          "ROOM01" 0 1000%Z;
              JoinRoom "B" "ROOM01" "Berk"] initialServer in
  reachable (H := sampleEnv) s
  ∧ ("ROOM01", 0) ∈ gameRooms s
  ∧ (∀ k r, (k, r) ∈ gameRooms s → ∃ g, heap s !! r = Some g ∧ roomId g = k)
  ∧ (∀ cd, cd ∈ countdowns s →
           ∃ g, heap s !! cd_state cd = Some g ∧ roomId g = cd_room cd
                ∧ status g ≠ waiting).
Proof.
  intros s.
  assert (Hreach : reachable (H := sampleEnv) s)
    by (apply reachable_run; constructor).
  split; [exact Hreach|]. split; [vm_compute; left|].
  exact (@registry_keys_are_room_ids sampleEnv s Hreach).
Defined.

(** The clock of A, seven seconds into the game. *)
Lemma live_timer_is_running_sample :
  let s := run (H := sampleEnv)
             ([CreateRoom "A" "Ayse" (Some (Qc_of_Z 2)) (Some 5%Z) (tl_number 30)
                           "ROOM01" 0 1000%Z;
               JoinRoom "B" "ROOM01" "Berk"]
              ++ replicate 7 (TimerTick "ROOM01" "A")) initialServer in
  reachable (H := sampleEnv) s
  ∧ timerRef s "ROOM01" "A" = Some 0
  ∧ ∃ g p limit,
      heap s !! 0 = Some g ∧ roomId g = "ROOM01" ∧ status g ≠ waiting
      ∧ timeLimit g = Some limit
      ∧ findPlayer "A" (players g) = Some p ∧ isTimedOut p = false
      ∧ (1 ≤ timeRemaining p ≤ limit)%Z.
Proof.
  intros s.
  assert (Hreach : reachable (H := sampleEnv) s)
    by (apply reachable_run; constructor).
  assert (Ht : timerRef s "ROOM01" "A" = Some 0) by (vm_compute; reflexivity).
  split; [exact Hreach|]. split; [exact Ht|].
  exact (@live_timer_is_running sampleEnv s "ROOM01" "A" 0 Hreach Ht).
Defined.

(** The same clock, at its next tick. *)
Lemma timerTick_counts_down_sample :
  let s := run (H := sampleEnv)
             ([CreateRoom "A" "Ayse" (Some (Qc_of_Z 2)) (Some 5%Z) (tl_number 30)
                           "ROOM01" 0 1000%Z;
               JoinRoom "B" "ROOM01" "Berk"]
              ++ replicate 7 (TimerTick "ROOM01" "A")) initialServer in
  reachable (H := sampleEnv) s
  ∧ timerRef s "ROOM01" "A" = Some 0
  ∧ ∃ g p,
      heap s !! 0 = Some g ∧ findPlayer "A" (players g) = Some p
      ∧ timeRemaining p = 23%Z
      ∧ (timerTick "ROOM01" "A" s).2
        = [{| target := ToRoom "A"; event := timer_update;
              payload := JObj [("playerId", JStr "A");
                               ("timeRemaining", JInt (timeRemaining p - 1))] |}]
      ∧ timerRef (timerTick "ROOM01" "A" s).1 "ROOM01" "A" = Some 0.
Proof.
  intros s.
  assert (Hreach : reachable (H := sampleEnv) s)
    by (apply reachable_run; constructor).
  assert (Ht : timerRef s "ROOM01" "A" = Some 0) by (vm_compute; reflexivity).
  split; [exact Hreach|]. split; [exact Ht|].
  destruct (@timerTick_counts_down sampleEnv s "ROOM01" "A" 0 Hreach Ht)
    as (g & p & Hg & Hf & Hmore & _).
  assert (Htr : timeRemaining p = 23%Z).
  { vm_compute in Hg. injection Hg as <-. vm_compute in Hf. by injection Hf as <-. }
  exists g, p. split; [exact Hg|]. split; [exact Hf|]. split; [exact Htr|].
  destruct Hmore as (_ & Hout & Hlive); [rewrite Htr; lia|].
  split; [exact Hout|exact Hlive].
Defined.
(** ** Departure of one player among several *)

Lemma findPlayer_removePlayer_eq sock ps :
  NoDup (id <$> ps) → findPlayer sock (removePlayer sock ps) = None.
Proof.
  induction ps as [|p ps IH]; [done|]. rewrite fmap_cons.
  intros [Hp Hnd]%NoDup_cons. csimpl. case_bool_decide as Hid.
  - apply findPlayer_None. by rewrite <- Hid.
  - unfold findPlayer. csimpl. rewrite bool_decide_eq_false_2 by done. by apply IH.
Qed.

Lemma clearPlayerTimer_heap room playerId s :
  heap (clearPlayerTimer room playerId s) = heap s.
Proof. unfold clearPlayerTimer. by repeat case_match. Qed.

Lemma clearPlayerTimer_gameRooms room playerId s :
  gameRooms (clearPlayerTimer room playerId s) = gameRooms s.
Proof. unfold clearPlayerTimer. by repeat case_match. Qed.

Lemma clearPlayerTimer_cleanups room playerId s :
  cleanups (clearPlayerTimer room playerId s) = cleanups s.
Proof. unfold clearPlayerTimer. by repeat case_match. Qed.

Lemma clearPlayerTimer_countdowns room playerId s :
  countdowns (clearPlayerTimer room playerId s) = countdowns s.
Proof. unfold clearPlayerTimer. by repeat case_match. Qed.

(** X18. In a reachable state, when the room that [disconnect] finds for the
    caller has other players too, the caller alone is removed from it: the
    other players, the status, the registry and the scheduled deletions are
    as before, only the caller's timer of that room is cancelled, and the
    room is sent [player_left] with the new state. The game is not ended. *)
Theorem disconnect_leaves_the_others `{Env} (s : Server) (sock room : string)
    (r : nat) (g : GameState) :
  reachable s →
  roomOf s sock = Some (room, r) → heap s !! r = Some g →
  1 < length (players g) →
  ∃ s' g',
    disconnect sock s = Done s' [stateEmit (ToRoom room) player_left g']
    ∧ heap s' !! r = Some g'
    ∧ players g' = removePlayer sock (players g)
    ∧ findPlayer sock (players g') = None
    ∧ S (length (players g')) = length (players g)
    ∧ (∀ q, q ≠ sock → findPlayer q (players g') = findPlayer q (players g))
    ∧ status g' = status g ∧ solution g' = solution g
    ∧ gameRooms s' = gameRooms s ∧ cleanups s' = cleanups s
    ∧ timerRef s' room sock = None
    ∧ (∀ room' q, room' ≠ room ∨ q ≠ sock →
                  timerRef s' room' q = timerRef s room' q)
    ∧ (∀ r', r' ≠ r → heap s' !! r' = heap s !! r').
Proof.
  intros Hreach Hroom Hg Hmany.
  pose proof (roomOf_Some _ _ _ _ Hroom) as (_ & g0 & Hg0 & Hp).
  assert (g0 = g) as -> by congruence.
  destruct (inv_states s (reachable_Inv s Hreach) r g Hg) as [[_ _ _ Hnd] _].
  assert (Hin : sock ∈ id <$> players g).
  { by apply findPlayer_is_Some, hasPlayer_findPlayer. }
  pose proof (removePlayer_length sock (players g) Hin) as Hlen.
  assert (Hlt : r < length (heap s)) by by eapply lookup_lt_Some.
  unfold disconnect. rewrite Hroom. csimpl. rewrite Hg. csimpl.
  rewrite decide_False by lia.
  eexists _, _. split; [reflexivity|].
  rewrite clearPlayerTimer_heap, clearPlayerTimer_gameRooms, clearPlayerTimer_cleanups.
  csimpl. split_and!; try done.
  - by apply list_lookup_insert_eq.
  - by apply findPlayer_removePlayer_eq.
  - intros q Hq. by apply findPlayer_removePlayer_ne.
  - rewrite timerRef_clearPlayerTimer. by rewrite decide_True.
  - intros room' q Hne. rewrite timerRef_clearPlayerTimer.
    rewrite decide_False; [done|]. intros [-> ->]. by destruct Hne.
  - intros r' Hne. by apply list_lookup_insert_ne.
Qed.

(** ** Asking for a rematch and declining it *)







(** ** Scheduled deletions *)

Lemma startPlayerTimer_cleanups room playerId r s :
  cleanups (startPlayerTimer room playerId r s) = cleanups s.
Proof.
  unfold startPlayerTimer. repeat case_match; csimpl; try done.
  by rewrite clearPlayerTimer_cleanups.
Qed.

Lemma startAllTimers_cleanups room r s :
  cleanups (startAllTimers room r s) = cleanups s.
Proof.
  unfold startAllTimers. destruct (heap s !! r) as [g|]; [|done].
  generalize (id <$> players g). intros ids. revert s.
  induction ids as [|i ids IH]; intros s; csimpl; [done|].
  by rewrite IH, startPlayerTimer_cleanups.
Qed.

Lemma handlePlayerTimeout_cleanups room playerId r s :
  cleanups s `prefix_of` cleanups (handlePlayerTimeout room playerId r s).1.
Proof.
  unfold handlePlayerTimeout, finishGame. repeat case_match; csimpl; try done.
  simplify_eq. csimpl. by apply prefix_app_r.
Qed.

Lemma rooms_get_cons k k0 v m :
  rooms_get k ((k0, v) :: m) = if decide (k0 = k) then Some v else rooms_get k m.
Proof.
  unfold rooms_get. csimpl. case_decide; [done|].
  by destruct (list_find _ m) as [[i kv]|].
Qed.

Lemma rooms_get_delete_ne k k' m :
  k' ≠ k → rooms_get k' (rooms_delete k m) = rooms_get k' m.
Proof.
  intros Hne. unfold rooms_delete. induction m as [|[k0 v] m IH]; [done|].
  rewrite rooms_get_cons. destruct (decide (k0 = k)) as [->|Hk].
  - rewrite filter_cons_False by (csimpl; naive_solver).
    by rewrite decide_False.
  - rewrite filter_cons_True by done. rewrite rooms_get_cons, IH. done.
Qed.

Section Cleanups.
Context `{Env}.

(** X20. No handler cancels a scheduled deletion: whatever the server does
  other than letting a deletion come due, the deletions that were pending
  are still pending afterwards, in the same order; a rematch in the room
  does not take its deletion back. *)
Theorem scheduled_deletions_stay (s : Server) (a : Action) :
(∀ k, a ≠ CleanupFire k) →
cleanups s `prefix_of` cleanups (stateOf (step s a)).
Proof.
intros Hfire.
destruct a as [sock playerName maxP len limit room rnd now|sock room playerName
    |sock word0|sock|sock rnd now|sock|sock|room playerId|k|k]; csimpl.
- unfold create_room. by repeat case_match.
- unfold join_room. repeat case_match; csimpl; try done;
    by rewrite startAllTimers_cleanups.
- unfold make_guess, finishGame.
  destruct (callerState s sock) as [[[userRoom r] g]|]; [|done].
  repeat (case_decide; [done|]).
  destruct (negb (isValidWord word0)); [done|].
  destruct (findPlayer sock (players g)) as [q|]; [|done].
  repeat (case_decide; [done|]).
  destruct (isTimedOut q); [done|].
  set (s2 := if allCorrect _ then _ else _).
  assert (Hs2 : cleanups s2 = cleanups s).
  { unfold s2. destruct (allCorrect _); [done|].
    by rewrite startPlayerTimer_cleanups. }
  destruct (heap s2 !! r) as [g2|]; csimpl; [|by rewrite Hs2].
  destruct (isEnd (checkGameEnd g2)); csimpl; rewrite Hs2; [|done].
  by apply prefix_app_r.
- unfold request_rematch. by repeat case_match.
- unfold accept_rematch. by repeat case_match.
- unfold decline_rematch. by repeat case_match.
- unfold disconnect. repeat case_match; csimpl; try done.
  by rewrite clearPlayerTimer_cleanups.
- unfold timerTick.
  destruct (timerRef s room playerId) as [r|]; [|done].
  destruct (heap s !! r) as [g|]; [|done].
  destruct (findPlayer playerId (players g)) as [q|]; [|done].
  case_decide; [|done].
  match goal with |- context [handlePlayerTimeout ?a ?b ?c ?d] =>
    pose proof (handlePlayerTimeout_cleanups a b c d) as Hpre;
    destruct (handlePlayerTimeout a b c d) as [s' out] end.
  csimpl in *. by rewrite clearPlayerTimer_cleanups in Hpre.
- unfold countdownTick. repeat case_match; csimpl; try done;
    by rewrite startAllTimers_cleanups.
- by destruct (Hfire k).
Qed.

(** X21. When a scheduled deletion comes due, the room with that id leaves
  the registry whatever the status of its game; the other rooms stay, and
  the game states, the timers and the countdowns are not touched. A
  [join_room] with that id is then answered with the room-not-found
  error. *)
Theorem cleanupFire_deletes_room (s : Server) (k : nat) (room : string) :
cleanups s !! k = Some room →
∃ s',
  cleanupFire k s = Done s' []
  ∧ rooms_get room (gameRooms s') = None
  ∧ (∀ room', room' ≠ room →
              rooms_get room' (gameRooms s') = rooms_get room' (gameRooms s))
  ∧ heap s' = heap s ∧ gameTimers s' = gameTimers s
  ∧ countdowns s' = countdowns s
  ∧ cleanups s' = delete k (cleanups s)
  ∧ ∀ sock playerName,
      join_room sock room playerName s' = Done s' [errorTo sock MsgRoomNotFound].
Proof.
intros Hk. unfold cleanupFire. rewrite Hk. eexists. split; [reflexivity|].
csimpl. split_and!; try done.
- apply rooms_get_delete.
- intros room' Hne. by apply rooms_get_delete_ne.
- intros sock playerName. unfold join_room. csimpl. by rewrite rooms_get_delete.
Qed.
End Cleanups.

(** A leaves a two-player game that is being played. *)
Lemma disconnect_leaves_the_others_sample :
  let s := run (H := sampleEnv)
             [CreateRoom "A" "Ayse" (Some (Qc_of_Z 2)) (Some 5%Z) (tl_number 30)
                          "ROOM01" 0 1000%Z;
              JoinRoom "B" "ROOM01" "Berk"] initialServer in
  reachable (H := sampleEnv) s
  ∧ ∃ g, roomOf s "A" = Some ("ROOM01", 0) ∧ heap s !! 0 = Some g
         ∧ length (players g) = 2
         ∧ ∃ s' g',
             disconnect "A" s = Done s' [stateEmit (ToRoom "ROOM01") player_left g']
             ∧ heap s' !! 0 = Some g'
             ∧ findPlayer "A" (players g') = None
             ∧ findPlayer "B" (players g') = findPlayer "B" (players g)
             ∧ status g' = status g
             ∧ gameRooms s' = gameRooms s
             ∧ timerRef s' "ROOM01" "A" = None
             ∧ timerRef s' "ROOM01" "B" = timerRef s "ROOM01" "B".
Proof.
  intros s.
  assert (Hreach : reachable (H := sampleEnv) s)
    by (apply reachable_run; constructor).
  split; [exact Hreach|].
  assert (Hroom : roomOf s "A" = Some ("ROOM01", 0)) by (vm_compute; reflexivity).
  destruct (heap s !! 0) as [g|] eqn:Hg; [|by vm_compute in Hg].
  assert (Htwo : length (players g) = 2)
    by (vm_compute in Hg; by injection Hg as <-).
  assert (Hmany : 1 < length (players g)) by (rewrite Htwo; lia).
  exists g. split_and!; [exact Hroom|reflexivity|exact Htwo|].
  destruct (@disconnect_leaves_the_others sampleEnv s "A" "ROOM01" 0 g
              Hreach Hroom Hg Hmany)
    as (s' & g' & Hd & Hg' & _ & Hgone & _ & Hothers & Hst & _ & Hrooms & _
        & Hnone & Htimers & _).
  exists s', g'.
  split_and!; [exact Hd|exact Hg'|exact Hgone| |exact Hst|exact Hrooms|exact Hnone|].
  - apply Hothers. discriminate.
  - apply Htimers. right. discriminate.
Defined.


(** A has won, B asks for a rematch and A accepts: the deletion that the
    end of the first game scheduled is still pending. *)
Lemma scheduled_deletions_stay_sample :
  let s := run (H := sampleEnv)
             [CreateRoom "A" "Ayse" (Some (Qc_of_Z 2)) (Some 5%Z) (tl_number 30)
                          "ROOM01" 0 1000%Z;
              JoinRoom "B" "ROOM01" "Berk";
              MakeGuess "A" (word "kapak");
              RequestRematch "B"] initialServer in
  cleanups s = ["ROOM01"]
  ∧ (∀ k, AcceptRematch "A" 1 2000%Z ≠ CleanupFire k)
  ∧ cleanups s
    `prefix_of` cleanups (stateOf (step (H := sampleEnv) s (AcceptRematch "A" 1 2000%Z))).
Proof.
  intros s.
  assert (Hfire : ∀ k, AcceptRematch "A" 1 2000%Z ≠ CleanupFire k) by discriminate.
  split; [reflexivity|]. split; [exact Hfire|].
  exact (@scheduled_deletions_stay sampleEnv s (AcceptRematch "A" 1 2000%Z) Hfire).
Defined.

(** The rematch of the previous sample is being played when the deletion
    comes due. *)
Lemma cleanupFire_deletes_room_sample :
  let s := run (H := sampleEnv)
             [CreateRoom "A" "Ayse" (Some (Qc_of_Z 2)) (Some 5%Z) (tl_number 30)
                          "ROOM01" 0 1000%Z;
              JoinRoom "B" "ROOM01" "Berk";
              MakeGuess "A" (word "kapak");
              RequestRematch "B";
              AcceptRematch "A" 1 2000%Z] initialServer in
  cleanups s !! 0 = Some "ROOM01"
  ∧ status <$> heap s !! 0 = Some playing
  ∧ ∃ s',
      cleanupFire 0 s = Done s' []
      ∧ rooms_get "ROOM01" (gameRooms s') = None
      ∧ heap s' = heap s ∧ gameTimers s' = gameTimers s
      ∧ countdowns s' = countdowns s
      ∧ ∀ sock playerName,
          join_room sock "ROOM01" playerName s'
          = Done s' [errorTo sock MsgRoomNotFound].
Proof.
  intros s.
  assert (Hk : cleanups s !! 0 = Some "ROOM01") by (vm_compute; reflexivity).
  split; [exact Hk|]. split; [vm_compute; reflexivity|].
  destruct (cleanupFire_deletes_room s 0 "ROOM01" Hk)
    as (s' & Hf & Hgone & _ & Hh & Ht & Hc & _ & Hjoin).
  exists s'. split_and!; [exact Hf|exact Hgone|exact Hh|exact Ht|exact Hc|exact Hjoin].
Defined.
(** ** The rematch countdown *)

Section Countdown.
Context `{Env}.

(** A firing of the countdown that was started last, while seconds remain. *)
Lemma countdownTick_waits s l cd :
countdowns s = l ++ [cd] → (1 ≤ cd_count cd)%Z →
countdownTick (length l) s
= Done (set_countdowns
          (l ++ [{| cd_room := cd_room cd; cd_state := cd_state cd;
                    cd_count := cd_count cd - 1 |}]) s)
       [countdownEmit (cd_room cd) (cd_count cd)].
Proof.
intros Hl Hc. unfold countdownTick. rewrite Hl, list_lookup_middle by done.
rewrite decide_False by lia.
rewrite insert_app_r_alt, Nat.sub_diag by lia. done.
Qed.

(** Its firing at zero. *)
Lemma countdownTick_fires s l cd :
countdowns s = l ++ [cd] → (cd_count cd ≤ 0)%Z →
countdownTick (length l) s
= let s2 := startAllTimers (cd_room cd) (cd_state cd) (set_countdowns l s) in
  match heap s2 !! cd_state cd with
  | Some g => Done s2 [countdownEmit (cd_room cd) (cd_count cd);
                       stateEmit (ToRoom (cd_room cd)) game_start g]
  | None => Done s2 [countdownEmit (cd_room cd) (cd_count cd)]
  end.
Proof.
intros Hl Hc. unfold countdownTick. rewrite Hl, list_lookup_middle by done.
rewrite decide_True by lia.
rewrite delete_middle, app_nil_r. done.
Qed.

Lemma startAllTimers_countdowns room r s :
countdowns (startAllTimers room r s) = countdowns s.
Proof.
unfold startAllTimers. destruct (heap s !! r) as [g|]; [|done].
generalize (id <$> players g). intros ids. revert s.
induction ids as [|i ids IH]; intros s; csimpl; [done|].
by rewrite IH, startPlayerTimer_countdowns.
Qed.

(** X22. In a reachable state, after an [accept_rematch] that succeeds, the
  countdown it started fires four times when nothing else happens in
  between: the room is sent [rematch_countdown] with 3, 2, 1 and 0 seconds;
  the first three firings change nothing but the counter; the fourth ends
  the countdown, starts the clock of every player (a live timer each, or
  -1 on every clock without a time limit) and sends [game_start] with the
  state of the new game, which is [playing]. *)
Theorem rematch_countdown_runs (s : Server) (sock : string) (rnd : nat) (now : Z)
  (userRoom : string) (r : nat) (g : GameState) (rq : RematchRequest) :
reachable s →
callerState s sock = Some (userRoom, r, g) →
rematchRequest g = Some rq → requested rq = true → requesterId rq ≠ sock →
let k := length (countdowns s) in
∃ s0 s1 s2 s3 s4 g',
  accept_rematch sock rnd now s
  = Done s0 [{| target := ToRoom userRoom; event := rematch_accepted;
                payload := JUndefined |}]
  ∧ countdownTick k s0 = Done s1 [countdownEmit userRoom 3]
  ∧ countdownTick k s1 = Done s2 [countdownEmit userRoom 2]
  ∧ countdownTick k s2 = Done s3 [countdownEmit userRoom 1]
  ∧ countdownTick k s3
    = Done s4 [countdownEmit userRoom 0; stateEmit (ToRoom userRoom) game_start g']
  ∧ (heap s1 = heap s0 ∧ heap s2 = heap s0 ∧ heap s3 = heap s0)
  ∧ (gameTimers s1 = gameTimers s ∧ gameTimers s2 = gameTimers s
     ∧ gameTimers s3 = gameTimers s)
  ∧ countdowns s4 = countdowns s
  ∧ heap s4 !! r = Some g' ∧ status g' = playing
  ∧ ∀ p, p ∈ players g' →
         match timeLimit g' with
         | Some _ => timerRef s4 userRoom (id p) = Some r
         | None => timeRemaining p = (-1)%Z
         end.
Proof.
intros Hreach Hc Hrq Hreq Hother k.
pose proof (reachable_Inv s Hreach) as HI.
pose proof (callerState_member _ _ _ _ _ Hc) as (_ & Hg & _).
destruct (inv_states s HI r g Hg) as [[_ (words & Hwords & Hne) _ Hnd] _].
destruct (getRandomWord_listed (wordLength g) rnd words Hwords Hne)
  as (w & Hrand & _).
assert (Hlt : r < length (heap s)) by by eapply lookup_lt_Some.
unfold accept_rematch. rewrite Hc, Hrq, Hreq. csimpl.
rewrite decide_False by done. rewrite Hrand.
set (g2 := {| roomId := roomId g; players := resetPlayer (timeLimit g) <$> players g;
              maxPlayers := maxPlayers g; wordLength := wordLength g;
              timeLimit := timeLimit g; status := playing; solution := w;
              createdAt := now; rematchRequest := None |}).
set (cd := λ n, {| cd_room := userRoom; cd_state := r; cd_count := n |}).
set (s0 := set_countdowns (countdowns s ++ [cd 3%Z]) (setState r g2 s)).
set (s1 := set_countdowns (countdowns s ++ [cd 2%Z]) s0).
set (s2 := set_countdowns (countdowns s ++ [cd 1%Z]) s1).
set (s3 := set_countdowns (countdowns s ++ [cd 0%Z]) s2).
set (s3' := set_countdowns (countdowns s) s3).
assert (Hg2 : heap s3' !! r = Some g2) by by apply list_lookup_insert_eq.
destruct (startAllTimers_everyone userRoom r s3' g2 Hg2) as (g' & Hg' & Htl & Hall).
{ csimpl. rewrite <- list_fmap_compose. exact Hnd. }
{ csimpl. apply Forall_fmap, Forall_forall. by intros p _. }
exists s0, s1, s2, s3, (startAllTimers userRoom r s3'), g'.
split; [reflexivity|].
split; [exact (countdownTick_waits s0 (countdowns s) (cd 3%Z) eq_refl ltac:(csimpl; lia))|].
split; [exact (countdownTick_waits s1 (countdowns s) (cd 2%Z) eq_refl ltac:(csimpl; lia))|].
split; [exact (countdownTick_waits s2 (countdowns s) (cd 1%Z) eq_refl ltac:(csimpl; lia))|].
split.
{ pose proof (countdownTick_fires s3 (countdowns s) (cd 0%Z) eq_refl
                ltac:(csimpl; lia)) as Hfire.
  csimpl in Hfire. fold s3' in Hfire. by rewrite Hg' in Hfire. }
split; [done|]. split; [done|].
split; [by rewrite startAllTimers_countdowns|].
split; [done|]. split; [by rewrite (timeless_status _ _ Htl)|done].
Qed.
End Countdown.

(** A wins the first game, B asks for a rematch, A accepts. *)
Lemma rematch_countdown_runs_sample :
  let s := run (H := sampleEnv)
             [CreateRoom "A" "Ayse" (Some (Qc_of_Z 2)) (Some 5%Z) (tl_number 30)
                          "ROOM01" 0 1000%Z;
              JoinRoom "B" "ROOM01" "Berk";
              MakeGuess "B" (word "kitap");
              MakeGuess "A" (word "kapak");
              RequestRematch "B"] initialServer in
  reachable (H := sampleEnv) s
  ∧ ∃ g rq,
      callerState s "A" = Some ("ROOM01", 0, g)
      ∧ rematchRequest g = Some rq ∧ requested rq = true ∧ requesterId rq = "B"
      ∧ ∃ s0 s1 s2 s3 s4 g',
          stateOf (accept_rematch (H := sampleEnv) "A" 1 2000%Z s) = s0
          ∧ countdownTick 0 s0 = Done s1 [countdownEmit "ROOM01" 3]
          ∧ countdownTick 0 s1 = Done s2 [countdownEmit "ROOM01" 2]
          ∧ countdownTick 0 s2 = Done s3 [countdownEmit "ROOM01" 1]
          ∧ countdownTick 0 s3
            = Done s4 [countdownEmit "ROOM01" 0;
                       stateEmit (ToRoom "ROOM01") game_start g']
          ∧ heap s4 !! 0 = Some g' ∧ status g' = playing
          ∧ ∀ p, p ∈ players g' →
                 match timeLimit g' with
                 | Some _ => timerRef s4 "ROOM01" (id p) = Some 0
                 | None => timeRemaining p = (-1)%Z
                 end.
Proof.
  intros s.
  assert (Hreach : reachable (H := sampleEnv) s)
    by (apply reachable_run; constructor).
  split; [exact Hreach|].
  destruct (callerState s "A") as [[[userRoom r] g]|] eqn:Hc; [|by vm_compute in Hc].
  destruct (rematchRequest g) as [rq|] eqn:Hrq.
  2:{ vm_compute in Hc. injection Hc as <- <- <-. by vm_compute in Hrq. }
  assert (Hroom : userRoom = "ROOM01" ∧ r = 0)
    by (vm_compute in Hc; by injection Hc as <- <- _).
  destruct Hroom as [-> ->].
  assert (Hrq' : requested rq = true ∧ requesterId rq = "B").
  { vm_compute in Hc. injection Hc as <-. vm_compute in Hrq. by injection Hrq as <-. }
  destruct Hrq' as [Hreq Hby].
  assert (Hother : requesterId rq ≠ "A") by (by rewrite Hby).
  assert (Hk : length (countdowns s) = 0) by (vm_compute; reflexivity).
  exists g, rq. split_and!; [reflexivity|exact Hrq|exact Hreq|exact Hby|].
  destruct (@rematch_countdown_runs sampleEnv s "A" 1 2000%Z "ROOM01" 0 g rq
              Hreach Hc Hrq Hreq Hother)
    as (s0 & s1 & s2 & s3 & s4 & g' & Ha & H3 & H2 & H1 & H0 & _ & _ & _ & Hg' & Hst & Hall).
  rewrite Hk in H3, H2, H1, H0.
  exists s0, s1, s2, s3, s4, g'.
  split_and!; [by rewrite Ha|exact H3|exact H2|exact H1|exact H0|exact Hg'|exact Hst|exact Hall].
Defined.
(** ** Histories and timed-out flags *)

Lemma recordKept_refl p : recordKept p p.
Proof. by split_and!. Qed.

Lemma recordKept_trans p1 p2 p3 : recordKept p1 p2 → recordKept p2 p3 → recordKept p1 p3.
Proof.
  intros (A1 & A2 & A3) (B1 & B2 & B3). split_and!; [congruence|by etrans|auto].
Qed.

Lemma Forall2_recordKept_refl ps : Forall2 recordKept ps ps.
Proof. apply Forall2_same_length_lookup. split; [done|]. intros i p q Hp Hq.
  assert (p = q) as -> by congruence. apply recordKept_refl. Qed.

Lemma Forall2_recordKept_trans ps1 ps2 ps3 :
  Forall2 recordKept ps1 ps2 → Forall2 recordKept ps2 ps3 → Forall2 recordKept ps1 ps3.
Proof. apply Forall2_trans. intros p1 p2 p3. apply recordKept_trans. Qed.

Lemma updatePlayer_recordKept playerId f ps :
  (∀ p, recordKept p (f p)) → Forall2 recordKept ps (updatePlayer playerId f ps).
Proof.
  intros Hf. induction ps as [|p ps IH]; [constructor|]. csimpl.
  case_bool_decide; constructor; try done;
    first [apply Forall2_recordKept_refl|apply recordKept_refl].
Qed.

Lemma timeless_recordKept g g' :
  timeless g = timeless g' → Forall2 recordKept (players g) (players g').
Proof.
  intros Heq%timeless_players. revert Heq.
  generalize (players g') as ps'.
  induction (players g) as [|p ps IH]; intros [|p' ps'] Heq; csimpl in *;
    try done; try by constructor.
  injection Heq as Hp Hps. constructor; [|by apply IH].
  destruct p, p'. unfold with_timeRemaining in Hp. csimpl in *.
  simplify_eq. by split_and!.
Qed.

Lemma findPlayer_recordKept playerId ps ps' p p' :
  Forall2 recordKept ps ps' →
  findPlayer playerId ps = Some p → findPlayer playerId ps' = Some p' →
  recordKept p p'.
Proof.
  unfold findPlayer. induction 1 as [|q q' ps ps' Hq _ IH]; [done|]. csimpl.
  destruct Hq as (Hid & Hrest). rewrite Hid.
  case_bool_decide; [|done]. intros [= <-] [= <-]. by split.
Qed.

Lemma keepsRecords_refl g : keepsRecords g g.
Proof.
  intros playerId p p' Hp Hp'. assert (p = p') as -> by congruence.
  apply recordKept_refl.
Qed.

Lemma keepsRecords_Forall2 g g' :
  Forall2 recordKept (players g) (players g') → keepsRecords g g'.
Proof. intros HF playerId p p'. by apply findPlayer_recordKept. Qed.

(** Other game states are as they were. *)
Lemma keepsRecords_heap (h h' : list GameState) r g g' :
  (∀ r', r' ≠ r → h' !! r' = h !! r') → h !! r = Some g → h' !! r = Some g' →
  keepsRecords g g' →
  ∀ r0 g0 g0', h !! r0 = Some g0 → h' !! r0 = Some g0' → keepsRecords g0 g0'.
Proof.
  intros T1 Hg Hg' Hkeep r0 g0 g0' Hg0 Hg0'.
  destruct (decide (r0 = r)) as [->|Hne].
  - by simplify_eq.
  - rewrite T1 in Hg0' by done. simplify_eq. apply keepsRecords_refl.
Qed.

Lemma keepsRecords_same s s' :
  heap s' = heap s →
  ∀ r0 g0 g0', heap s !! r0 = Some g0 → heap s' !! r0 = Some g0' →
               keepsRecords g0 g0'.
Proof.
  intros Hh r0 g0 g0' Hg0 Hg0'. rewrite Hh in Hg0'. simplify_eq.
  apply keepsRecords_refl.
Qed.

Section Records.
Context `{Env}.

Lemma handlePlayerTimeout_records room playerId r s g :
heap s !! r = Some g →
touches r s (handlePlayerTimeout room playerId r s).1
∧ ∃ g', heap (handlePlayerTimeout room playerId r s).1 !! r = Some g'
        ∧ Forall2 recordKept (players g) (players g').
Proof.
intros Hg. unfold handlePlayerTimeout, finishGame. rewrite Hg.
assert (Hlt : r < length (heap s)) by by eapply lookup_lt_Some.
destruct (findPlayer playerId (players g)) as [p|] eqn:Hf.
2:{ split; [apply touches_refl|]. exists g. split; [done|].
    apply Forall2_recordKept_refl. }
set (g1 := with_players _ g).
assert (Hk : Forall2 recordKept (players g) (players g1)).
{ unfold g1. csimpl. apply updatePlayer_recordKept. intros q. by split_and!. }
destruct (isEnd (checkGameEnd g1)); csimpl.
- split.
  + eapply touches_trans; [apply touches_setState|].
    eapply touches_trans; [apply touches_clearAllRoomTimers|].
    apply touches_set_cleanups.
  + exists (with_status finished g1). split; [by apply list_lookup_insert_eq|done].
- split; [apply touches_setState|]. exists g1. split; [|done].
  by apply list_lookup_insert_eq.
Qed.

(** X23. In a reachable state, whatever the server does other than accepting
  a rematch, a player who is in a game before and after keeps their
  record: the guesses made so far stay, in order, at the start of the
  history, and a timed-out flag that was set stays set. *)
Theorem records_kept_until_rematch (s : Server) (a : Action) (r : nat)
  (g g' : GameState) (playerId : string) (p p' : PlayerState) :
reachable s → (∀ sock rnd now, a ≠ AcceptRematch sock rnd now) →
heap s !! r = Some g → heap (stateOf (step s a)) !! r = Some g' →
findPlayer playerId (players g) = Some p →
findPlayer playerId (players g') = Some p' →
guesses p `prefix_of` guesses p' ∧ (isTimedOut p = true → isTimedOut p' = true).
Proof.
intros Hreach Hnot Hg Hg' Hp Hp'.
cut (keepsRecords g g'); [intros Hk; by destruct (Hk _ _ _ Hp Hp') as (_ & ? & ?)|].
clear Hp Hp' p p' playerId. revert r g g' Hg Hg'.
pose proof (reachable_Inv s Hreach) as HI.
destruct a as [sock playerName maxP len limit room rnd now|sock room playerName
    |sock word0|sock|sock rnd now|sock|sock|room playerId|k|k]; csimpl.
- (* create_room *)
  intros r g g' Hg. unfold create_room. case_match; csimpl.
  + rewrite lookup_app_l by by eapply lookup_lt_Some.
    intros. simplify_eq. apply keepsRecords_refl.
  + intros. simplify_eq. apply keepsRecords_refl.
- (* join_room *)
  unfold join_room.
  destruct (rooms_get room (gameRooms s)) as [r1|] eqn:Hr;
    [|by apply keepsRecords_same]. csimpl.
  destruct (heap s !! r1) as [g1|] eqn:Hg1; [|by apply keepsRecords_same]. csimpl.
  destruct (findPlayer sock (players g1)) as [q|] eqn:Hf;
    [by apply keepsRecords_same|].
  case_decide; [by apply keepsRecords_same|].
  case_decide; [by apply keepsRecords_same|].
  assert (Hlt : r1 < length (heap s)) by by eapply lookup_lt_Some.
  set (g2 := with_players _ g1).
  assert (Hk2 : keepsRecords g1 g2).
  { intros pid p p' Hp. unfold g2. csimpl. rewrite findPlayer_app, Hp.
    intros [= <-]. apply recordKept_refl. }
  case_decide.
  + set (s1 := setState r1 (with_status playing g2) (setState r1 g2 s)).
    assert (Hgs1 : heap s1 !! r1 = Some (with_status playing g2)).
    { apply setState_lookup. csimpl. by rewrite length_insert. }
    destruct (startAllTimers_timeless room r1 s1 _ Hgs1) as (Ht & g3 & Hg3 & Htl).
    rewrite Hg3.
    apply (keepsRecords_heap (heap s) (heap (startAllTimers room r1 s1)) r1 g1 g3);
      [|done|done|].
    * intros r' Hne. rewrite (touches_heap _ _ _ Ht) by done. unfold s1. csimpl.
      by rewrite !list_lookup_insert_ne.
    * intros pid p p' Hp Hp'.
      assert (Hp2 : findPlayer pid (players g2) = Some p).
      { unfold g2. csimpl. by rewrite findPlayer_app, Hp. }
      eapply (findPlayer_recordKept pid (players g2) (players g3)); [|done..].
      apply (timeless_recordKept (with_status playing g2) g3). by symmetry.
  + apply (keepsRecords_heap (heap s) (<[r1 := g2]> (heap s)) r1 g1 g2);
      [|done| |done].
    * intros r' Hne. by rewrite list_lookup_insert_ne.
    * by apply list_lookup_insert_eq.
- (* make_guess *)
  unfold make_guess.
  destruct (callerState s sock) as [[[userRoom r1] g1]|] eqn:Hc;
    [|by apply keepsRecords_same].
  apply callerState_member in Hc as (Hin & Hg1 & Hpl).
  case_decide; [by apply keepsRecords_same|].
  case_decide; [by apply keepsRecords_same|].
  destruct (negb (isValidWord word0)); [by apply keepsRecords_same|].
  destruct (findPlayer sock (players g1)) as [q|] eqn:Hf;
    [|by apply keepsRecords_same].
  case_decide; [by apply keepsRecords_same|].
  destruct (isTimedOut q) eqn:Hto; [by apply keepsRecords_same|].
  assert (Hlt : r1 < length (heap s)) by by eapply lookup_lt_Some.
  set (entry := {| guess := toLowerCase word0; feedback := _ |}).
  set (g2 := with_players _ g1).
  assert (Hk2 : Forall2 recordKept (players g1) (players g2)).
  { unfold g2. csimpl. apply updatePlayer_recordKept. intros q'.
    split_and!; [done| |done]. csimpl. by apply prefix_app_r. }
  set (s2 := if allCorrect _ then setState r1 g2 s
             else startPlayerTimer userRoom sock r1 (setState r1 g2 s)).
  assert (Hs2 : touches r1 s s2
                ∧ ∃ g3, heap s2 !! r1 = Some g3 ∧ timeless g3 = timeless g2).
  { unfold s2. destruct (allCorrect _).
    - split; [apply touches_setState|]. exists g2. split; [by apply setState_lookup|done].
    - split.
      + eapply touches_trans; [apply touches_setState|apply touches_startPlayerTimer].
      + apply startPlayerTimer_timeless. by apply setState_lookup. }
  destruct Hs2 as (Ht2 & g3 & Hg3 & Htl). rewrite Hg3.
  assert (Hk3 : Forall2 recordKept (players g1) (players g3)).
  { eapply Forall2_recordKept_trans; [exact Hk2|].
    apply timeless_recordKept. by symmetry. }
  destruct (isEnd (checkGameEnd g3)).
  + apply (keepsRecords_heap (heap s)
             (<[r1 := with_status finished g3]> (heap s2)) r1 g1
             (with_status finished g3)); [|done| |].
    * intros r' Hne. rewrite list_lookup_insert_ne by done.
      by apply (touches_heap _ _ _ Ht2).
    * apply list_lookup_insert_eq. by eapply lookup_lt_Some.
    * by apply keepsRecords_Forall2.
  + apply (keepsRecords_heap (heap s) (heap s2) r1 g1 g3); [|done..|].
    * intros r' Hne. by apply (touches_heap _ _ _ Ht2).
    * by apply keepsRecords_Forall2.
- (* request_rematch *)
  unfold request_rematch.
  destruct (callerState s sock) as [[[userRoom r1] g1]|] eqn:Hc;
    [|by apply keepsRecords_same].
  apply callerState_member in Hc as (Hin & Hg1 & Hpl).
  case_decide; [by apply keepsRecords_same|].
  case_decide; [by apply keepsRecords_same|].
  eapply (keepsRecords_heap (heap s) _ r1 g1); [|done| |].
  + intros r' Hne. csimpl. by rewrite list_lookup_insert_ne.
  + csimpl. apply list_lookup_insert_eq. by eapply lookup_lt_Some.
  + apply keepsRecords_Forall2. csimpl. apply Forall2_recordKept_refl.
- (* accept_rematch *)
  by destruct (Hnot sock rnd now).
- (* decline_rematch *)
  unfold decline_rematch.
  destruct (callerState s sock) as [[[userRoom r1] g1]|] eqn:Hc;
    [|by apply keepsRecords_same].
  apply callerState_member in Hc as (Hin & Hg1 & Hpl).
  destruct (rematchRequest g1) as [rq|]; [|by apply keepsRecords_same].
  destruct (negb (requested rq)); [by apply keepsRecords_same|].
  eapply (keepsRecords_heap (heap s) _ r1 g1); [|done| |].
  + intros r' Hne. csimpl. by rewrite list_lookup_insert_ne.
  + csimpl. apply list_lookup_insert_eq. by eapply lookup_lt_Some.
  + apply keepsRecords_Forall2. csimpl. apply Forall2_recordKept_refl.
- (* disconnect *)
  unfold disconnect.
  destruct (roomOf s sock) as [[room r1]|] eqn:Hr; [|by apply keepsRecords_same].
  csimpl. apply roomOf_Some in Hr as (Hin & g1 & Hg1 & Hpl). rewrite Hg1. csimpl.
  destruct (inv_states s HI r1 g1 Hg1) as [[_ _ _ Hnd] _].
  assert (Hlt : r1 < length (heap s)) by by eapply lookup_lt_Some.
  set (g2 := with_players _ g1).
  assert (Hk2 : keepsRecords g1 g2).
  { intros pid p p' Hp. unfold g2. csimpl.
    destruct (decide (pid = sock)) as [->|Hne].
    - by rewrite findPlayer_removePlayer_eq.
    - rewrite findPlayer_removePlayer_ne, Hp by done.
      intros [= <-]. apply recordKept_refl. }
  case_decide.
  + apply (keepsRecords_heap (heap s) (<[r1 := g2]> (heap s)) r1 g1 g2);
      [|done| |done].
    * intros r' Hne. by rewrite list_lookup_insert_ne.
    * by apply list_lookup_insert_eq.
  + eapply (keepsRecords_heap (heap s) _ r1 g1 g2); [|done| |done].
    * intros r' Hne. cbn [stateOf]. rewrite clearPlayerTimer_heap. csimpl.
      by rewrite list_lookup_insert_ne.
    * cbn [stateOf]. rewrite clearPlayerTimer_heap. by apply list_lookup_insert_eq.
- (* timerTick *)
  unfold timerTick.
  destruct (timerRef s room playerId) as [r1|] eqn:Ht; [|by apply keepsRecords_same].
  destruct (heap s !! r1) as [g1|] eqn:Hg1; [|by apply keepsRecords_same].
  destruct (findPlayer playerId (players g1)) as [q|] eqn:Hf;
    [|by apply keepsRecords_same].
  assert (Hlt : r1 < length (heap s)) by by eapply lookup_lt_Some.
  set (g2 := with_players _ g1).
  assert (Hk2 : Forall2 recordKept (players g1) (players g2)).
  { apply timeless_recordKept. symmetry. apply timeless_update. }
  case_decide.
  + set (s1 := clearPlayerTimer room playerId (setState r1 g2 s)).
    assert (Hgs1 : heap s1 !! r1 = Some g2).
    { unfold s1. rewrite clearPlayerTimer_heap. by apply setState_lookup. }
    destruct (handlePlayerTimeout_records room playerId r1 s1 g2 Hgs1)
      as (Ht3 & g3 & Hg3 & Hk3).
    destruct (handlePlayerTimeout room playerId r1 s1) as [s' out]. csimpl in *.
    apply (keepsRecords_heap (heap s) (heap s') r1 g1 g3); [|done|done|].
    * intros r' Hne. rewrite (touches_heap _ _ _ Ht3) by done.
      unfold s1. rewrite clearPlayerTimer_heap. csimpl.
      by rewrite list_lookup_insert_ne.
    * apply keepsRecords_Forall2. by eapply Forall2_recordKept_trans.
  + apply (keepsRecords_heap (heap s) (<[r1 := g2]> (heap s)) r1 g1 g2);
      [|done| |].
    * intros r' Hne. by rewrite list_lookup_insert_ne.
    * by apply list_lookup_insert_eq.
    * by apply keepsRecords_Forall2.
- (* countdownTick *)
  unfold countdownTick.
  destruct (countdowns s !! k) as [cd|] eqn:Hk; [|by apply keepsRecords_same].
  destruct (inv_countdowns s HI cd) as (g1 & Hg1 & _);
    [by eapply list_elem_of_lookup_2|].
  case_decide; [|by apply keepsRecords_same].
  set (s1 := set_countdowns _ s).
  destruct (startAllTimers_timeless (cd_room cd) (cd_state cd) s1 g1 Hg1)
    as (Ht & g2 & Hg2 & Htl).
  rewrite Hg2.
  apply (keepsRecords_heap (heap s)
           (heap (startAllTimers (cd_room cd) (cd_state cd) s1))
           (cd_state cd) g1 g2); [|done..|].
  + intros r' Hne. by rewrite (touches_heap _ _ _ Ht).
  + apply keepsRecords_Forall2, timeless_recordKept. by symmetry.
- (* cleanupFire *)
  unfold cleanupFire. destruct (cleanups s !! k); by apply keepsRecords_same.
Qed.
End Records.

(** B has guessed "kitap" and A guesses "kabak": B's record is as it was. *)
Lemma records_kept_until_rematch_sample :
  let s := run (H := sampleEnv)
             [CreateRoom "A" "Ayse" (Some (Qc_of_Z 2)) (Some 5%Z) (tl_number 30)
                          "ROOM01" 0 1000%Z;
              JoinRoom "B" "ROOM01" "Berk";
              MakeGuess "B" (word "kitap")] initialServer in
  let a := MakeGuess "A" (word "kabak") in
  reachable (H := sampleEnv) s
  ∧ (∀ sock rnd now, a ≠ AcceptRematch sock rnd now)
  ∧ ∃ g g' p p',
      heap s !! 0 = Some g
      ∧ heap (stateOf (step (H := sampleEnv) s a)) !! 0 = Some g'
      ∧ findPlayer "B" (players g) = Some p
      ∧ findPlayer "B" (players g') = Some p'
      ∧ length (guesses p) = 1
      ∧ guesses p `prefix_of` guesses p'
      ∧ (isTimedOut p = true → isTimedOut p' = true).
Proof.
  intros s a.
  assert (Hreach : reachable (H := sampleEnv) s)
    by (apply reachable_run; constructor).
  assert (Hnot : ∀ sock rnd now, a ≠ AcceptRematch sock rnd now) by discriminate.
  split; [exact Hreach|]. split; [exact Hnot|].
  destruct (heap s !! 0) as [g|] eqn:Hg; [|by vm_compute in Hg].
  destruct (heap (stateOf (step (H := sampleEnv) s a)) !! 0) as [g'|] eqn:Hg';
    [|by vm_compute in Hg'].
  destruct (findPlayer "B" (players g)) as [p|] eqn:Hp.
  2:{ vm_compute in Hg. injection Hg as <-. by vm_compute in Hp. }
  destruct (findPlayer "B" (players g')) as [p'|] eqn:Hp'.
  2:{ vm_compute in Hg'. injection Hg' as <-. by vm_compute in Hp'. }
  assert (Hone : length (guesses p) = 1).
  { vm_compute in Hg. injection Hg as <-. vm_compute in Hp. by injection Hp as <-. }
  exists g, g', p, p'.
  split_and!; [reflexivity|reflexivity|exact Hp|exact Hp'|exact Hone|..];
    apply (@records_kept_until_rematch sampleEnv s a 0 g g' "B" p p'
             Hreach Hnot Hg Hg' Hp Hp').
Defined.
(** ** The life cycle of a game *)

Lemma statusMove_refl a g : statusMove a g g.
Proof. left. split; [done|by left]. Qed.

Lemma statusMove_same a g g' :
  status g' = status g → rematchRequest g' = rematchRequest g → statusMove a g g'.
Proof. intros Hs Hr. left. split; [done|by left]. Qed.

Lemma timeless_rematchRequest g g' :
  timeless g = timeless g' → rematchRequest g = rematchRequest g'.
Proof. intros Heq. by apply (f_equal rematchRequest) in Heq. Qed.

(** A relation that holds of every unchanged state holds across a step that
    rewrites one game state. *)
Lemma heap_frame (P : GameState → GameState → Prop) (h h' : list GameState) r g g' :
  (∀ g0, P g0 g0) →
  (∀ r', r' ≠ r → h' !! r' = h !! r') → h !! r = Some g → h' !! r = Some g' →
  P g g' →
  ∀ r0 g0 g0', h !! r0 = Some g0 → h' !! r0 = Some g0' → P g0 g0'.
Proof.
  intros Hrefl T1 Hg Hg' Hkeep r0 g0 g0' Hg0 Hg0'.
  destruct (decide (r0 = r)) as [->|Hne].
  - by simplify_eq.
  - rewrite T1 in Hg0' by done. simplify_eq. apply Hrefl.
Qed.

Lemma heap_same (P : GameState → GameState → Prop) (s s' : Server) :
  (∀ g0, P g0 g0) → heap s' = heap s →
  ∀ r0 g0 g0', heap s !! r0 = Some g0 → heap s' !! r0 = Some g0' → P g0 g0'.
Proof.
  intros Hrefl Hh r0 g0 g0' Hg0 Hg0'. rewrite Hh in Hg0'. simplify_eq. apply Hrefl.
Qed.

Section LifeCycle.
Context `{Env}.

Lemma handlePlayerTimeout_status room playerId r s g :
heap s !! r = Some g →
(∀ r', r' ≠ r → heap (handlePlayerTimeout room playerId r s).1 !! r' = heap s !! r')
∧ ∃ g', heap (handlePlayerTimeout room playerId r s).1 !! r = Some g'
        ∧ (status g' = status g ∨ status g' = finished)
        ∧ rematchRequest g' = rematchRequest g.
Proof.
intros Hg. unfold handlePlayerTimeout, finishGame. rewrite Hg.
assert (Hlt : r < length (heap s)) by by eapply lookup_lt_Some.
destruct (findPlayer playerId (players g)) as [p|] eqn:Hf.
2:{ split; [done|]. exists g. split; [done|]. split; [by left|done]. }
set (g1 := with_players _ g).
destruct (isEnd (checkGameEnd g1)); csimpl.
- split; [intros r' Hne; by rewrite list_lookup_insert_ne|].
  exists (with_status finished g1).
  split; [by apply list_lookup_insert_eq|]. split; [by right|done].
- split; [intros r' Hne; by rewrite list_lookup_insert_ne|].
  exists g1. split; [by apply list_lookup_insert_eq|]. split; [by left|done].
Qed.

(** Every event moves the status of every game state along the life cycle. *)
Lemma step_statusMove s a r g g' :
Inv s → heap s !! r = Some g → heap (stateOf (step s a)) !! r = Some g' →
statusMove a g g'.
Proof.
intros HI. revert r g g'.
destruct a as [sock playerName maxP len limit room rnd now|sock room playerName
    |sock word0|sock|sock rnd now|sock|sock|room playerId|k|k]; csimpl.
- (* create_room *)
  intros r g g' Hg. unfold create_room. case_match; csimpl.
  + rewrite lookup_app_l by by eapply lookup_lt_Some.
    intros. simplify_eq. apply statusMove_refl.
  + intros. simplify_eq. apply statusMove_refl.
- (* join_room *)
  unfold join_room.
  destruct (rooms_get room (gameRooms s)) as [r1|] eqn:Hr;
    [|by apply heap_same; [apply statusMove_refl|] ]. csimpl.
  destruct (heap s !! r1) as [g1|] eqn:Hg1;
    [|by apply heap_same; [apply statusMove_refl|] ]. csimpl.
  destruct (findPlayer sock (players g1)) as [q|] eqn:Hf;
    [by apply heap_same; [apply statusMove_refl|] |].
  case_decide; [by apply heap_same; [apply statusMove_refl|] |].
  case_decide as Hst; [by apply heap_same; [apply statusMove_refl|] |].
  assert (Hw : status g1 = waiting) by (destruct (status g1); done).
  assert (Hlt : r1 < length (heap s)) by by eapply lookup_lt_Some.
  set (g2 := with_players _ g1).
  case_decide.
  + set (s1 := setState r1 (with_status playing g2) (setState r1 g2 s)).
    assert (Hgs1 : heap s1 !! r1 = Some (with_status playing g2)).
    { apply setState_lookup. csimpl. by rewrite length_insert. }
    destruct (startAllTimers_timeless room r1 s1 _ Hgs1) as (Ht & g3 & Hg3 & Htl).
    rewrite Hg3.
    apply (heap_frame _ (heap s) (heap (startAllTimers room r1 s1)) r1 g1 g3);
      [apply statusMove_refl| |done|done|].
    * intros r' Hne. rewrite (touches_heap _ _ _ Ht) by done. unfold s1. csimpl.
      by rewrite !list_lookup_insert_ne.
    * right. left. split_and!; [done| | |by eexists _, _, _].
      -- by rewrite (timeless_status _ _ Htl).
      -- by rewrite (timeless_rematchRequest _ _ Htl).
  + apply (heap_frame _ (heap s) (<[r1 := g2]> (heap s)) r1 g1 g2);
      [apply statusMove_refl| |done| |by apply statusMove_same].
    * intros r' Hne. by rewrite list_lookup_insert_ne.
    * by apply list_lookup_insert_eq.
- (* make_guess *)
  unfold make_guess.
  destruct (callerState s sock) as [[[userRoom r1] g1]|] eqn:Hc;
    [|by apply heap_same; [apply statusMove_refl|] ].
  apply callerState_member in Hc as (Hin & Hg1 & Hpl).
  case_decide as Hst; [by apply heap_same; [apply statusMove_refl|] |].
  case_decide; [by apply heap_same; [apply statusMove_refl|] |].
  destruct (negb (isValidWord word0)); [by apply heap_same; [apply statusMove_refl|] |].
  destruct (findPlayer sock (players g1)) as [q|] eqn:Hf;
    [|by apply heap_same; [apply statusMove_refl|] ].
  case_decide; [by apply heap_same; [apply statusMove_refl|] |].
  destruct (isTimedOut q) eqn:Hto; [by apply heap_same; [apply statusMove_refl|] |].
  assert (Hp : status g1 = playing) by (destruct (status g1); naive_solver).
  assert (Hlt : r1 < length (heap s)) by by eapply lookup_lt_Some.
  set (entry := {| guess := toLowerCase word0; feedback := _ |}).
  set (g2 := with_players _ g1).
  set (s2 := if allCorrect _ then setState r1 g2 s
             else startPlayerTimer userRoom sock r1 (setState r1 g2 s)).
  assert (Hs2 : touches r1 s s2
                ∧ ∃ g3, heap s2 !! r1 = Some g3 ∧ timeless g3 = timeless g2).
  { unfold s2. destruct (allCorrect _).
    - split; [apply touches_setState|]. exists g2. split; [by apply setState_lookup|done].
    - split.
      + eapply touches_trans; [apply touches_setState|apply touches_startPlayerTimer].
      + apply startPlayerTimer_timeless. by apply setState_lookup. }
  destruct Hs2 as (Ht2 & g3 & Hg3 & Htl). rewrite Hg3.
  assert (Hst3 : status g3 = status g1) by by rewrite (timeless_status _ _ Htl).
  assert (Hrq3 : rematchRequest g3 = rematchRequest g1)
    by by rewrite (timeless_rematchRequest _ _ Htl).
  destruct (isEnd (checkGameEnd g3)).
  + apply (heap_frame _ (heap s)
             (<[r1 := with_status finished g3]> (heap s2)) r1 g1
             (with_status finished g3)); [apply statusMove_refl| |done| |].
    * intros r' Hne. rewrite list_lookup_insert_ne by done.
      by apply (touches_heap _ _ _ Ht2).
    * apply list_lookup_insert_eq. by eapply lookup_lt_Some.
    * right. right. left. split_and!; [by rewrite Hp|done|done|].
      left. split; [done|by eexists _, _].
  + apply (heap_frame _ (heap s) (heap s2) r1 g1 g3);
      [apply statusMove_refl| |done|done|by apply statusMove_same].
    intros r' Hne. by apply (touches_heap _ _ _ Ht2).
- (* request_rematch *)
  unfold request_rematch.
  destruct (callerState s sock) as [[[userRoom r1] g1]|] eqn:Hc;
    [|by apply heap_same; [apply statusMove_refl|] ].
  apply callerState_member in Hc as (Hin & Hg1 & Hpl).
  case_decide as Hst; [by apply heap_same; [apply statusMove_refl|] |].
  case_decide; [by apply heap_same; [apply statusMove_refl|] |].
  assert (Hfin : status g1 = finished) by (destruct (status g1); naive_solver).
  eapply (heap_frame _ (heap s) _ r1 g1); [apply statusMove_refl| |done| |].
  + intros r' Hne. csimpl. by rewrite list_lookup_insert_ne.
  + csimpl. apply list_lookup_insert_eq. by eapply lookup_lt_Some.
  + left. split; [done|]. right. right. left. split; [done|by eexists].
- (* accept_rematch *)
  unfold accept_rematch.
  destruct (callerState s sock) as [[[userRoom r1] g1]|] eqn:Hc;
    [|by apply heap_same; [apply statusMove_refl|] ].
  apply callerState_member in Hc as (Hin & Hg1 & Hpl).
  destruct (rematchRequest g1) as [rq|] eqn:Hrq;
    [|by apply heap_same; [apply statusMove_refl|] ].
  destruct (negb (requested rq)); [by apply heap_same; [apply statusMove_refl|] |].
  case_decide; [by apply heap_same; [apply statusMove_refl|] |].
  assert (Hlt : r1 < length (heap s)) by by eapply lookup_lt_Some.
  destruct (getRandomWord _ rnd) as [w|].
  + eapply (heap_frame _ (heap s) _ r1 g1); [apply statusMove_refl| |done| |].
    * intros r' Hne. csimpl. by rewrite list_lookup_insert_ne.
    * csimpl. by apply list_lookup_insert_eq.
    * right. right. right. split_and!; [by rewrite Hrq|done|done|by eexists _, _, _].
  + eapply (heap_frame _ (heap s) _ r1 g1); [apply statusMove_refl| |done| |].
    * intros r' Hne. csimpl. by rewrite list_lookup_insert_ne.
    * csimpl. by apply list_lookup_insert_eq.
    * left. split; [done|]. right. right. right.
      split; [by rewrite Hrq|by eexists _, _, _].
- (* decline_rematch *)
  unfold decline_rematch.
  destruct (callerState s sock) as [[[userRoom r1] g1]|] eqn:Hc;
    [|by apply heap_same; [apply statusMove_refl|] ].
  apply callerState_member in Hc as (Hin & Hg1 & Hpl).
  destruct (rematchRequest g1) as [rq|];
    [|by apply heap_same; [apply statusMove_refl|] ].
  destruct (negb (requested rq)); [by apply heap_same; [apply statusMove_refl|] |].
  eapply (heap_frame _ (heap s) _ r1 g1); [apply statusMove_refl| |done| |].
  + intros r' Hne. csimpl. by rewrite list_lookup_insert_ne.
  + csimpl. apply list_lookup_insert_eq. by eapply lookup_lt_Some.
  + left. split; [done|]. right. by left.
- (* disconnect *)
  unfold disconnect.
  destruct (roomOf s sock) as [[room r1]|] eqn:Hr;
    [|by apply heap_same; [apply statusMove_refl|] ].
  csimpl. apply roomOf_Some in Hr as (Hin & g1 & Hg1 & Hpl). rewrite Hg1. csimpl.
  assert (Hlt : r1 < length (heap s)) by by eapply lookup_lt_Some.
  set (g2 := with_players _ g1).
  case_decide.
  + apply (heap_frame _ (heap s) (<[r1 := g2]> (heap s)) r1 g1 g2);
      [apply statusMove_refl| |done| |by apply statusMove_same].
    * intros r' Hne. by rewrite list_lookup_insert_ne.
    * by apply list_lookup_insert_eq.
  + eapply (heap_frame _ (heap s) _ r1 g1 g2);
      [apply statusMove_refl| |done| |by apply statusMove_same].
    * intros r' Hne. cbn [stateOf]. rewrite clearPlayerTimer_heap. csimpl.
      by rewrite list_lookup_insert_ne.
    * cbn [stateOf]. rewrite clearPlayerTimer_heap. by apply list_lookup_insert_eq.
- (* timerTick *)
  unfold timerTick.
  destruct (timerRef s room playerId) as [r1|] eqn:Ht;
    [|by apply heap_same; [apply statusMove_refl|] ].
  destruct (inv_timers s HI _ _ _ Ht) as (g1 & Hg1 & Hact). rewrite Hg1.
  destruct (findPlayer playerId (players g1)) as [q|] eqn:Hf;
    [|by apply heap_same; [apply statusMove_refl|] ].
  assert (Hlt : r1 < length (heap s)) by by eapply lookup_lt_Some.
  set (g2 := with_players _ g1).
  case_decide.
  + set (s1 := clearPlayerTimer room playerId (setState r1 g2 s)).
    assert (Hgs1 : heap s1 !! r1 = Some g2).
    { unfold s1. rewrite clearPlayerTimer_heap. by apply setState_lookup. }
    destruct (handlePlayerTimeout_status room playerId r1 s1 g2 Hgs1)
      as (Hfr & g3 & Hg3 & Hst3 & Hrq3).
    destruct (handlePlayerTimeout room playerId r1 s1) as [s' out]. csimpl in *.
    apply (heap_frame _ (heap s) (heap s') r1 g1 g3);
      [apply statusMove_refl| |done|done|].
    * intros r' Hne. rewrite Hfr by done.
      unfold s1. rewrite clearPlayerTimer_heap. csimpl.
      by rewrite list_lookup_insert_ne.
    * destruct Hst3 as [Hsame|Hfin]; [by apply statusMove_same|].
      right. right. left. split_and!; [done..|]. right. by eexists _, _.
  + apply (heap_frame _ (heap s) (<[r1 := g2]> (heap s)) r1 g1 g2);
      [apply statusMove_refl| |done| |by apply statusMove_same].
    * intros r' Hne. by rewrite list_lookup_insert_ne.
    * by apply list_lookup_insert_eq.
- (* countdownTick *)
  unfold countdownTick.
  destruct (countdowns s !! k) as [cd|] eqn:Hk;
    [|by apply heap_same; [apply statusMove_refl|] ].
  destruct (inv_countdowns s HI cd) as (g1 & Hg1 & _);
    [by eapply list_elem_of_lookup_2|].
  case_decide; [|by apply heap_same; [apply statusMove_refl|] ].
  set (s1 := set_countdowns _ s).
  destruct (startAllTimers_timeless (cd_room cd) (cd_state cd) s1 g1 Hg1)
    as (Ht & g2 & Hg2 & Htl).
  rewrite Hg2.
  apply (heap_frame _ (heap s)
           (heap (startAllTimers (cd_room cd) (cd_state cd) s1))
           (cd_state cd) g1 g2); [apply statusMove_refl| |done..|].
  + intros r' Hne. by rewrite (touches_heap _ _ _ Ht).
  + apply statusMove_same.
    * by rewrite (timeless_status _ _ Htl).
    * by rewrite (timeless_rematchRequest _ _ Htl).
- (* cleanupFire *)
  unfold cleanupFire.
  destruct (cleanups s !! k); by apply heap_same; [apply statusMove_refl|].
Qed.

Lemma startPlayerTimer_length room playerId r s :
length (heap (startPlayerTimer room playerId r s)) = length (heap s).
Proof. apply (touches_length r), touches_startPlayerTimer. Qed.

Lemma startAllTimers_length room r s :
length (heap (startAllTimers room r s)) = length (heap s).
Proof.
destruct (heap s !! r) as [g|] eqn:Hg.
- destruct (startAllTimers_timeless room r s g Hg) as (Ht & _).
  by apply (touches_length r).
- unfold startAllTimers. by rewrite Hg.
Qed.

Lemma handlePlayerTimeout_length room playerId r s :
length (heap (handlePlayerTimeout room playerId r s).1) = length (heap s).
Proof.
unfold handlePlayerTimeout, finishGame.
repeat case_match; csimpl; simplify_eq; csimpl; by rewrite ?length_insert.
Qed.

(** Only [create_room] allocates a game state. *)
Lemma step_heap_length s a :
(∀ sock playerName maxP len limit room rnd now,
   a ≠ CreateRoom sock playerName maxP len limit room rnd now) →
length (heap (stateOf (step s a))) = length (heap s).
Proof.
intros Hnot.
destruct a as [sock playerName maxP len limit room rnd now|sock room playerName
    |sock word0|sock|sock rnd now|sock|sock|room playerId|k|k]; csimpl.
- by destruct (Hnot sock playerName maxP len limit room rnd now).
- unfold join_room. repeat case_match; csimpl;
    rewrite ?startAllTimers_length; csimpl; by rewrite ?length_insert.
- unfold make_guess, finishGame.
  destruct (callerState s sock) as [[[userRoom r] g]|]; [|done].
  repeat (case_decide; [done|]).
  destruct (negb (isValidWord word0)); [done|].
  destruct (findPlayer sock (players g)) as [q|]; [|done].
  repeat (case_decide; [done|]).
  destruct (isTimedOut q); [done|].
  set (s2 := if allCorrect _ then _ else _).
  assert (Hs2 : length (heap s2) = length (heap s)).
  { unfold s2. destruct (allCorrect _); rewrite ?startPlayerTimer_length; csimpl;
      by rewrite length_insert. }
  destruct (heap s2 !! r) as [g2|]; csimpl; [|done].
  destruct (isEnd (checkGameEnd g2)); csimpl; by rewrite ?length_insert.
- unfold request_rematch. repeat case_match; csimpl; by rewrite ?length_insert.
- unfold accept_rematch. repeat case_match; csimpl; by rewrite ?length_insert.
- unfold decline_rematch. repeat case_match; csimpl; by rewrite ?length_insert.
- unfold disconnect. repeat case_match; csimpl;
    rewrite ?clearPlayerTimer_heap; csimpl; by rewrite ?length_insert.
- unfold timerTick.
  destruct (timerRef s room playerId) as [r|]; [|done].
  destruct (heap s !! r) as [g|]; [|done].
  destruct (findPlayer playerId (players g)) as [q|]; [|done].
  case_decide; [|csimpl; by rewrite length_insert].
  match goal with |- context [handlePlayerTimeout ?a ?b ?c ?d] =>
    pose proof (handlePlayerTimeout_length a b c d) as Hlen;
    destruct (handlePlayerTimeout a b c d) as [s' out] end.
  csimpl in *. rewrite Hlen, clearPlayerTimer_heap. csimpl. by rewrite length_insert.
- unfold countdownTick. repeat case_match; csimpl;
    by rewrite ?startAllTimers_length.
- unfold cleanupFire. by repeat case_match.
Qed.

Lemma step_Asked s a : Inv s → Asked s → Asked (stateOf (step s a)).
Proof.
intros HI HA r g' Hg' Hrq.
destruct (heap s !! r) as [g|] eqn:Hg.
- pose proof (HA r g Hg) as Hold.
  destruct (step_statusMove s a r g g' HI Hg Hg')
    as [(Hst & Hcase)|[(Hw & _ & Heq & _)|[(_ & Hfin & _)|(_ & _ & Hnone & _)]]].
  + rewrite Hst. destruct Hcase as [Heq|[Hnone|[(Hfin & _)|(Hsome & _)]]];
      [apply Hold; by rewrite <- Heq|done|done|by apply Hold].
  + rewrite Heq in Hrq. specialize (Hold Hrq). congruence.
  + done.
  + done.
- (* a state that this very step created *)
  apply lookup_ge_None in Hg. pose proof (lookup_lt_Some _ _ _ Hg') as Hlt.
  destruct a as [sock playerName maxP len limit room rnd now|sock room playerName
      |sock word0|sock|sock rnd now|sock|sock|room playerId|k|k];
    try (rewrite step_heap_length in Hlt by (intros; discriminate); lia).
  csimpl in Hg'. unfold create_room in Hg'.
  destruct (getRandomWord _ rnd); csimpl in Hg'.
  + apply lookup_app_Some in Hg' as [Hg'|[_ Hg']];
      [apply lookup_lt_Some in Hg'; lia|].
    apply list_lookup_singleton_Some in Hg' as [_ <-]. done.
  + apply lookup_lt_Some in Hg'. lia.
Qed.

Lemma reachable_Asked s : reachable s → Asked s.
Proof.
induction 1 as [|s a Hs IH].
- intros r g Hg. csimpl in Hg. by rewrite lookup_nil in Hg.
- apply step_Asked; [by apply reachable_Inv|done].
Qed.

(** X24. The life cycle of a game. In a reachable state, an event changes
  the status of a game state in three ways only: from [waiting] to
  [playing], by a [join_room]; from [playing] to [finished], by a
  [make_guess] or by a tick of a player's clock; from [finished] to
  [playing], by an [accept_rematch]. No game ever returns to [waiting]. *)
Theorem status_life_cycle (s : Server) (a : Action) (r : nat) (g g' : GameState) :
reachable s →
heap s !! r = Some g → heap (stateOf (step s a)) !! r = Some g' →
status g' ≠ status g →
(status g = waiting ∧ status g' = playing
 ∧ ∃ sock room playerName, a = JoinRoom sock room playerName)
∨ (status g = playing ∧ status g' = finished
   ∧ ((∃ sock guess, a = MakeGuess sock guess)
      ∨ ∃ room playerId, a = TimerTick room playerId))
∨ (status g = finished ∧ status g' = playing
   ∧ ∃ sock rnd now, a = AcceptRematch sock rnd now).
Proof.
intros Hreach Hg Hg' Hchange.
pose proof (reachable_Inv s Hreach) as HI.
destruct (step_statusMove s a r g g' HI Hg Hg')
  as [(Hst & _)|[(Hw & Hp & _ & Ha)|[(Hact & Hfin & _ & Ha)|(Hrq & Hp & _ & Ha)]]].
- done.
- left. by split_and!.
- right. left. split_and!; [|done|].
  + destruct (status g); [done|done|congruence].
  + destruct Ha as [(_ & Ha)|Ha]; [by left|by right].
- right. right. split_and!; [|done..].
  by apply (reachable_Asked s Hreach r g Hg).
Qed.

(** X25. In a reachable state, a rematch request is pending in finished
  games only: a game that is [waiting] or [playing] has none. *)
Theorem rematch_request_only_when_finished (s : Server) (r : nat) (g : GameState)
  (rq : RematchRequest) :
reachable s → heap s !! r = Some g → rematchRequest g = Some rq →
status g = finished.
Proof.
intros Hreach Hg Hrq. apply (reachable_Asked s Hreach r g Hg). by rewrite Hrq.
Qed.

(** X26. In a reachable state, a game that is [waiting] is quiet: no timer
  and no rematch countdown runs on it, none of its players has made a
  guess or is timed out, and no rematch request is pending. *)
Theorem waiting_room_is_quiet (s : Server) (r : nat) (g : GameState) :
reachable s → heap s !! r = Some g → status g = waiting →
(∀ room playerId, timerRef s room playerId ≠ Some r)
∧ (∀ cd, cd ∈ countdowns s → cd_state cd ≠ r)
∧ Forall (λ p, guesses p = [] ∧ isTimedOut p = false) (players g)
∧ rematchRequest g = None.
Proof.
intros Hreach Hg Hw. pose proof (reachable_Inv s Hreach) as HI. split_and!.
- intros room playerId Ht.
  destruct (inv_timers s HI _ _ _ Ht) as (g0 & Hg0 & Hact). congruence.
- intros cd Hcd Heq.
  destruct (inv_countdowns s HI cd Hcd) as (g0 & Hg0 & Hact).
  rewrite Heq in Hg0. congruence.
- destruct (inv_states s HI r g Hg) as [[_ _ Hfresh _] _]. by apply Hfresh.
- destruct (rematchRequest g) as [rq|] eqn:Hrq; [|done].
  pose proof (reachable_Asked s Hreach r g Hg) as Hfin.
  rewrite Hrq in Hfin. specialize (Hfin ltac:(done)). congruence.
Qed.

(** X27. In a reachable state, the players of a game have distinct ids, and
  two keys of the registry never lead to the same game state. *)
Theorem players_and_rooms_are_distinct (s : Server) :
reachable s →
(∀ r g, heap s !! r = Some g → NoDup (id <$> players g))
∧ (∀ k1 k2 r, (k1, r) ∈ gameRooms s → (k2, r) ∈ gameRooms s → k1 = k2).
Proof.
intros Hreach. pose proof (reachable_Inv s Hreach) as HI. split_and!.
- intros r g Hg. by destruct (inv_states s HI r g Hg) as [[_ _ _ ?] _].
- intros k1 k2 r. apply rooms_same_state, (inv_distinct s HI).
Qed.
End LifeCycle.

(** A's winning guess takes the game from [playing] to [finished]. *)
Lemma status_life_cycle_sample :
  let s := run (H := sampleEnv)
             [CreateRoom "A" "Ayse" (Some (Qc_of_Z 2)) (Some 5%Z) (tl_number 30)
                          "ROOM01" 0 1000%Z;
              JoinRoom "B" "ROOM01" "Berk"] initialServer in
  let a := MakeGuess "A" (word "kapak") in
  reachable (H := sampleEnv) s
  ∧ ∃ g g',
      heap s !! 0 = Some g
      ∧ heap (stateOf (step (H := sampleEnv) s a)) !! 0 = Some g'
      ∧ status g = playing ∧ status g' = finished
      ∧ ((status g = waiting ∧ status g' = playing
          ∧ ∃ sock room playerName, a = JoinRoom sock room playerName)
         ∨ (status g = playing ∧ status g' = finished
            ∧ ((∃ sock guess, a = MakeGuess sock guess)
               ∨ ∃ room playerId, a = TimerTick room playerId))
         ∨ (status g = finished ∧ status g' = playing
            ∧ ∃ sock rnd now, a = AcceptRematch sock rnd now)).
Proof.
  intros s a.
  assert (Hreach : reachable (H := sampleEnv) s)
    by (apply reachable_run; constructor).
  split; [exact Hreach|].
  destruct (heap s !! 0) as [g|] eqn:Hg; [|by vm_compute in Hg].
  destruct (heap (stateOf (step (H := sampleEnv) s a)) !! 0) as [g'|] eqn:Hg';
    [|by vm_compute in Hg'].
  assert (Hst : status g = playing)
    by (vm_compute in Hg; by injection Hg as <-).
  assert (Hst' : status g' = finished)
    by (vm_compute in Hg'; by injection Hg' as <-).
  assert (Hchange : status g' ≠ status g) by (rewrite Hst, Hst'; discriminate).
  exists g, g'. split_and!; [reflexivity|reflexivity|exact Hst|exact Hst'|].
  exact (@status_life_cycle sampleEnv s a 0 g g' Hreach Hg Hg' Hchange).
Defined.

(** B has asked for a rematch of the game that A won. *)
Lemma rematch_request_only_when_finished_sample :
  let s := run (H := sampleEnv)
             [CreateRoom "A" "Ayse" (Some (Qc_of_Z 2)) (Some 5%Z) (tl_number 30)
                          "ROOM01" 0 1000%Z;
              JoinRoom "B" "ROOM01" "Berk";
              MakeGuess "A" (word "kapak");
              RequestRematch "B"] initialServer in
  reachable (H := sampleEnv) s
  ∧ ∃ g rq, heap s !! 0 = Some g ∧ rematchRequest g = Some rq
            ∧ requesterId rq = "B" ∧ status g = finished.
Proof.
  intros s.
  assert (Hreach : reachable (H := sampleEnv) s)
    by (apply reachable_run; constructor).
  split; [exact Hreach|].
  destruct (heap s !! 0) as [g|] eqn:Hg; [|by vm_compute in Hg].
  destruct (rematchRequest g) as [rq|] eqn:Hrq.
  2:{ vm_compute in Hg. injection Hg as <-. by vm_compute in Hrq. }
  assert (Hby : requesterId rq = "B").
  { vm_compute in Hg. injection Hg as <-. vm_compute in Hrq. by injection Hrq as <-. }
  exists g, rq. split_and!; [reflexivity|exact Hrq|exact Hby|].
  exact (@rematch_request_only_when_finished sampleEnv s 0 g rq Hreach Hg Hrq).
Defined.

(** A room that waits for its second player. *)
Lemma waiting_room_is_quiet_sample :
  let s := run (H := sampleEnv)
             [CreateRoom "A" "Ayse" (Some (Qc_of_Z 2)) (Some 5%Z) (tl_number 30)
                          "ROOM01" 0 1000%Z]
             initialServer in
  reachable (H := sampleEnv) s
  ∧ ∃ g, heap s !! 0 = Some g ∧ status g = waiting
         ∧ (∀ room playerId, timerRef s room playerId ≠ Some 0)
         ∧ (∀ cd, cd ∈ countdowns s → cd_state cd ≠ 0)
         ∧ Forall (λ p, guesses p = [] ∧ isTimedOut p = false) (players g)
         ∧ rematchRequest g = None.
Proof.
  intros s.
  assert (Hreach : reachable (H := sampleEnv) s)
    by (apply reachable_run; constructor).
  split; [exact Hreach|].
  destruct (heap s !! 0) as [g|] eqn:Hg; [|by vm_compute in Hg].
  assert (Hw : status g = waiting)
    by (vm_compute in Hg; by injection Hg as <-).
  exists g. split; [reflexivity|]. split; [exact Hw|].
  exact (@waiting_room_is_quiet sampleEnv s 0 g Hreach Hg Hw).
Defined.

Lemma players_and_rooms_are_distinct_sample :
  let s := run (H := sampleEnv)
             [CreateRoom "A" "Ayse" (Some (Qc_of_Z 2)) (Some 5%Z) (tl_number 30)
                          "ROOM01" 0 1000%Z;
              JoinRoom "B" "ROOM01" "Berk";
              CreateRoom "C" "Cem" (Some (Qc_of_Z 3)) (Some 6%Z) tl_null "ROOM02" 0 2000%Z]
             initialServer in
  reachable (H := sampleEnv) s
  ∧ length (gameRooms s) = 2
  ∧ (∀ r g, heap s !! r = Some g → NoDup (id <$> players g))
  ∧ (∀ k1 k2 r, (k1, r) ∈ gameRooms s → (k2, r) ∈ gameRooms s → k1 = k2).
Proof.
  intros s.
  assert (Hreach : reachable (H := sampleEnv) s)
    by (apply reachable_run; constructor).
  split; [exact Hreach|]. split; [reflexivity|].
  exact (@players_and_rooms_are_distinct sampleEnv s Hreach).
Defined.
